(** * Audio ingestion pipeline of [stt/transcribe.py]

    A shallow embedding of [load_wav] and [main] from
    [packages/coding-agent/src/stt/transcribe.py], together with the
    parts of Python, [numpy] and [re] that these two functions call.

    Conventions.
    - Python exceptions are values of [exn]; code that may raise lives in
      the [result] monad.
    - A [bytes] object is a [list byte]; [np.frombuffer] reads it in the
      byte order of WAV data (little endian).
    - A float is the rational number of [Q] that it stands for, and
      an operation of binary floating point is the operation of [Q]
      followed by the rounding to the format ([np.float32],
      [np.float64]): to the nearest number of the format, ties to the
      even significand, subnormal numbers included.  Overflow, signed
      zeros, infinities and NaN are not modelled: samples lie in
      [-1, 1] and positions are array indices.  A number that the
      format holds is stored as it is, the very same rational.
    - Normalisation converts integers to binary32 ([float32_of_Z]);
      its subtraction of 128 and its divisions by a power of two are
      exact in binary32.  Mixing adds the samples of a frame in binary32
      in the order of numpy's pairwise summation and divides the sum in
      binary32.  Resampling computes its positions and interpolates in
      binary64, the product and the sum of [slope * (x - xp[j]) + fp[j]]
      being rounded one after the other, and stores the result in
      binary32.
    - A length or an index of an array converts to binary64 as it is:
      arrays are far shorter than 2^53.  In the same way
      [len(audio) * 16000 / rate] is a correctly rounded quotient of two
      integers; below 2^53 its truncation is the truncation of the exact
      quotient, which is what [target_len] computes here. *)

From Stdlib Require Import ZArith QArith Qround Qabs Qpower List Lia Lqa Bool.
From Stdlib Require Import String Ascii.
From Stdlib Require Import DecimalString Sorted Permutation.
From Stdlib Require Import Init.Byte Strings.Byte.
Import ListNotations.

Local Open Scope Z_scope.

(** ** Exceptions and the error monad *)

Inductive exn : Type :=
| UnsupportedSampleWidth (width : Z)   (* ValueError, line 34 *)
| BufferSizeNotMultiple                (* ValueError of np.frombuffer *)
| CannotReshape (size channels : Z)    (* ValueError of ndarray.reshape *)
| ZeroDivisionError                    (* len(audio) * 16000 / 0 *)
| NegativeSampleCount (num : Z)        (* ValueError of np.linspace *)
| EmptySamplePoints                    (* ValueError of np.interp *)
| WaveOpenError (path : string)        (* wave.open failed *)
| WhisperError (what : string).        (* raised inside the model library *)

Inductive result (A : Type) : Type :=
| Ok (a : A)
| Raise (e : exn).

Arguments Ok {A} a.
Arguments Raise {A} e.

Definition bind {A B : Type} (m : result A) (k : A -> result B) : result B :=
  match m with
  | Ok a => k a
  | Raise e => Raise e
  end.

Notation "x <- m ;; k" := (bind m (fun x => k))
  (at level 61, m at next level, right associativity).

(** ** Rows of a flat array *)

(** [rows n fuel l] cuts [l] into consecutive rows of [n] elements, in
    order; [fuel] bounds the number of rows and is the length of [l]
    wherever it is used. *)
Fixpoint rows {A : Type} (n : nat) (fuel : nat) (l : list A) : list (list A) :=
  match fuel with
  | O => []
  | S fuel' =>
      match l with
      | [] => []
      | _ :: _ => firstn n l :: rows n fuel' (skipn n l)
      end
  end.

Definition len {A : Type} (l : list A) : Z := Z.of_nat (List.length l).

(** ** numpy: dtypes, frombuffer, astype *)

Module np.

Inductive dtype : Type := uint8 | int16 | int32.

Definition itemsize (dt : dtype) : Z :=
  match dt with uint8 => 1 | int16 => 2 | int32 => 4 end.

Definition byte_val (b : byte) : Z := Z.of_N (Byte.to_N b).

(** The unsigned little-endian value of an item. *)
Definition le_unsigned (item : list byte) : Z :=
  fold_right (fun b acc => byte_val b + 256 * acc) 0 item.

(** Two's complement reading of an unsigned [bits]-bit value. *)
Definition to_signed (bits : Z) (u : Z) : Z :=
  if u <? 2 ^ (bits - 1) then u else u - 2 ^ bits.

Definition decode (dt : dtype) (item : list byte) : Z :=
  match dt with
  | uint8 => le_unsigned item
  | int16 => to_signed 16 (le_unsigned item)
  | int32 => to_signed 32 (le_unsigned item)
  end.

(** [np.frombuffer(raw, dtype=dt)]. *)
Definition frombuffer (raw : list byte) (dt : dtype) : result (list Z) :=
  if len raw mod itemsize dt =? 0
  then Ok (map (decode dt) (rows (Z.to_nat (itemsize dt)) (List.length raw) raw))
  else Raise BufferSizeNotMultiple.

(** The integer nearest to [n] among the binary32 numbers, ties to the
    even significand: the value of [np.float32(n)].  Integers below 2^24
    in magnitude are binary32 numbers; above, the significand keeps 24
    bits. *)
Definition round_to_float32 (n : Z) : Z :=
  let a := Z.abs n in
  if a <? 2 ^ 24 then n
  else
    let e := Z.log2 a - 23 in
    let q := a / 2 ^ e in
    let r := a mod 2 ^ e in
    let half := 2 ^ (e - 1) in
    let q' := if r <? half then q
              else if half <? r then q + 1
              else if Z.even q then q else q + 1 in
    Z.sgn n * (q' * 2 ^ e).

(** [a.astype(np.float32)] on one integer item. *)
Definition float32_of_Z (n : Z) : Q := inject_Z (round_to_float32 n).

(** [np.arange(n)]: the indices 0, 1, ..., n-1 as floats. *)
Definition arange (n : Z) : list Q :=
  map (fun i => inject_Z (Z.of_nat i)) (seq 0 (Z.to_nat n)).

(** [a.reshape(-1, columns)] for [columns > 0]: the rows of [a], or a
    [ValueError] when the size of [a] is not a multiple of [columns]. *)
Definition reshape {A : Type} (a : list A) (columns : Z) : result (list (list A)) :=
  if len a mod columns =? 0
  then Ok (rows (Z.to_nat columns) (List.length a) a)
  else Raise (CannotReshape (len a) columns).

(** *** Binary floating point *)

(** The exponent of a non-zero number: the [k] with
    2^k <= |q| < 2^(k+1). *)
Definition ilog2 (q : Q) : Z :=
  let k := Z.log2 (Z.abs (Qnum q)) - Z.log2 (Z.pos (Qden q)) in
  if Qle_bool (2 ^ k) (Qabs q) then k else k - 1.

(** The integer nearest to [m], a tie going to the even one. *)
Definition nearest_even (m : Q) : Z :=
  let f := Qfloor m in
  match (m - inject_Z f ?= 1 # 2)%Q with
  | Lt => f
  | Gt => f + 1
  | Eq => if Z.even f then f else f + 1
  end.

(** Rounding to the nearest number with a significand of [p] bits and
    an exponent of the last place no smaller than [emin] (below it the
    numbers are subnormal), ties to the even significand.  No largest
    exponent is modelled: audio samples and array indices are far from
    overflow in either format. *)
Definition round_to_precision (p emin : Z) (q : Q) : Q :=
  if Qeq_bool q 0 then 0%Q
  else
    let e := Z.max (ilog2 q - (p - 1)) emin in
    (inject_Z (nearest_even (q / 2 ^ e)) * 2 ^ e)%Q.

(** Storing a number in a format: a number of the format is stored as
    it is, any other is rounded. *)
Definition cast (p emin : Z) (q : Q) : Q :=
  let r := round_to_precision p emin q in
  if Qeq_bool r q then q else r.

(** binary32, [np.float32]: 24 bits, least subnormal 2^-149. *)
Definition float32 : Q -> Q := cast 24 (-149).

(** binary64, [np.float64] and the C [double]: 53 bits, least subnormal
    2^-1074. *)
Definition float64 : Q -> Q := cast 53 (-1074).

(** [a.astype(np.float32)] on an array of binary64 numbers. *)
Definition astype_float32 (a : list Q) : list Q := map float32 a.

(** *** [np.add.reduce] and [mean] on binary32 rows *)

(** One binary32 addition. *)
Definition add32 (a b : Q) : Q := float32 (a + b).

(** The loop [for (i = 8; i < n - (n % 8); i += 8)] of the pairwise
    summation, [blocks] times: each of the eight accumulators [r]
    takes one item of the next eight. *)
Fixpoint add_blocks (blocks : nat) (r a : list Q) : list Q :=
  match blocks with
  | O => r
  | S blocks' =>
      add_blocks blocks' (map (fun ra => add32 (fst ra) (snd ra))
                              (combine r (firstn 8 a)))
                 (skipn 8 a)
  end.

(** [((r0 + r1) + (r2 + r3)) + ((r4 + r5) + (r6 + r7))]. *)
Definition add_accumulators (r : list Q) : Q :=
  match r with
  | [r0; r1; r2; r3; r4; r5; r6; r7] =>
      add32 (add32 (add32 r0 r1) (add32 r2 r3))
            (add32 (add32 r4 r5) (add32 r6 r7))
  | _ => 0%Q
  end.

(** The summation of a run of binary32 numbers by [np.add.reduce]
    ([pairwise_sum] of numpy's loops).  Fewer than eight items are added
    from left to right; adding the first one to the initial zero leaves
    it as it is.  Up to 128 items go through eight accumulators, the
    items after the last whole block of eight being added one by one at
    the end.  A longer run is cut in two, the first part a multiple of
    eight, and the two sums are added.  [fuel] bounds the depth of the
    cuts; the length of the run is enough. *)
Fixpoint pairwise_sum (fuel : nat) (a : list Q) : Q :=
  let n := List.length a in
  if (n <? 8)%nat then
    match a with
    | [] => 0%Q
    | x :: xs => fold_left add32 xs x
    end
  else if (n <=? 128)%nat then
    let r := add_blocks (n / 8 - 1) (firstn 8 a) (skipn 8 a) in
    fold_left add32 (skipn (n - n mod 8) a) (add_accumulators r)
  else
    match fuel with
    | O => 0%Q
    | S fuel' =>
        let n2 := (n / 2 - (n / 2) mod 8)%nat in
        add32 (pairwise_sum fuel' (firstn n2 a)) (pairwise_sum fuel' (skipn n2 a))
    end.

(** [np.add.reduce] over one row. *)
Definition sum (row : list Q) : Q := pairwise_sum (List.length row) row.

(** [m.mean(axis=1)] of a binary32 array of [columns] columns: the sum
    of each row, added up in binary32, is divided by the number of
    columns, and the quotient is a binary32 number again. *)
Definition mean_axis1 (columns : Z) (m : list (list Q)) : list Q :=
  map (fun row => float32 (sum row / inject_Z columns)) m.

(** *** [np.linspace] and [np.interp] in binary64 *)

Definition set_last (y : list Q) (v : Q) : list Q := removelast y ++ [v].

(** [np.linspace(start, stop, num)] with [endpoint=True], on binary64
    numbers.  The step is the rounded quotient of [stop - start] by
    [num - 1], and item [i] is the rounded product of [i] and the step,
    plus [start]; a step that rounds to zero is replaced by a division
    of [i] first.  The last item is set to [stop].  With a single item
    there is no step and the item is [start]. *)
Definition linspace (start stop : Q) (num : Z) : result (list Q) :=
  if num <? 0 then Raise (NegativeSampleCount num)
  else
    let div := num - 1 in
    let delta := float64 (stop - start) in
    let y := arange num in
    let y :=
      if 0 <? div then
        let step := float64 (delta / inject_Z div) in
        if Qeq_bool step 0
        then map (fun i => float64 (float64 (i / inject_Z div) * delta)) y
        else map (fun i => float64 (i * step)) y
      else map (fun i => float64 (i * delta)) y in
    let y := map (fun v => float64 (v + start)) y in
    Ok (if 1 <? num then set_last y stop else y).

(** The point at [x] of the line through [(x0, y0)] and [(x1, y1)], as
    [np.interp] evaluates it: [slope * (x - x0) + y0] with the slope
    [(y1 - y0) / (x1 - x0)], each operation rounded to binary64. *)
Definition on_segment (x0 y0 x1 y1 x : Q) : Q :=
  let slope := float64 (float64 (y1 - y0) / float64 (x1 - x0)) in
  float64 (float64 (slope * float64 (x - x0)) + y0).

(** The loop body of [np.interp] once [xp[0] <= x]: walk to the last
    index [j] with [xp[j] <= x]; at the last sample point, or exactly on
    a sample point, the result is [fp[j]]; otherwise it is the value at
    [x] of the line through the two neighbouring points. *)
Fixpoint interp_from (x : Q) (xp fp : list Q) {struct xp} : Q :=
  match xp, fp with
  | x0 :: ((x1 :: _) as xp'), y0 :: ((y1 :: _) as fp') =>
      if Qle_bool x1 x then interp_from x xp' fp'
      else if Qeq_bool x0 x then y0
      else on_segment x0 y0 x1 y1 x
  | _, y0 :: _ => y0
  | _, [] => 0%Q
  end.

(** One output item of [np.interp]: left of [xp[0]] the result is
    [fp[0]], right of the last sample point it is the last of [fp]. *)
Definition interp1 (x : Q) (xp fp : list Q) : Q :=
  match xp, fp with
  | x0 :: _, y0 :: _ => if Qle_bool x0 x then interp_from x xp fp else y0
  | _, _ => 0%Q
  end.

(** [np.interp(x, xp, fp)] for [xp] and [fp] of one length: an array of
    binary64 numbers.  The samples of [fp] are binary32 numbers, which
    are binary64 numbers as they stand. *)
Definition interp (x xp fp : list Q) : result (list Q) :=
  if len xp =? 0 then Raise EmptySamplePoints
  else Ok (map (fun x_val => interp1 x_val xp fp) x).

End np.

(** ** [load_wav], lines 27-34: sample normalisation *)

Local Open Scope Q_scope.

Definition normalize (width : Z) (raw : list byte) : result (list Q) :=
  if (width =? 2)%Z then
    a <- np.frombuffer raw np.int16 ;;
    Ok (map (fun x => np.float32_of_Z x / 32768) a)
  else if (width =? 1)%Z then
    a <- np.frombuffer raw np.uint8 ;;
    Ok (map (fun x => (np.float32_of_Z x - 128) / 128) a)
  else if (width =? 4)%Z then
    a <- np.frombuffer raw np.int32 ;;
    Ok (map (fun x => np.float32_of_Z x / 2147483648) a)
  else
    Raise (UnsupportedSampleWidth width).

(** ** [load_wav], lines 36-38: mix to mono *)

Definition mix_to_mono (channels : Z) (audio : list Q) : result (list Q) :=
  if (channels >? 1)%Z then
    m <- np.reshape audio channels ;;
    Ok (np.mean_axis1 channels m)
  else
    Ok audio.

(** ** [load_wav], lines 40-47: resample to 16 kHz *)

(** [int(a / b)] for Python integers [a] and [b]: true division, then
    truncation toward zero. *)
Definition int_of_quotient (a b : Z) : result Z :=
  if (b =? 0)%Z then Raise ZeroDivisionError else Ok (Z.quot a b).

Definition resample (rate : Z) (audio : list Q) : result (list Q) :=
  if negb (rate =? 16000)%Z then
    target_len <- int_of_quotient (len audio * 16000) rate ;;
    x <- np.linspace 0 (inject_Z (len audio - 1)) target_len ;;
    y <- np.interp x (np.arange (len audio)) audio ;;
    Ok (np.astype_float32 y)
  else
    Ok audio.

(** ** [load_wav] *)

(** What [wave.open(path, "rb")] gives: the header fields and the bytes
    returned by [readframes(getnframes())]. *)
Record wave_read : Type := {
  getframerate : Z;
  getnchannels : Z;
  getsampwidth : Z;
  readframes : list byte
}.

Definition decode_wav (wf : wave_read) : result (list Q) :=
  let rate := getframerate wf in
  let channels := getnchannels wf in
  let width := getsampwidth wf in
  let raw := readframes wf in
  audio <- normalize width raw ;;
  audio <- mix_to_mono channels audio ;;
  resample rate audio.

(** ** Python [re]: the fragment the language pattern is written in *)

Module re.

Inductive charset : Type :=
| Range (lo hi : ascii)              (* lo-hi inside brackets *)
| Or (a b : charset).                (* juxtaposition inside brackets *)

Fixpoint in_charset (cs : charset) (c : ascii) : bool :=
  match cs with
  | Range lo hi =>
      ((N_of_ascii lo <=? N_of_ascii c) && (N_of_ascii c <=? N_of_ascii hi))%N
  | Or a b => in_charset a c || in_charset b c
  end.

Inductive regex : Type :=
| Set_ (cs : charset)                (* [...] *)
| Lit (c : ascii)                    (* a literal character *)
| Cat (r1 r2 : regex)                (* r1 r2 *)
| Opt (r : regex)                    (* (r)? *)
| Rep (lo hi : nat) (r : regex).     (* r{lo,hi} *)

(** A backtracking matcher: [run r s k] tries every way in which a
    prefix of [s] matches [r], greedy choices first, and asks [k] about
    the rest. *)
Fixpoint run (r : regex) (s : string) (k : string -> bool) {struct r} : bool :=
  match r with
  | Set_ cs =>
      match s with
      | String c s' => in_charset cs c && k s'
      | EmptyString => false
      end
  | Lit c =>
      match s with
      | String c' s' => Ascii.eqb c c' && k s'
      | EmptyString => false
      end
  | Cat r1 r2 => run r1 s (fun s' => run r2 s' k)
  | Opt r1 => run r1 s k || k s
  | Rep lo hi r1 =>
      (fix rep (lo hi : nat) (s : string) {struct hi} : bool :=
         match hi with
         | O => (lo =? 0)%nat && k s
         | S hi' =>
             run r1 s (fun s' => rep (pred lo) hi' s') || ((lo =? 0)%nat && k s)
         end) lo hi s
  end.

(** [re.fullmatch(r, s)] as a truth value: the whole of [s] matches. *)
Definition fullmatch (r : regex) (s : string) : bool :=
  run r s (fun rest => match rest with EmptyString => true | String _ _ => false end).

End re.

(** ** [main], lines 52-66 *)

(** [A-Za-z] *)
Definition letters : re.charset := re.Or (re.Range "A" "Z") (re.Range "a" "z").

(** The pattern of line 59: [[A-Za-z]{2,3}(-[A-Za-z]{2})?]. *)
Definition language_pattern : re.regex :=
  re.Cat (re.Rep 2 3 (re.Set_ letters))
         (re.Opt (re.Cat (re.Lit "-") (re.Rep 2 2 (re.Set_ letters)))).

Definition valid_language (language : string) : bool :=
  re.fullmatch language_pattern language.

(** What a run of [main] does to the outside world, in order. *)
Inductive event : Type :=
| Stderr (line : string)             (* print(..., file=sys.stderr) *)
| Stdout (line : string)             (* print(...) *)
| WaveOpen (path : string)           (* wave.open(path, "rb") *)
| LoadModel (name : string)          (* whisper.load_model(name) *)
| Transcribe (language : string).    (* model.transcribe(audio, language=...) *)

(** How a run of [main] ends. *)
Inductive outcome : Type :=
| Returns                            (* falls off the end: exit status 0 *)
| SysExit (code : Z)                 (* sys.exit(code) *)
| Uncaught (e : exn).                (* traceback: exit status 1 *)

Definition exit_status (o : outcome) : Z :=
  match o with
  | Returns => 0
  | SysExit code => code
  | Uncaught _ => 1
  end.

Definition usage : string :=
  "Usage: python transcribe.py <audio.wav> <model_name> <language>".

Section Orchestrator.

(** The file system, the model library and [str.strip]. *)
Variable wave_open : string -> result wave_read.
Variable model : Type.
Variable whisper_load_model : string -> result model.
Variable transcribe_text : model -> list Q -> string -> result string.
Variable strip : string -> string.

Definition load_wav (path : string) : result (list Q) :=
  wf <- wave_open path ;;
  decode_wav wf.

Definition main (argv : list string) : list event * outcome :=
  if (len argv <? 2)%Z then
    ([Stderr usage], SysExit 1)
  else
    let audio_path := nth 1 argv EmptyString in
    let model_name := if (len argv >? 2)%Z then nth 2 argv EmptyString else "base.en"%string in
    let language := if (len argv >? 3)%Z then nth 3 argv EmptyString else "en"%string in
    if negb (valid_language language) then
      ([Stderr ("Invalid language code: " ++ language)%string], SysExit 1)
    else
      match load_wav audio_path with
      | Raise e => ([WaveOpen audio_path], Uncaught e)
      | Ok audio =>
          match whisper_load_model model_name with
          | Raise e => ([WaveOpen audio_path; LoadModel model_name], Uncaught e)
          | Ok m =>
              match transcribe_text m audio language with
              | Raise e =>
                  ([WaveOpen audio_path; LoadModel model_name; Transcribe language],
                   Uncaught e)
              | Ok text =>
                  ([WaveOpen audio_path; LoadModel model_name; Transcribe language;
                    Stdout (strip text)],
                   Returns)
              end
          end
      end.

End Orchestrator.

Local Open Scope Z_scope.

(** * Text helpers of [core/python-prelude.py]

    A [str] is a [string], one character per code point; code points
    above 255 are left out.  A helper that prints is a function to a
    pair: the texts it passes to [print], in order, and its result. *)

(** ** Python built-ins that the helpers use *)

Module py.

(** The characters at which [str.splitlines] cuts: LF, VT, FF, CR, FS,
    GS, RS and NEL. *)
Definition is_linebreak (c : ascii) : bool :=
  let n := N_of_ascii c in
  ((n =? 10) || (n =? 11) || (n =? 12) || (n =? 13)
   || (n =? 28) || (n =? 29) || (n =? 30) || (n =? 133))%N.

Definition CR : ascii := "013"%char.
Definition LF : ascii := "010"%char.

(** [s.splitlines()]: the lines of [s] without their terminators; CR LF
    is one terminator, and a terminator at the very end opens no empty
    last line. *)
Fixpoint splitlines (s : string) : list string :=
  match s with
  | EmptyString => []
  | String c s' =>
      if is_linebreak c then
        EmptyString ::
          (if Ascii.eqb c CR then
             match s' with
             | String c' s'' => if Ascii.eqb c' LF then splitlines s'' else splitlines s'
             | EmptyString => splitlines s'
             end
           else splitlines s')
      else
        match splitlines s' with
        | [] => [String c EmptyString]
        | line :: lines => String c line :: lines
        end
  end.

(** [sep.join(items)]. *)
Definition join (sep : string) (items : list string) : string :=
  String.concat sep items.

(** The bound of a slice, as Python normalises it: a negative index
    counts from the end, and the result is clipped to the list. *)
Definition slice_index (n i : Z) : Z :=
  if i <? 0 then Z.max 0 (i + n) else Z.min i n.

(** [l[:stop]] and [l[start:]]. *)
Definition slice_to {A : Type} (l : list A) (stop : Z) : list A :=
  firstn (Z.to_nat (slice_index (len l) stop)) l.

Definition slice_from {A : Type} (l : list A) (start : Z) : list A :=
  skipn (Z.to_nat (slice_index (len l) start)) l.

(** [str(n)] for an integer. *)
Definition str (n : Z) : string := NilZero.string_of_int (Z.to_int n).

(** [format(s, ">4")]: [s] pushed to the right of a field of four. *)
Definition rjust4 (s : string) : string :=
  (string_of_list_ascii (repeat " "%char (4 - String.length s)) ++ s)%string.

(** [list(dict.fromkeys(l))]: the items of [l] without repetition, each
    at its first place; [seen] holds the keys met so far. *)
Fixpoint fromkeys_from (seen : list string) (l : list string) : list string :=
  match l with
  | [] => []
  | x :: l' =>
      if existsb (String.eqb x) seen then fromkeys_from seen l'
      else x :: fromkeys_from (x :: seen) l'
  end.

Definition fromkeys (l : list string) : list string := fromkeys_from [] l.

(** A stable sort by insertion: an item goes after the items that are
    not greater. *)
Fixpoint insert_sorted (x : string) (l : list string) : list string :=
  match l with
  | [] => [x]
  | y :: l' => if String.ltb x y then x :: l else y :: insert_sorted x l'
  end.

Definition sort_ascending (l : list string) : list string :=
  fold_left (fun acc x => insert_sorted x acc) l [].

(** [sorted(l, reverse=reverse)]: with [reverse] the list is reversed,
    sorted, and reversed again. *)
Definition sorted (l : list string) (reverse : bool) : list string :=
  if reverse then rev (sort_ascending (rev l)) else sort_ascending l.

(** [range(start, stop)]. *)
Definition range (start stop : Z) : list Z :=
  map (fun k => start + Z.of_nat k) (seq 0 (Z.to_nat (stop - start))).

(** [enumerate(l, 1)]. *)
Definition enumerate1 {A : Type} (l : list A) : list (Z * A) :=
  combine (range 1 (len l + 1)) l.

(** A result, or an [IndexError]. *)
Inductive indexed (A : Type) : Type :=
| Got (a : A)
| IndexError.

Arguments Got {A} a.
Arguments IndexError {A}.

(** [l[i]]: a negative index counts from the end. *)
Definition getitem {A : Type} (l : list A) (i : Z) : indexed A :=
  let j := if i <? 0 then i + len l else i in
  if (0 <=? j) && (j <? len l) then
    match nth_error l (Z.to_nat j) with
    | Some a => Got a
    | None => IndexError
    end
  else IndexError.

End py.

(** ** [head], [tail], [sort_lines], [uniq], [cols], [grep] *)

Module prelude.

Definition newline : string := String py.LF EmptyString.

Definition head (text : string) (n : Z) : list string * string :=
  let lines := py.slice_to (py.splitlines text) n in
  let out := py.join newline lines in
  ([out; ("[head] " ++ py.str (len lines) ++ " lines")%string], out).

Definition tail (text : string) (n : Z) : list string * string :=
  let lines := py.slice_from (py.splitlines text) (- n) in
  let out := py.join newline lines in
  ([out; ("[tail] " ++ py.str (len lines) ++ " lines")%string], out).

Definition sort_lines (text : string) (reverse unique : bool) : list string * string :=
  let lines := py.splitlines text in
  let lines := if unique then py.fromkeys lines else lines in
  let lines := py.sorted lines reverse in
  let out := py.join newline lines in
  ([out], out).

(** The loop of [uniq] over [lines[1:]], with its three variables. *)
Fixpoint uniq_loop (rest : list string) (groups : list (Z * string))
    (current : string) (current_count : Z) : list (Z * string) :=
  match rest with
  | [] => groups ++ [(current_count, current)]
  | line :: rest' =>
      if String.eqb line current then
        uniq_loop rest' groups current (current_count + 1)
      else
        uniq_loop rest' (groups ++ [(current_count, current)]) line 1
  end.

(** What [uniq] returns: a text, or with [count] the groups. *)
Inductive uniq_result : Type :=
| Text (out : string)
| Groups (groups : list (Z * string)).

Definition uniq (text : string) (count : bool) : list string * uniq_result :=
  let lines := py.splitlines text in
  match lines with
  | [] => ([], if count then Groups [] else Text EmptyString)
  | first :: rest =>
      let groups := uniq_loop rest [] first 1 in
      if count then
        (map (fun g => (py.rjust4 (py.str (fst g)) ++ " " ++ snd g)%string) groups,
         Groups groups)
      else
        let out := py.join newline (map snd groups) in
        ([out], Text out)
  end.

Section Cols.

(** [line.split(sep)] for a separator that is not empty, and
    [line.split()]. *)
Variable split_on : string -> string -> list string.
Variable split_whitespace : string -> list string.

(** [[parts[i] for i in indices if i < len(parts)]]: the items are
    fetched in order and the first failing fetch ends the run. *)
Fixpoint select (parts : list string) (indices : list Z) : py.indexed (list string) :=
  match indices with
  | [] => py.Got []
  | i :: indices' =>
      if i <? len parts then
        match py.getitem parts i with
        | py.IndexError => py.IndexError
        | py.Got part =>
            match select parts indices' with
            | py.IndexError => py.IndexError
            | py.Got selected => py.Got (part :: selected)
            end
        end
      else select parts indices'
  end.

(** [line.split(sep) if sep else line.split()]; [sep] is [None] or a
    string, and the empty string counts as false. *)
Definition split_line (line : string) (sep : option string) : list string :=
  match sep with
  | Some (String c s) => split_on line (String c s)
  | Some EmptyString | None => split_whitespace line
  end.

(** The loop of [cols] over the lines. *)
Fixpoint cols_loop (lines : list string) (indices : list Z) (sep : option string)
    : py.indexed (list string) :=
  match lines with
  | [] => py.Got []
  | line :: lines' =>
      let parts := split_line line sep in
      match select parts indices with
      | py.IndexError => py.IndexError
      | py.Got selected =>
          match cols_loop lines' indices sep with
          | py.IndexError => py.IndexError
          | py.Got result_lines => py.Got (py.join " " selected :: result_lines)
          end
      end
  end.

Definition cols (text : string) (indices : list Z) (sep : option string)
    : py.indexed (list string * string) :=
  match cols_loop (py.splitlines text) indices sep with
  | py.IndexError => py.IndexError
  | py.Got result_lines =>
      let out := py.join newline result_lines in
      py.Got ([out], out)
  end.

End Cols.

Section Grep.

(** [re.compile(pattern, flags)], which may raise; [rx.search(line)] as
    a truth value; [Path(path).read_text(encoding="utf-8")], which may
    raise; [str(Path(path))]. *)
Variable rx : Type.
Variable compile : string -> bool -> option rx.
Variable search : rx -> string -> bool.
Variable read_text : string -> option string.
Variable path_str : string -> string.

(** The lines printed around hit [i] when [context] is not zero. *)
Definition context_lines (lines : list string) (i context : Z) : list string :=
  let start := Z.max 0 (i - 1 - context) in
  let stop := Z.min (len lines) (i - 1 + context + 1) in
  flat_map
    (fun j =>
       if j + 1 =? i then []
       else [(py.str (j + 1) ++ "- " ++ nth (Z.to_nat j) lines EmptyString)%string])
    (py.range start stop).

(** The loop of [grep] over [enumerate(lines, 1)]: what it prints and
    the hits it appends, in order. *)
Fixpoint grep_loop (r : rx) (lines : list string) (context : Z)
    (numbered : list (Z * string)) : list string * list (Z * string) :=
  match numbered with
  | [] => ([], [])
  | (i, line) :: numbered' =>
      let (printed, hits) := grep_loop r lines context numbered' in
      if search r line then
        ((py.str i ++ ": " ++ line)%string
           :: (if context =? 0 then [] else context_lines lines i context)
           ++ printed,
         (i, line) :: hits)
      else (printed, hits)
  end.

(** [grep]: [None] when compiling the pattern or reading the file
    raises. *)
Definition grep (pattern path : string) (ignore_case : bool) (context : Z)
    : option (list string * list (Z * string)) :=
  match compile pattern ignore_case with
  | None => None
  | Some r =>
      match read_text path with
      | None => None
      | Some data =>
          let lines := py.splitlines data in
          let (printed, hits) := grep_loop r lines context (py.enumerate1 lines) in
          Some (printed
                  ++ [("[grep] " ++ py.str (len hits) ++ " matches in "
                       ++ path_str path)%string],
                hits)
      end
  end.

End Grep.

End prelude.

(** ** Vocabulary of the statements *)

(** The [i]-th group of [n] consecutive items of a flat sequence: the
    bytes of sample [i], or the samples of frame [i]. *)
Definition group {A : Type} (n : Z) (l : list A) (i : nat) : list A :=
  firstn (Z.to_nat n) (skipn (i * Z.to_nat n) l).



(** The float a sample of [width] bytes stands for: offset-unsigned with
    a bias of 128 over 128 for one byte, signed over 32768 for two,
    signed over 2147483648 for four. *)
Definition sample_value (width : Z) (bytes : list byte) : Q :=
  if width =? 1 then
    ((np.float32_of_Z (np.le_unsigned bytes) - 128) / 128)%Q
  else if width =? 2 then
    (np.float32_of_Z (np.to_signed 16 (np.le_unsigned bytes)) / 32768)%Q
  else
    (np.float32_of_Z (np.to_signed 32 (np.le_unsigned bytes)) / 2147483648)%Q.

(** The closed range [-1.0, 1.0]. *)
Definition in_unit_range (q : Q) : Prop := (-1 <= q /\ q <= 1)%Q.

(** Python's [round] to an integer: to the nearest, ties to even. *)
Definition py_round (q : Q) : Z :=
  let f := Qfloor q in
  match (q - inject_Z f ?= 1 # 2)%Q with
  | Lt => f
  | Gt => f + 1
  | Eq => if Z.even f then f else f + 1
  end.



(** The linear interpolation of [audio] at a position [x >= 0], in
    binary64.  At or beyond the last index it is the last sample.
    Otherwise, with [j] the index at or just below [x], it is the sample
    [j] itself when [x] is that index, and else the point at [x] of the
    segment from sample [j] to sample [j + 1]. *)
Definition interpolates (audio : list Q) (x : Q) : Q :=
  let j := Qfloor x in
  let sample := fun k : Z => nth (Z.to_nat k) audio 0%Q in
  if Qle_bool (inject_Z (len audio - 1)) x then sample (len audio - 1)
  else if Qeq_bool (inject_Z j) x then sample j
  else np.on_segment (inject_Z j) (sample j) (inject_Z (j + 1)) (sample (j + 1)) x.

(** A letter of [A-Za-z]. *)
Definition is_letter (c : ascii) : Prop :=
  (N_of_ascii "A" <= N_of_ascii c <= N_of_ascii "Z")%N
  \/ (N_of_ascii "a" <= N_of_ascii c <= N_of_ascii "z")%N.

(** A language tag: two or three letters, then nothing or a hyphen and
    two letters, and nothing else. *)
Definition LanguageTag (s : string) : Prop :=
  exists primary suffix : list ascii,
    s = string_of_list_ascii (primary ++ suffix)
    /\ Forall is_letter primary
    /\ (List.length primary = 2%nat \/ List.length primary = 3%nat)
    /\ (suffix = []
        \/ exists c d : ascii,
            suffix = ["-"%char; c; d] /\ is_letter c /\ is_letter d).

(** The language that a command line asks for: the fourth item of
    [sys.argv] when there is one, "en" otherwise (line 58). *)
Definition language_argument (argv : list string) : string :=
  if len argv >? 3 then nth 3 argv EmptyString else "en"%string.

(** A number of a binary format of [p] bits with least exponent [emin]:
    a significand of fewer than [p] + 1 bits times a power of two that
    is no smaller than the least one. *)
Definition representable (p emin : Z) (q : Q) : Prop :=
  exists m e : Z, Z.abs m < 2 ^ p /\ emin <= e /\ (q == inject_Z m * 2 ^ e)%Q.

(** A binary32 number: storing it in the format leaves it as it is.
    The samples that [np.frombuffer] and [astype] hand to the later
    stages are of this kind. *)
Definition is_float32 (q : Q) : Prop := np.float32 q = q.

(** The mean of a group of binary32 samples as binary32 arithmetic
    gives it: the sum of the group, added up with a rounding at each
    addition, is divided by the number of samples and rounded. *)
Definition float32_mean (values : list Q) : Q :=
  np.float32 (np.sum values / inject_Z (len values)).

(** The model that a command line asks for: the third item of
    [sys.argv] when there is one, "base.en" otherwise (line 57). *)
Definition model_argument (argv : list string) : string :=
  if len argv >? 2 then nth 2 argv EmptyString else "base.en"%string.

Section RunShapes.

Variable wave_open : string -> result wave_read.
Variable model : Type.
Variable whisper_load_model : string -> result model.
Variable transcribe_text : model -> list Q -> string -> result string.
Variable strip : string -> string.

(** The six ways in which a run can go. *)
Inductive run_shape (argv : list string) : list event * outcome -> Prop :=
| UsageShown :
    len argv < 2 ->
    run_shape argv ([Stderr usage], SysExit 1)
| LanguageRefused :
    2 <= len argv ->
    valid_language (language_argument argv) = false ->
    run_shape argv
      ([Stderr ("Invalid language code: " ++ language_argument argv)%string], SysExit 1)
| DecodingFailed (e : exn) :
    2 <= len argv ->
    valid_language (language_argument argv) = true ->
    load_wav wave_open (nth 1 argv EmptyString) = Raise e ->
    run_shape argv ([WaveOpen (nth 1 argv EmptyString)], Uncaught e)
| LoadingFailed (audio : list Q) (e : exn) :
    2 <= len argv ->
    valid_language (language_argument argv) = true ->
    load_wav wave_open (nth 1 argv EmptyString) = Ok audio ->
    whisper_load_model (model_argument argv) = Raise e ->
    run_shape argv
      ([WaveOpen (nth 1 argv EmptyString); LoadModel (model_argument argv)], Uncaught e)
| TranscriptionFailed (audio : list Q) (m : model) (e : exn) :
    2 <= len argv ->
    valid_language (language_argument argv) = true ->
    load_wav wave_open (nth 1 argv EmptyString) = Ok audio ->
    whisper_load_model (model_argument argv) = Ok m ->
    transcribe_text m audio (language_argument argv) = Raise e ->
    run_shape argv
      ([WaveOpen (nth 1 argv EmptyString); LoadModel (model_argument argv);
        Transcribe (language_argument argv)], Uncaught e)
| Transcribed (audio : list Q) (m : model) (text : string) :
    2 <= len argv ->
    valid_language (language_argument argv) = true ->
    load_wav wave_open (nth 1 argv EmptyString) = Ok audio ->
    whisper_load_model (model_argument argv) = Ok m ->
    transcribe_text m audio (language_argument argv) = Ok text ->
    run_shape argv
      ([WaveOpen (nth 1 argv EmptyString); LoadModel (model_argument argv);
        Transcribe (language_argument argv); Stdout (strip text)], Returns).

End RunShapes.

(** The lines that groups of [uniq] stand for: each line as many times
    as its count says. *)
Definition expand (groups : list (Z * string)) : list string :=
  flat_map (fun g => repeat (snd g) (Z.to_nat (fst g))) groups.

(** No line is followed by an equal line. *)
Fixpoint no_adjacent_repeat (l : list string) : Prop :=
  match l with
  | a :: (b :: _) as l' => a <> b /\ no_adjacent_repeat l'
  | _ => True
  end.

(** A text without any line terminator. *)
Definition break_free (s : string) : Prop :=
  Forall (fun c => py.is_linebreak c = false) (list_ascii_of_string s).

(** A list of lines without its last line when that line is empty. *)
Fixpoint drop_trailing_empty (l : list string) : list string :=
  match l with
  | [] => []
  | [x] => if String.eqb x EmptyString then [] else [x]
  | x :: l' => x :: drop_trailing_empty l'
  end.

(** The order of [sorted] on lines. *)
Definition le_lines (a b : string) : Prop := String.leb a b = true.

(** The fields of a line at the given indices, in the order of the
    indices; an index that has no field is left out. *)
Definition present_fields (parts : list string) (indices : list Z) : list string :=
  flat_map (fun i => match nth_error parts (Z.to_nat i) with
                     | Some part => [part]
                     | None => []
                     end) indices.

(** The [k]-th field of a line counted from its end: the last field for
    [k] = 1. *)
Definition field_from_end (parts : list string) (k : Z) : option string :=
  nth_error (rev parts) (Z.to_nat (k - 1)).

(** * Properties *)

Local Open Scope Z_scope.

(** ** Bytes and float32 conversion *)

Lemma byte_val_range (b : byte) : 0 <= np.byte_val b < 256.
Proof.
  unfold np.byte_val. pose proof (Byte.to_N_bounded b). lia.
Qed.

Lemma round_to_float32_small (n : Z) :
  Z.abs n < 2 ^ 24 -> np.round_to_float32 n = n.
Proof.
  intros H. unfold np.round_to_float32.
  destruct (Z.ltb_spec (Z.abs n) (2 ^ 24)); [reflexivity | lia].
Qed.

Lemma round_to_float32_bound (n : Z) :
  Z.abs n <= 2 ^ 31 -> Z.abs (np.round_to_float32 n) <= 2 ^ 31.
Proof.
  intros Hn. unfold np.round_to_float32.
  destruct (Z.ltb_spec (Z.abs n) (2 ^ 24)) as [Hs | Hb]; [lia |].
  set (a := Z.abs n) in *.
  assert (Ha : 0 < a) by lia.
  destruct (Z.log2_spec a Ha) as [Hlo Hhi].
  assert (Hk : 24 <= Z.log2 a <= 31).
  { split.
    - apply Z.log2_le_pow2; lia.
    - destruct (Z.le_gt_cases (Z.log2 a) 31) as [|Hgt]; [assumption |].
      assert (2 ^ 32 <= 2 ^ Z.log2 a) by (apply Z.pow_le_mono_r; lia).
      lia. }
  remember (Z.log2 a) as k eqn:Ek.
  set (e := k - 23).
  assert (He : 1 <= e <= 8) by (subst e; lia).
  assert (Hpe : 0 < 2 ^ e) by (apply Z.pow_pos_nonneg; lia).
  assert (Hsplit : 2 ^ (k + 1) = 2 ^ 24 * 2 ^ e).
  { subst e. rewrite <- Z.pow_add_r by lia. f_equal. lia. }
  assert (Hhalf : 0 < 2 ^ (e - 1)) by (apply Z.pow_pos_nonneg; lia).
  pose proof (Z.div_mod a (2 ^ e) ltac:(lia)) as Hdm.
  pose proof (Z.mod_pos_bound a (2 ^ e) Hpe) as Hr.
  set (q := a / 2 ^ e) in *. set (r := a mod 2 ^ e) in *.
  assert (Hq : q < 2 ^ 24) by nia.
  assert (Hq0 : 0 <= q) by (subst q; apply Z.div_pos; lia).
  assert (Hpe31 : 2 ^ 24 * 2 ^ e <= 2 ^ 32).
  { rewrite <- Hsplit. apply Z.pow_le_mono_r; lia. }
  set (q' := if r <? 2 ^ (e - 1) then q
             else if 2 ^ (e - 1) <? r then q + 1
             else if Z.even q then q else q + 1).
  assert (Hq' : 0 <= q' * 2 ^ e <= 2 ^ 31).
  { destruct (Z.eq_dec k 31) as [E31 | N31].
    - (* a is 2^31 itself *)
      assert (a = 2 ^ 31) by (rewrite E31 in Hlo; lia).
      assert (r = 0).
      { subst r e. rewrite E31. replace a with (2 ^ 31) by lia. reflexivity. }
      subst q'. destruct (Z.ltb_spec r (2 ^ (e - 1))); [| lia]. nia.
    - assert (2 ^ (k + 1) <= 2 ^ 31) by (apply Z.pow_le_mono_r; lia).
      assert (0 <= q' <= q + 1).
      { subst q'. destruct (r <? 2 ^ (e - 1)); [lia |].
        destruct (2 ^ (e - 1) <? r); [lia |]. destruct (Z.even q); lia. }
      nia. }
  destruct n; simpl Z.sgn; lia.
Qed.

(** ** Binary floating point *)

Lemma Qpower_2_pos (e : Z) : (0 < 2 ^ e)%Q.
Proof. apply Qpower_0_lt. reflexivity. Qed.

Lemma Qpower_2_nonzero (e : Z) : ~ (2 ^ e == 0)%Q.
Proof. intros H. pose proof (Qpower_2_pos e) as Hpos. rewrite H in Hpos. discriminate Hpos. Qed.

Lemma Qpower_2_inject (n : Z) : 0 <= n -> (inject_Z (2 ^ n) == 2 ^ n)%Q.
Proof. intros Hn. apply (Zpower_Qpower 2 n Hn). Qed.

Lemma Qpower_2_lt (a b : Z) : a < b -> (2 ^ a < 2 ^ b)%Q.
Proof. intros H. apply Qpower_lt_compat_l; [exact H | reflexivity]. Qed.

Lemma Qpower_2_le (a b : Z) : a <= b -> (2 ^ a <= 2 ^ b)%Q.
Proof. intros H. apply Qpower_le_compat_l; [exact H | discriminate]. Qed.

Lemma Qpower_2_lt_inv (a b : Z) : (2 ^ a < 2 ^ b)%Q -> a < b.
Proof. intros H. apply (Qpower_lt_compat_l_inv 2); [exact H | reflexivity]. Qed.

Lemma Qpower_2_plus (a b : Z) : (2 ^ (a + b) == 2 ^ a * 2 ^ b)%Q.
Proof. apply Qpower_plus. discriminate. Qed.

Lemma Qpower_2_minus (a b : Z) : (2 ^ (a - b) == 2 ^ a / 2 ^ b)%Q.
Proof. apply Qpower_minus. discriminate. Qed.

Lemma Qdiv_lt_Z (x y u v : Z) :
  0 < y -> 0 < v -> x * v < u * y ->
  (inject_Z x / inject_Z y < inject_Z u / inject_Z v)%Q.
Proof.
  intros Hy Hv H.
  assert (Hy' : (0 < inject_Z y)%Q) by (change 0%Q with (inject_Z 0); rewrite <- Zlt_Qlt; lia).
  assert (Hv' : (0 < inject_Z v)%Q) by (change 0%Q with (inject_Z 0); rewrite <- Zlt_Qlt; lia).
  apply Qlt_shift_div_r; [exact Hy' |].
  setoid_replace (inject_Z u / inject_Z v * inject_Z y)%Q
    with (inject_Z u * inject_Z y / inject_Z v)%Q
    by (field; intros E; rewrite E in Hv'; discriminate Hv').
  apply Qlt_shift_div_l; [exact Hv' |].
  rewrite <- !inject_Z_mult, <- Zlt_Qlt. exact H.
Qed.

Lemma Qabs_make (n : Z) (d : positive) :
  (Qabs (n # d) == inject_Z (Z.abs n) / inject_Z (Z.pos d))%Q.
Proof. rewrite <- Zabs_Qabs. apply Qmake_Qdiv. Qed.

(** [ilog2] is the exponent of a number that is not zero. *)
Lemma ilog2_spec (q : Q) :
  ~ (q == 0)%Q ->
  (2 ^ np.ilog2 q <= Qabs q)%Q /\ (Qabs q < 2 ^ (np.ilog2 q + 1))%Q.
Proof.
  intros Hq. destruct q as [n d].
  assert (Hn : 0 < Z.abs n).
  { destruct (Z.eq_dec n 0) as [-> | Hne]; [exfalso; apply Hq; reflexivity | lia]. }
  unfold np.ilog2. cbn [Qnum Qden].
  set (a := Z.log2 (Z.abs n)). set (b := Z.log2 (Z.pos d)).
  assert (Ha : 0 <= a) by apply Z.log2_nonneg.
  assert (Hb : 0 <= b) by apply Z.log2_nonneg.
  destruct (Z.log2_spec (Z.abs n) Hn) as [Ha_lo Ha_hi]. fold a in Ha_lo, Ha_hi.
  destruct (Z.log2_spec (Z.pos d) ltac:(lia)) as [Hb_lo Hb_hi]. fold b in Hb_lo, Hb_hi.
  assert (Hpa : 0 < 2 ^ a) by (apply Z.pow_pos_nonneg; lia).
  assert (Hpb : 0 < 2 ^ b) by (apply Z.pow_pos_nonneg; lia).
  assert (Hupper : (Qabs (n # d) < 2 ^ (a - b + 1))%Q).
  { replace (a - b + 1) with (Z.succ a - b) by lia.
    rewrite Qpower_2_minus, <- !Qpower_2_inject, Qabs_make by lia.
    apply Qdiv_lt_Z; [lia | lia | nia]. }
  assert (Hlower : (2 ^ (a - b - 1) < Qabs (n # d))%Q).
  { replace (a - b - 1) with (a - Z.succ b) by lia.
    rewrite Qpower_2_minus, <- !Qpower_2_inject, Qabs_make by lia.
    apply Qdiv_lt_Z; [lia | lia | nia]. }
  destruct (Qle_bool (2 ^ (a - b)) (Qabs (n # d))) eqn:Htest.
  - apply Qle_bool_iff in Htest. split; assumption.
  - split; [apply Qlt_le_weak; exact Hlower |].
    replace (a - b - 1 + 1) with (a - b) by lia.
    apply Qnot_le_lt. intros H. apply Qle_bool_iff in H. congruence.
Qed.

Lemma Qabs_zero (q : Q) : (q == 0)%Q -> (Qabs q == 0)%Q.
Proof. intros H. rewrite H. reflexivity. Qed.

Lemma ilog2_unique (q : Q) (k : Z) :
  (2 ^ k <= Qabs q)%Q -> (Qabs q < 2 ^ (k + 1))%Q -> np.ilog2 q = k.
Proof.
  intros Hlo Hhi.
  assert (Hq : ~ (q == 0)%Q).
  { intros E. rewrite (Qabs_zero q E) in Hlo.
    exact (Qlt_not_le _ _ (Qpower_2_pos k) Hlo). }
  destruct (ilog2_spec q Hq) as [Hlo' Hhi'].
  pose proof (Qpower_2_lt_inv _ _ (Qle_lt_trans _ _ _ Hlo Hhi')).
  pose proof (Qpower_2_lt_inv _ _ (Qle_lt_trans _ _ _ Hlo' Hhi)).
  lia.
Qed.


Lemma nearest_even_comp (m m' : Q) : (m == m')%Q -> np.nearest_even m = np.nearest_even m'.
Proof.
  intros H. unfold np.nearest_even. rewrite (Qfloor_comp _ _ H).
  assert (Hc : (m - inject_Z (Qfloor m') ?= 1 # 2)%Q = (m' - inject_Z (Qfloor m') ?= 1 # 2)%Q).
  { apply Qcompare_comp; [rewrite H; reflexivity | reflexivity]. }
  rewrite Hc. reflexivity.
Qed.

Lemma nearest_even_Z (n : Z) : np.nearest_even (inject_Z n) = n.
Proof.
  unfold np.nearest_even. rewrite Qfloor_Z.
  assert (Hc : (inject_Z n - inject_Z n ?= 1 # 2)%Q = Lt).
  { apply Qlt_alt. setoid_replace (inject_Z n - inject_Z n)%Q with 0%Q by ring. reflexivity. }
  rewrite Hc. reflexivity.
Qed.

Lemma nearest_even_le (m : Q) (n : Z) : (m <= inject_Z n)%Q -> np.nearest_even m <= n.
Proof.
  intros H. pose proof (Qfloor_resp_le _ _ H) as Hf. rewrite Qfloor_Z in Hf.
  unfold np.nearest_even.
  assert (Hup : (0 < m - inject_Z (Qfloor m))%Q -> Qfloor m + 1 <= n).
  { intros Hfrac.
    assert (Hlt : (inject_Z (Qfloor m) < inject_Z n)%Q).
    { apply Qlt_le_trans with m; [| exact H].
      apply Qlt_minus_iff. unfold Qminus in Hfrac. exact Hfrac. }
    rewrite <- Zlt_Qlt in Hlt. lia. }
  destruct (Qcompare_spec (m - inject_Z (Qfloor m)) (1 # 2)) as [E | L | G].
  - destruct (Z.even _); [lia |]. apply Hup. rewrite E. reflexivity.
  - exact Hf.
  - apply Hup. apply Qlt_trans with (1 # 2)%Q; [reflexivity | exact G].
Qed.

Lemma nearest_even_ge (m : Q) (n : Z) : (inject_Z n <= m)%Q -> n <= np.nearest_even m.
Proof.
  intros H. pose proof (Qfloor_resp_le _ _ H) as Hf. rewrite Qfloor_Z in Hf.
  unfold np.nearest_even.
  destruct (m - inject_Z (Qfloor m) ?= 1 # 2)%Q; [destruct (Z.even _) | |]; lia.
Qed.



(** A cast gives the rounding, as a number. *)
Lemma cast_round (p emin : Z) (q : Q) :
  (np.cast p emin q == np.round_to_precision p emin q)%Q.
Proof.
  unfold np.cast. destruct (Qeq_bool _ q) eqn:E; [| reflexivity].
  apply Qeq_bool_iff in E. symmetry. exact E.
Qed.

(** A number of the format is its own rounding. *)
Lemma round_representable (p emin : Z) (q : Q) :
  representable p emin q -> (np.round_to_precision p emin q == q)%Q.
Proof.
  intros (m & e' & Hm & He' & Hq).
  unfold np.round_to_precision.
  destruct (Qeq_bool q 0) eqn:Hzero; [apply Qeq_bool_iff in Hzero; symmetry; exact Hzero |].
  assert (Hq' : ~ (q == 0)%Q) by (apply Qeq_bool_neq; exact Hzero).
  destruct (ilog2_spec q Hq') as [Hlo _].
  assert (Hp : 0 <= p).
  { destruct (Z.le_gt_cases 0 p) as [| Hneg]; [assumption |].
    rewrite (Z.pow_neg_r 2 p Hneg) in Hm. lia. }
  assert (Habs : (Qabs q < 2 ^ (p + e'))%Q).
  { rewrite Hq, Qabs_Qmult, (Qabs_pos (2 ^ e')) by (apply Qlt_le_weak, Qpower_2_pos).
    rewrite Qpower_2_plus. apply Qmult_lt_compat_r; [apply Qpower_2_pos |].
    rewrite <- Qpower_2_inject by exact Hp.
    change (Qabs (inject_Z m)) with (inject_Z (Z.abs m)).
    rewrite <- Zlt_Qlt. exact Hm. }
  pose proof (Qpower_2_lt_inv _ _ (Qle_lt_trans _ _ _ Hlo Habs)) as Hk.
  set (e := Z.max (np.ilog2 q - (p - 1)) emin).
  assert (He : e <= e') by (subst e; lia).
  assert (Hint : (q / 2 ^ e == inject_Z (m * 2 ^ (e' - e)))%Q).
  { rewrite Hq, inject_Z_mult, Qpower_2_inject, Qpower_2_minus by lia.
    field. apply Qpower_2_nonzero. }
  rewrite (nearest_even_comp _ _ Hint), nearest_even_Z.
  rewrite Hq, inject_Z_mult, Qpower_2_inject, Qpower_2_minus by lia.
  field. apply Qpower_2_nonzero.
Qed.

Lemma cast_representable (p emin : Z) (q : Q) :
  representable p emin q -> np.cast p emin q = q.
Proof.
  intros H. unfold np.cast.
  rewrite (Qeq_eq_bool _ _ (round_representable p emin q H)). reflexivity.
Qed.

(** A rounding is a number of the format. *)
Lemma round_is_representable (p emin : Z) (q : Q) :
  0 < p -> representable p emin (np.round_to_precision p emin q).
Proof.
  intros Hp. unfold np.round_to_precision.
  destruct (Qeq_bool q 0) eqn:Hzero.
  { exists 0, emin. split; [apply Z.pow_pos_nonneg; lia |]. split; [lia |].
    rewrite Qmult_0_l. reflexivity. }
  assert (Hq : ~ (q == 0)%Q) by (apply Qeq_bool_neq; exact Hzero).
  destruct (ilog2_spec q Hq) as [_ Hhi].
  set (e := Z.max (np.ilog2 q - (p - 1)) emin).
  set (n := np.nearest_even (q / 2 ^ e)).
  assert (Hbound : (Qabs (q / 2 ^ e) <= inject_Z (2 ^ p))%Q).
  { unfold Qdiv. rewrite Qabs_Qmult, Qabs_Qinv.
    rewrite (Qabs_pos (2 ^ e)) by (apply Qlt_le_weak, Qpower_2_pos).
    apply Qle_shift_div_r; [apply Qpower_2_pos |].
    rewrite Qpower_2_inject, <- Qpower_2_plus by lia.
    apply Qlt_le_weak. eapply Qlt_le_trans; [exact Hhi |].
    apply Qpower_2_le. subst e. lia. }
  apply Qabs_Qle_condition in Hbound. destruct Hbound as [Hge Hle].
  rewrite <- inject_Z_opp in Hge.
  pose proof (nearest_even_le _ _ Hle) as Hn_le.
  pose proof (nearest_even_ge _ _ Hge) as Hn_ge.
  fold n in Hn_le, Hn_ge.
  destruct (Z.eq_dec (Z.abs n) (2 ^ p)) as [Hfull | Hless].
  - (* the significand has reached the next power of two *)
    assert (H1 : 0 < 2 ^ (p - 1)) by (apply Z.pow_pos_nonneg; lia).
    assert (H2 : 2 ^ p = 2 ^ (p - 1) * 2).
    { replace p with (Z.succ (p - 1)) at 1 by lia. rewrite Z.pow_succ_r by lia. lia. }
    assert (Hn : n = Z.sgn n * 2 ^ p /\ Z.abs (Z.sgn n) = 1).
    { destruct n; cbn [Z.sgn Z.abs] in *; lia. }
    destruct Hn as [Hn Hsgn].
    exists (Z.sgn n * 2 ^ (p - 1)), (e + 1). split; [| split].
    + rewrite Z.abs_mul, Hsgn. lia.
    + subst e. lia.
    + rewrite Hn at 1.
      rewrite H2, Qpower_2_plus, !inject_Z_mult. change (2 ^ 1)%Q with 2%Q.
      change (inject_Z 2) with 2%Q. ring.
  - exists n, e. split; [lia |]. split; [subst e; lia | reflexivity].
Qed.

Lemma cast_is_representable (p emin : Z) (q : Q) :
  0 < p -> representable p emin (np.cast p emin q).
Proof.
  intros Hp. destruct (round_is_representable p emin q Hp) as (m & e & Hm & He & Hr).
  exists m, e. split; [exact Hm |]. split; [exact He |].
  rewrite cast_round. exact Hr.
Qed.

(** Storing twice is storing once. *)
Lemma cast_idempotent (p emin : Z) (q : Q) :
  0 < p -> np.cast p emin (np.cast p emin q) = np.cast p emin q.
Proof. intros Hp. apply cast_representable, cast_is_representable, Hp. Qed.

(** The binary32 numbers are the numbers m * 2^e with |m| < 2^24 and
    e >= -149. *)
Lemma is_float32_iff (q : Q) : is_float32 q <-> representable 24 (-149) q.
Proof.
  split.
  - intros H. unfold is_float32 in H. rewrite <- H.
    apply cast_is_representable. lia.
  - apply cast_representable.
Qed.

Lemma float32_is_float32 (q : Q) : is_float32 (np.float32 q).
Proof. apply cast_idempotent. lia. Qed.

Lemma nearest_even_nonneg (m : Q) : (0 <= m)%Q -> 0 <= np.nearest_even m.
Proof.
  intros Hm. pose proof (Qfloor_resp_le _ _ Hm) as Hf.
  change (Qfloor 0) with 0 in Hf. unfold np.nearest_even.
  destruct (m - inject_Z (Qfloor m) ?= 1 # 2)%Q; [destruct (Z.even _) | |]; lia.
Qed.

Lemma round_to_precision_nonneg (p emin : Z) (q : Q) :
  (0 <= q)%Q -> (0 <= np.round_to_precision p emin q)%Q.
Proof.
  intros Hq. unfold np.round_to_precision.
  destruct (Qeq_bool q 0); [apply Qle_refl |].
  set (e := Z.max _ _).
  apply Qmult_le_0_compat; [| apply Qlt_le_weak, Qpower_2_pos].
  change 0%Q with (inject_Z 0). rewrite <- Zle_Qle.
  apply nearest_even_nonneg.
  apply Qle_shift_div_l; [apply Qpower_2_pos |]. rewrite Qmult_0_l. exact Hq.
Qed.

Lemma cast_nonneg (p emin : Z) (q : Q) : (0 <= q)%Q -> (0 <= np.cast p emin q)%Q.
Proof.
  intros Hq. unfold np.cast.
  destruct (Qeq_bool _ q); [exact Hq | apply round_to_precision_nonneg, Hq].
Qed.

Lemma cast_zero (p emin : Z) (q : Q) : (q == 0)%Q -> (np.cast p emin q == 0)%Q.
Proof.
  intros Hq. unfold np.cast, np.round_to_precision.
  rewrite (Qeq_eq_bool _ _ Hq).
  destruct (Qeq_bool 0 q); [exact Hq | reflexivity].
Qed.

Lemma float64_nonneg (q : Q) : (0 <= q)%Q -> (0 <= np.float64 q)%Q.
Proof. apply cast_nonneg. Qed.

Lemma float64_zero (q : Q) : (q == 0)%Q -> (np.float64 q == 0)%Q.
Proof. apply cast_zero. Qed.




(** The nearest integer, ties to even, is the only integer within one
    half of the number, or the even one of the two at one half. *)
Lemma nearest_even_unique (m : Q) (z : Z) :
  (Qabs (inject_Z z - m) < 1 # 2)%Q
  \/ ((Qabs (inject_Z z - m) == 1 # 2)%Q /\ Z.even z = true) ->
  np.nearest_even m = z.
Proof.
  intros Hz.
  pose proof (Qfloor_le m) as Hlo. pose proof (Qlt_floor m) as Hhi.
  rewrite inject_Z_plus in Hhi. change (inject_Z 1) with 1%Q in Hhi.
  set (f := Qfloor m) in *.
  assert (Hcases : z = f \/ z = f + 1).
  { assert (Hnear : (Qabs (inject_Z z - m) <= 1 # 2)%Q).
    { destruct Hz as [Hlt | [Heq _]]; [apply Qlt_le_weak; exact Hlt |].
      rewrite Heq. apply Qle_refl. }
    apply Qabs_Qle_condition in Hnear. destruct Hnear as [H1 H2].
    assert (Hge : (inject_Z (f - 1) < inject_Z z)%Q).
    { unfold Z.sub. rewrite inject_Z_plus. change (inject_Z (- (1))) with (- (1))%Q. lra. }
    assert (Hle : (inject_Z z < inject_Z (f + 2))%Q).
    { rewrite inject_Z_plus. change (inject_Z 2) with 2%Q. lra. }
    rewrite <- Zlt_Qlt in Hge, Hle. lia. }
  unfold np.nearest_even. fold f.
  destruct (Qcompare_spec (m - inject_Z f) (1 # 2)) as [E | L | G].
  - (* a tie *)
    destruct Hz as [Hlt | [_ Heven]].
    + exfalso. apply Qabs_Qlt_condition in Hlt. destruct Hlt as [H1 H2].
      destruct Hcases as [-> | ->].
      * lra.
      * rewrite inject_Z_plus in H1, H2. change (inject_Z 1) with 1%Q in H1, H2. lra.
    + destruct Hcases as [-> | ->].
      * rewrite Heven. reflexivity.
      * rewrite Z.even_add in Heven. change (Z.even 1) with false in Heven.
        destruct (Z.even f); [discriminate Heven | reflexivity].
  - destruct Hcases as [-> | ->]; [reflexivity | exfalso].
    rewrite inject_Z_plus in Hz. change (inject_Z 1) with 1%Q in Hz.
    destruct Hz as [Hlt | [Heq _]].
    + apply Qabs_Qlt_condition in Hlt. lra.
    + assert (Hle : (Qabs (inject_Z f + 1 - m) <= 1 # 2)%Q) by (rewrite Heq; apply Qle_refl).
      apply Qabs_Qle_condition in Hle. lra.
  - destruct Hcases as [-> | ->]; [exfalso | reflexivity].
    destruct Hz as [Hlt | [Heq _]].
    + apply Qabs_Qlt_condition in Hlt. lra.
    + assert (Hle : (Qabs (inject_Z f - m) <= 1 # 2)%Q) by (rewrite Heq; apply Qle_refl).
      apply Qabs_Qle_condition in Hle. lra.
Qed.

Lemma ilog2_of_Z (n : Z) : n <> 0 -> np.ilog2 (inject_Z n) = Z.log2 (Z.abs n).
Proof.
  intros Hn. assert (Ha : 0 < Z.abs n) by lia.
  destruct (Z.log2_spec (Z.abs n) Ha) as [Hlo Hhi].
  pose proof (Z.log2_nonneg (Z.abs n)) as Hk.
  change (Qabs (inject_Z n)) with (inject_Z (Z.abs n)) in *.
  apply ilog2_unique; change (Qabs (inject_Z n)) with (inject_Z (Z.abs n));
    rewrite <- Qpower_2_inject by lia.
  - rewrite <- Zle_Qle. exact Hlo.
  - rewrite <- Zlt_Qlt. unfold Z.succ in Hhi. exact Hhi.
Qed.

(** The conversion of an integer to binary32 is the rounding of
    binary32: [float32_of_Z] and [np.float32] agree on the integers. *)
Lemma float32_of_Z_is_float32 (n : Z) :
  (np.float32 (inject_Z n) == np.float32_of_Z n)%Q.
Proof.
  unfold np.float32_of_Z, np.round_to_float32.
  destruct (Z.ltb_spec (Z.abs n) (2 ^ 24)) as [Hs | Hb].
  { unfold np.float32. rewrite cast_representable; [reflexivity |].
    exists n, 0. split; [exact Hs |]. split; [lia |].
    change (2 ^ 0)%Q with 1%Q. ring. }
  unfold np.float32. rewrite cast_round. unfold np.round_to_precision.
  assert (Hn : n <> 0) by lia.
  assert (Hnz : Qeq_bool (inject_Z n) 0 = false).
  { destruct (Qeq_bool (inject_Z n) 0) eqn:E; [| reflexivity].
    apply Qeq_bool_iff in E. unfold Qeq in E. cbn [inject_Z Qnum Qden] in E. lia. }
  rewrite Hnz, (ilog2_of_Z n Hn).
  set (a := Z.abs n) in *.
  assert (Ha : 0 < a) by lia.
  destruct (Z.log2_spec a Ha) as [Hlo Hhi].
  assert (Hk : 24 <= Z.log2 a) by (apply Z.log2_le_pow2; lia).
  set (k := Z.log2 a) in *.
  replace (Z.max (k - (24 - 1)) (-149)) with (k - 23) by lia.
  set (e := k - 23).
  assert (He : 1 <= e) by (subst e; lia).
  assert (Hpe : 0 < 2 ^ e) by (apply Z.pow_pos_nonneg; lia).
  assert (Hhalf : 2 ^ e = 2 * 2 ^ (e - 1)).
  { replace e with (Z.succ (e - 1)) at 1 by lia. apply Z.pow_succ_r. lia. }
  pose proof (Z.div_mod a (2 ^ e) ltac:(lia)) as Hdm.
  pose proof (Z.mod_pos_bound a (2 ^ e) Hpe) as Hr.
  set (q := a / 2 ^ e) in *. set (r := a mod 2 ^ e) in *.
  set (q' := if r <? 2 ^ (e - 1) then q
             else if 2 ^ (e - 1) <? r then q + 1
             else if Z.even q then q else q + 1).
  assert (Hsgn : n = Z.sgn n * a /\ Z.abs (Z.sgn n) = 1).
  { subst a. destruct n; cbn [Z.sgn Z.abs]; lia. }
  destruct Hsgn as [Hsplit Hunit].
  assert (Hpe' : (0 < inject_Z (2 ^ e))%Q)
    by (change 0%Q with (inject_Z 0); rewrite <- Zlt_Qlt; exact Hpe).
  assert (Hdiff : (inject_Z (Z.sgn n * q') - inject_Z n / 2 ^ e
                   == inject_Z (Z.sgn n)
                      * (inject_Z (q' - q) - inject_Z r / inject_Z (2 ^ e)))%Q).
  { rewrite Hsplit at 2. rewrite Hdm at 1.
    rewrite <- (Qpower_2_inject e) by lia.
    unfold Z.sub. rewrite !inject_Z_mult, !inject_Z_plus, inject_Z_mult, inject_Z_opp.
    field. intros E. rewrite E in Hpe'. discriminate Hpe'. }
  assert (Hunit' : (Qabs (inject_Z (Z.sgn n)) == 1)%Q).
  { change (Qabs (inject_Z (Z.sgn n))) with (inject_Z (Z.abs (Z.sgn n))).
    rewrite Hunit. reflexivity. }
  assert (Hnear : np.nearest_even (inject_Z n / 2 ^ e) = Z.sgn n * q').
  { apply nearest_even_unique. rewrite Hdiff, Qabs_Qmult, Hunit', Qmult_1_l.
    assert (Hfrac : (inject_Z r / inject_Z (2 ^ e) ?= 1 # 2)%Q = (r ?= 2 ^ (e - 1))).
    { unfold Qcompare, Qdiv, Qmult, Qinv, inject_Z. cbn [Qnum Qden].
      destruct (2 ^ e) eqn:Epow; try lia. cbn [Qnum Qden].
      rewrite Hhalf in Epow.
      rewrite !Z.mul_1_r, Pos.mul_1_l.
      destruct (Z.compare_spec r (2 ^ (e - 1))) as [E | L | G].
      - apply Z.compare_eq_iff. lia.
      - apply Z.compare_lt_iff. lia.
      - apply Z.compare_gt_iff. lia. }
    subst q'.
    destruct (Z.ltb_spec r (2 ^ (e - 1))) as [Hlt | Hge].
    - left. rewrite Z.sub_diag. change (inject_Z 0) with 0%Q.
      assert (Hc : (inject_Z r / inject_Z (2 ^ e) < 1 # 2)%Q).
      { apply Qlt_alt. rewrite Hfrac. apply Z.compare_lt_iff. exact Hlt. }
      assert (H0 : (0 <= inject_Z r / inject_Z (2 ^ e))%Q).
      { apply Qle_shift_div_l; [exact Hpe' |]. rewrite Qmult_0_l.
        change 0%Q with (inject_Z 0). rewrite <- Zle_Qle. lia. }
      apply Qabs_Qlt_condition. split; lra.
    - destruct (Z.ltb_spec (2 ^ (e - 1)) r) as [Hgt | Hle].
      + left. replace (q + 1 - q) with 1 by lia. change (inject_Z 1) with 1%Q.
        assert (Hc : (1 # 2 < inject_Z r / inject_Z (2 ^ e))%Q).
        { apply Qgt_alt. rewrite Hfrac. apply Z.compare_gt_iff. exact Hgt. }
        assert (H1 : (inject_Z r / inject_Z (2 ^ e) < 1)%Q).
        { apply Qlt_shift_div_r; [exact Hpe' |]. rewrite Qmult_1_l.
          rewrite <- Zlt_Qlt. lia. }
        apply Qabs_Qlt_condition. split; lra.
      + right.
        assert (Hc : (inject_Z r / inject_Z (2 ^ e) == 1 # 2)%Q).
        { apply Qeq_alt. rewrite Hfrac. apply Z.compare_eq_iff. lia. }
        assert (Hev : forall z : Z, Z.even (Z.sgn n * z) = Z.even z).
        { intros z. destruct n; cbn [Z.sgn]; try lia.
          - rewrite Z.mul_1_l. reflexivity.
          - replace (-1 * z) with (- z) by lia. apply Z.even_opp. }
        rewrite Hev. destruct (Z.even q) eqn:Eq.
        * split; [| exact Eq]. rewrite Z.sub_diag, Hc. reflexivity.
        * split.
          -- replace (q + 1 - q) with 1 by lia. rewrite Hc. reflexivity.
          -- rewrite Z.even_add, Eq. reflexivity. }
  rewrite Hnear, <- Qpower_2_inject, <- inject_Z_mult by lia.
  fold a. fold k. fold e. fold q. fold r. fold q'.
  rewrite Z.mul_assoc. reflexivity.
Qed.

(** ** Rows *)

Lemma rows_nth_error {A : Type} (n : nat) :
  (0 < n)%nat ->
  forall (fuel : nat) (l : list A) (i : nat),
    (List.length l <= fuel)%nat -> (i * n < List.length l)%nat ->
    nth_error (rows n fuel l) i = Some (firstn n (skipn (i * n) l)).
Proof.
  intros Hn fuel. induction fuel as [| fuel IH]; intros l i Hfuel Hi.
  - lia.
  - destruct l as [| a l']; [simpl in Hi; lia |].
    destruct i as [| i].
    + reflexivity.
    + cbn [rows nth_error]. rewrite IH.
      * rewrite skipn_skipn. replace (S i * n)%nat with (i * n + n)%nat by lia.
        reflexivity.
      * rewrite length_skipn. cbn [List.length] in *. lia.
      * rewrite length_skipn. cbn [List.length] in *. lia.
Qed.

Lemma rows_length {A : Type} (n : nat) :
  (0 < n)%nat ->
  forall (k fuel : nat) (l : list A),
    (List.length l <= fuel)%nat -> List.length l = (k * n)%nat ->
    List.length (rows n fuel l) = k.
Proof.
  intros Hn k. induction k as [| k IH]; intros fuel l Hfuel Hl.
  - destruct l; [| discriminate]. destruct fuel; reflexivity.
  - destruct l as [| a l']; [simpl in Hl; lia |].
    destruct fuel as [| fuel]; [simpl in Hfuel; lia |].
    cbn [rows List.length]. f_equal. apply IH.
    + rewrite length_skipn. cbn [List.length] in *. lia.
    + rewrite length_skipn. cbn [List.length] in *. lia.
Qed.

Lemma rows_widths {A : Type} (n : nat) :
  (0 < n)%nat ->
  forall (k fuel : nat) (l : list A),
    (List.length l <= fuel)%nat -> List.length l = (k * n)%nat ->
    Forall (fun row => List.length row = n) (rows n fuel l).
Proof.
  intros Hn k. induction k as [| k IH]; intros fuel l Hfuel Hl.
  - destruct l; [| discriminate]. destruct fuel; constructor.
  - destruct l as [| a l']; [simpl in Hl; lia |].
    destruct fuel as [| fuel]; [simpl in Hfuel; lia |].
    cbn [rows]. constructor.
    + rewrite length_firstn. cbn [List.length] in *. lia.
    + apply IH.
      * rewrite length_skipn. cbn [List.length] in *. lia.
      * rewrite length_skipn. cbn [List.length] in *. lia.
Qed.

Lemma rows_concat {A : Type} (n : nat) :
  (0 < n)%nat ->
  forall (fuel : nat) (l : list A),
    (List.length l <= fuel)%nat -> List.concat (rows n fuel l) = l.
Proof.
  intros Hn fuel. induction fuel as [| fuel IH]; intros l Hfuel.
  - destruct l; [reflexivity | simpl in Hfuel; lia].
  - destruct l as [| a l']; [reflexivity |].
    cbn [rows List.concat]. rewrite IH.
    + apply firstn_skipn.
    + rewrite length_skipn. cbn [List.length] in *. lia.
Qed.

(** A multiple of the row width, in [nat]. *)
Lemma multiple_of_width {A : Type} (l : list A) (w : Z) :
  0 < w -> len l mod w = 0 ->
  List.length l = (Z.to_nat (len l / w) * Z.to_nat w)%nat.
Proof.
  intros Hw Hmod. unfold len in *.
  apply Nat2Z.inj. rewrite Nat2Z.inj_mul, !Z2Nat.id; try lia.
  - pose proof (Z.div_mod (Z.of_nat (List.length l)) w ltac:(lia)). lia.
  - apply Z.div_pos; lia.
Qed.

(** ** Normalisation *)

Lemma normalize_rows (width : Z) (raw : list byte) :
  width = 1 \/ width = 2 \/ width = 4 ->
  len raw mod width = 0 ->
  normalize width raw =
  Ok (map (sample_value width) (rows (Z.to_nat width) (List.length raw) raw)).
Proof.
  intros Hw Hmod. unfold normalize, np.frombuffer, sample_value.
  destruct Hw as [-> | [-> | ->]]; cbn [Z.eqb Pos.eqb np.itemsize];
    rewrite Hmod; cbn [Z.eqb bind]; rewrite map_map; reflexivity.
Qed.

Lemma normalize_misaligned (width : Z) (raw : list byte) :
  width = 1 \/ width = 2 \/ width = 4 ->
  len raw mod width <> 0 ->
  normalize width raw = Raise BufferSizeNotMultiple.
Proof.
  intros Hw Hmod. unfold normalize, np.frombuffer.
  destruct Hw as [-> | [-> | ->]]; cbn [Z.eqb Pos.eqb np.itemsize];
    (match goal with
     | |- context [?m =? 0] =>
         destruct (Z.eqb_spec m 0) as [E | _]; [contradiction | reflexivity]
     end).
Qed.

Lemma le_unsigned_range (bytes : list byte) :
  0 <= np.le_unsigned bytes < 256 ^ Z.of_nat (List.length bytes).
Proof.
  induction bytes as [| b bytes IH].
  - cbn. lia.
  - cbn [np.le_unsigned fold_right List.length].
    fold (np.le_unsigned bytes).
    rewrite Nat2Z.inj_succ, Z.pow_succ_r by lia.
    pose proof (byte_val_range b). lia.
Qed.

Lemma to_signed_range (bits u : Z) :
  0 < bits -> 0 <= u < 2 ^ bits ->
  - 2 ^ (bits - 1) <= np.to_signed bits u < 2 ^ (bits - 1).
Proof.
  intros Hb Hu. unfold np.to_signed.
  assert (2 ^ bits = 2 * 2 ^ (bits - 1)).
  { rewrite <- Z.pow_succ_r by lia. f_equal. lia. }
  destruct (Z.ltb_spec u (2 ^ (bits - 1))); lia.
Qed.

Lemma scaled_in_unit_range (z : Z) (d : positive) :
  - Z.pos d <= z <= Z.pos d ->
  in_unit_range (inject_Z z / inject_Z (Z.pos d)).
Proof.
  intros H. unfold in_unit_range, Qle, Qdiv, Qmult, Qinv, inject_Z.
  cbn [Qnum Qden]. lia.
Qed.

Lemma sample_value_range (width : Z) (bytes : list byte) :
  width = 1 \/ width = 2 \/ width = 4 ->
  len bytes = width ->
  in_unit_range (sample_value width bytes).
Proof.
  intros Hw Hlen. pose proof (le_unsigned_range bytes) as Hu.
  unfold len in Hlen. rewrite Hlen in Hu. unfold sample_value.
  destruct Hw as [-> | [-> | ->]]; cbn [Z.eqb Pos.eqb].
  - unfold np.float32_of_Z. rewrite round_to_float32_small by lia.
    change 256 with (2 ^ 8) in Hu. change (2 ^ 8 ^ 1) with 256 in Hu.
    unfold in_unit_range, Qle, Qdiv, Qmult, Qinv, Qminus, Qplus, Qopp, inject_Z.
    cbn [Qnum Qden]. lia.
  - change (256 ^ 2) with (2 ^ 16) in Hu.
    pose proof (to_signed_range 16 _ ltac:(lia) Hu) as Hs.
    change (2 ^ (16 - 1)) with 32768 in Hs.
    unfold np.float32_of_Z. rewrite round_to_float32_small by lia.
    apply (scaled_in_unit_range _ 32768). lia.
  - change (256 ^ 4) with (2 ^ 32) in Hu.
    pose proof (to_signed_range 32 _ ltac:(lia) Hu) as Hs.
    change (2 ^ (32 - 1)) with 2147483648 in Hs.
    unfold np.float32_of_Z.
    apply (scaled_in_unit_range _ 2147483648).
    pose proof (round_to_float32_bound (np.to_signed 32 (np.le_unsigned bytes))) as Hb.
    change (2 ^ 31) with 2147483648 in Hb. lia.
Qed.

Lemma normalize_unsupported (width : Z) (raw : list byte) :
  width <> 1 -> width <> 2 -> width <> 4 ->
  normalize width raw = Raise (UnsupportedSampleWidth width).
Proof.
  intros H1 H2 H4. unfold normalize.
  destruct (Z.eqb_spec width 2); [contradiction |].
  destruct (Z.eqb_spec width 1); [contradiction |].
  destruct (Z.eqb_spec width 4); [contradiction |].
  reflexivity.
Qed.

Lemma supported_or_not (width : Z) :
  (width = 1 \/ width = 2 \/ width = 4) \/ (width <> 1 /\ width <> 2 /\ width <> 4).
Proof. lia. Qed.

Lemma normalize_ok_inv (width : Z) (raw : list byte) (out : list Q) :
  normalize width raw = Ok out ->
  (width = 1 \/ width = 2 \/ width = 4) /\ len raw mod width = 0 /\
  out = map (sample_value width) (rows (Z.to_nat width) (List.length raw) raw).
Proof.
  intros Hok.
  destruct (supported_or_not width) as [Hw | (H1 & H2 & H4)].
  - destruct (Z.eq_dec (len raw mod width) 0) as [Hmod | Hmod].
    + rewrite (normalize_rows width raw Hw Hmod) in Hok.
      injection Hok as <-. auto.
    + rewrite (normalize_misaligned width raw Hw Hmod) in Hok. discriminate.
  - rewrite normalize_unsupported in Hok by assumption. discriminate.
Qed.

(** C3.  Every sample that normalisation produces, for any width and
    any raw buffer, is in [-1.0, 1.0].  A one-byte sample is its
    unsigned value less a bias of 128, over 128; a two-byte sample is
    its signed value over 32768; a four-byte sample is its signed value,
    as a float32, over 2147483648.  The least integer of each width
    (0 before the bias, -32768, -2147483648) maps to -1. *)
Theorem normalization_bounds :
  (forall (width : Z) (raw : list byte) (out : list Q),
      normalize width raw = Ok out -> Forall in_unit_range out)
  /\ (forall b : byte,
         normalize 1 [b] = Ok [((inject_Z (np.byte_val b) - 128) / 128)%Q])
  /\ (forall b0 b1 : byte,
         normalize 2 [b0; b1] =
         Ok [(inject_Z (np.to_signed 16 (np.byte_val b0 + 256 * np.byte_val b1))
              / 32768)%Q])
  /\ (forall b0 b1 b2 b3 : byte,
         normalize 4 [b0; b1; b2; b3] =
         Ok [(np.float32_of_Z
                (np.to_signed 32
                   (np.byte_val b0 + 256 * np.byte_val b1
                    + 65536 * np.byte_val b2 + 16777216 * np.byte_val b3))
              / 2147483648)%Q])
  /\ (exists q, normalize 1 [x00] = Ok [q] /\ (q == -1)%Q)
  /\ (exists q, normalize 2 [x00; x80] = Ok [q] /\ (q == -1)%Q)
  /\ (exists q, normalize 4 [x00; x00; x00; x80] = Ok [q] /\ (q == -1)%Q).
Proof.
  split; [| split; [| split; [| split; [| split; [| split]]]]].
  - intros width raw out Hok.
    destruct (normalize_ok_inv _ _ _ Hok) as (Hw & Hmod & ->).
    assert (Hpos : 0 < width) by lia.
    pose proof (rows_widths (Z.to_nat width) ltac:(lia) _ (List.length raw) raw
                  (Nat.le_refl _) (multiple_of_width raw width Hpos Hmod)) as Hrows.
    apply Forall_map. eapply Forall_impl; [| exact Hrows].
    intros row Hrow. apply sample_value_range; [assumption |].
    unfold len. rewrite Hrow. lia.
  - intros b. rewrite normalize_rows by (auto; reflexivity).
    change (rows (Z.to_nat 1) (List.length [b]) [b]) with [[b]].
    cbn [map]. unfold sample_value, np.float32_of_Z. cbn [Z.eqb Pos.eqb].
    change (np.le_unsigned [b]) with (np.byte_val b + 256 * 0).
    replace (np.byte_val b + 256 * 0) with (np.byte_val b) by lia.
    rewrite round_to_float32_small; [reflexivity |].
    pose proof (byte_val_range b). lia.
  - intros b0 b1. rewrite normalize_rows by (auto; reflexivity).
    change (rows (Z.to_nat 2) (List.length [b0; b1]) [b0; b1]) with [[b0; b1]].
    cbn [map]. unfold sample_value, np.float32_of_Z. cbn [Z.eqb Pos.eqb].
    change (np.le_unsigned [b0; b1])
      with (np.byte_val b0 + 256 * (np.byte_val b1 + 256 * 0)).
    replace (np.byte_val b0 + 256 * (np.byte_val b1 + 256 * 0))
      with (np.byte_val b0 + 256 * np.byte_val b1) by lia.
    pose proof (byte_val_range b0). pose proof (byte_val_range b1).
    rewrite round_to_float32_small; [reflexivity |].
    pose proof (to_signed_range 16 (np.byte_val b0 + 256 * np.byte_val b1)
                  ltac:(lia) ltac:(lia)) as Hs.
    change (2 ^ (16 - 1)) with 32768 in Hs. lia.
  - intros b0 b1 b2 b3. rewrite normalize_rows by (auto; reflexivity).
    change (rows (Z.to_nat 4) (List.length [b0; b1; b2; b3]) [b0; b1; b2; b3])
      with [[b0; b1; b2; b3]].
    cbn [map]. unfold sample_value. cbn [Z.eqb Pos.eqb].
    change (np.le_unsigned [b0; b1; b2; b3])
      with (np.byte_val b0
            + 256 * (np.byte_val b1
                     + 256 * (np.byte_val b2 + 256 * (np.byte_val b3 + 256 * 0)))).
    do 5 f_equal. lia.
  - eexists. split; [reflexivity | reflexivity].
  - eexists. split; [reflexivity | reflexivity].
  - eexists. split; [reflexivity | reflexivity].
Qed.

Lemma normalization_bounds_witness :
  normalize 2 [x00; x80; xff; x7f] = Ok [(-32768 # 32768)%Q; (32767 # 32768)%Q]
  /\ Forall in_unit_range [(-32768 # 32768)%Q; (32767 # 32768)%Q].
Proof.
  split; [reflexivity |].
  apply (proj1 normalization_bounds 2 [x00; x80; xff; x7f]). reflexivity.
Defined.

(** C7.  For a width other than 1, 2 and 4 normalisation raises the
    unsupported-width error.  For the widths 1, 2 and 4 it never raises
    that error: it fails only when the buffer is not a whole number of
    samples, and otherwise returns one float per input sample, the
    [i]-th float being the value of the [i]-th sample of the buffer. *)
Theorem normalize_width_errors :
  (forall (width : Z) (raw : list byte),
      width <> 1 -> width <> 2 -> width <> 4 ->
      normalize width raw = Raise (UnsupportedSampleWidth width))
  /\ (forall (width : Z) (raw : list byte),
         width = 1 \/ width = 2 \/ width = 4 ->
         (forall w, normalize width raw <> Raise (UnsupportedSampleWidth w))
         /\ (len raw mod width <> 0 -> normalize width raw = Raise BufferSizeNotMultiple)
         /\ (len raw mod width = 0 ->
             exists out : list Q,
               normalize width raw = Ok out
               /\ len out = len raw / width
               /\ forall i : nat,
                   (i < List.length out)%nat ->
                   nth_error out i = Some (sample_value width (group width raw i)))).
Proof.
  split.
  - exact normalize_unsupported.
  - intros width raw Hw.
    assert (Hpos : 0 < width) by lia.
    split; [| split].
    + intros w Hraise.
      destruct (Z.eq_dec (len raw mod width) 0) as [Hmod | Hmod].
      * rewrite (normalize_rows width raw Hw Hmod) in Hraise. discriminate.
      * rewrite (normalize_misaligned width raw Hw Hmod) in Hraise. discriminate.
    + apply normalize_misaligned; assumption.
    + intros Hmod. eexists. split; [apply normalize_rows; assumption |].
      pose proof (multiple_of_width raw width Hpos Hmod) as Hlen.
      pose proof (rows_length (Z.to_nat width) ltac:(lia) _ (List.length raw) raw
                    (Nat.le_refl _) Hlen) as Hrows.
      split.
      * unfold len at 1. rewrite length_map, Hrows, Z2Nat.id; [reflexivity |].
        apply Z.div_pos; unfold len; lia.
      * intros i Hi. rewrite length_map, Hrows in Hi.
        rewrite nth_error_map, rows_nth_error; [reflexivity | lia | lia |].
        rewrite Hlen. apply Nat.mul_lt_mono_pos_r; lia.
Qed.

Lemma normalize_width_errors_witness :
  (3 <> 1 /\ 3 <> 2 /\ 3 <> 4)
  /\ normalize 3 [x00; x01; x02] = Raise (UnsupportedSampleWidth 3).
Proof.
  split; [lia |].
  apply (proj1 normalize_width_errors 3 [x00; x01; x02]); lia.
Defined.

(** ** Mixing *)


Lemma mix_aligned (channels : Z) (audio : list Q) :
  channels > 1 -> len audio mod channels = 0 ->
  mix_to_mono channels audio =
  Ok (np.mean_axis1 channels
        (rows (Z.to_nat channels) (List.length audio) audio)).
Proof.
  intros Hc Hmod. unfold mix_to_mono, np.reshape.
  destruct (Z.gtb_spec channels 1); [| lia].
  rewrite Hmod. reflexivity.
Qed.

Lemma mix_misaligned (channels : Z) (audio : list Q) :
  channels > 1 -> len audio mod channels <> 0 ->
  mix_to_mono channels audio = Raise (CannotReshape (len audio) channels).
Proof.
  intros Hc Hmod. unfold mix_to_mono, np.reshape.
  destruct (Z.gtb_spec channels 1); [| lia].
  destruct (Z.eqb_spec (len audio mod channels) 0); [contradiction | reflexivity].
Qed.

Lemma group_length {A : Type} (n : Z) (l : list A) (i : nat) :
  0 < n -> (i * Z.to_nat n + Z.to_nat n <= List.length l)%nat ->
  len (group n l i) = n.
Proof.
  intros Hn Hi. unfold len, group. rewrite length_firstn, length_skipn. lia.
Qed.


(** The fuel of [pairwise_sum] never runs out: with at least as much
    fuel as the run is long, the sum does not depend on the fuel. *)
Lemma pairwise_sum_fuel (fuel : nat) :
  forall (fuel' : nat) (a : list Q),
    (List.length a <= fuel)%nat -> (List.length a <= fuel')%nat ->
    np.pairwise_sum fuel a = np.pairwise_sum fuel' a.
Proof.
  induction fuel as [| fuel IH]; intros fuel' a Hfuel Hfuel'.
  - destruct a; [| cbn [List.length] in Hfuel; lia].
    destruct fuel'; reflexivity.
  - destruct (Nat.leb_spec (List.length a) 128) as [Hshort | Hlong].
    + destruct fuel'; cbn [np.pairwise_sum];
        destruct (Nat.ltb_spec (List.length a) 8); try reflexivity;
        destruct (Nat.leb_spec (List.length a) 128); try reflexivity; lia.
    + destruct fuel' as [| fuel']; [lia |].
      cbn [np.pairwise_sum].
      destruct (Nat.ltb_spec (List.length a) 8); [lia |].
      destruct (Nat.leb_spec (List.length a) 128); [lia |].
      set (n2 := (List.length a / 2 - (List.length a / 2) mod 8)%nat).
      assert (Hn2 : (0 < n2 < List.length a)%nat).
      { subst n2.
        pose proof (Nat.mod_upper_bound (List.length a / 2) 8 ltac:(lia)).
        pose proof (Nat.div_mod_eq (List.length a) 2).
        pose proof (Nat.mod_upper_bound (List.length a) 2 ltac:(lia)).
        lia. }
      rewrite (IH fuel' (firstn n2 a)), (IH fuel' (skipn n2 a));
        try reflexivity; rewrite ?length_firstn, ?length_skipn; lia.
Qed.

Lemma sum_of_two (a b : Q) : np.sum [a; b] = np.float32 (a + b).
Proof. reflexivity. Qed.



(** The groups of the mixer: with more than one channel and a length
    that is a multiple of the channel count, one output sample for each
    group of [channels] samples, its binary32 mean. *)
Lemma mix_groups (channels : Z) (audio : list Q) :
  channels > 1 -> len audio mod channels = 0 ->
  exists mono : list Q,
    mix_to_mono channels audio = Ok mono
    /\ len mono = len audio / channels
    /\ forall i : nat,
        (i < List.length mono)%nat ->
        len (group channels audio i) = channels
        /\ nth_error mono i = Some (float32_mean (group channels audio i)).
Proof.
  intros Hc Hmod.
  assert (Hpos : 0 < channels) by lia.
  pose proof (multiple_of_width audio channels Hpos Hmod) as Hlen.
  pose proof (rows_length (Z.to_nat channels) ltac:(lia) _ (List.length audio) audio
                (Nat.le_refl _) Hlen) as Hrows.
  eexists. split; [apply mix_aligned; assumption |]. split.
  + unfold len at 1, np.mean_axis1. rewrite length_map, Hrows, Z2Nat.id; [reflexivity |].
    apply Z.div_pos; unfold len; lia.
  + intros i Hi. unfold np.mean_axis1 in *. rewrite length_map, Hrows in Hi.
    assert (Hin : (i * Z.to_nat channels < List.length audio)%nat).
    { rewrite Hlen. apply Nat.mul_lt_mono_pos_r; lia. }
    assert (Hg : len (group channels audio i) = channels).
    { apply group_length; [lia |]. rewrite Hlen. nia. }
    split; [exact Hg |].
    rewrite nth_error_map, rows_nth_error by lia.
    fold (group channels audio i). unfold float32_mean. rewrite Hg. reflexivity.
Qed.




(** C8.  With more than one channel the mixer fails exactly when the
    length of the sequence is not a multiple of the channel count, and
    the failure is the reshape error. *)
Theorem mixer_alignment_error (channels : Z) (audio : list Q) :
  channels > 1 ->
  ((exists e : exn, mix_to_mono channels audio = Raise e)
   <-> len audio mod channels <> 0)
  /\ (len audio mod channels <> 0 ->
      mix_to_mono channels audio = Raise (CannotReshape (len audio) channels)).
Proof.
  intros Hc. split; [split |].
  - intros [e He] Hmod. rewrite mix_aligned in He by assumption. discriminate.
  - intros Hmod. eexists. apply mix_misaligned; assumption.
  - apply mix_misaligned; assumption.
Qed.

Lemma mixer_alignment_error_witness :
  2 > 1
  /\ ((exists e : exn, mix_to_mono 2 [1; 2; 3]%Q = Raise e)
      <-> len [1; 2; 3]%Q mod 2 <> 0)
  /\ (len [1; 2; 3]%Q mod 2 <> 0 ->
      mix_to_mono 2 [1; 2; 3]%Q = Raise (CannotReshape (len [1; 2; 3]%Q) 2)).
Proof.
  split; [lia |].
  apply (mixer_alignment_error 2 [1; 2; 3]%Q). lia.
Defined.

(** ** Resampling *)

Lemma arange_length (n : Z) : List.length (np.arange n) = Z.to_nat n.
Proof. unfold np.arange. rewrite length_map, length_seq. reflexivity. Qed.

Lemma arange_nth_error (n : Z) (i : nat) :
  (i < Z.to_nat n)%nat ->
  nth_error (np.arange n) i = Some (inject_Z (Z.of_nat i)).
Proof.
  intros Hi. unfold np.arange. rewrite nth_error_map, nth_error_seq.
  destruct (Nat.ltb_spec i (Z.to_nat n)); [reflexivity | lia].
Qed.

Lemma set_last_length (y : list Q) (v : Q) :
  y <> [] -> List.length (np.set_last y v) = List.length y.
Proof.
  intros Hy. unfold np.set_last.
  rewrite length_app, removelast_firstn_len, length_firstn.
  destruct y; [contradiction | cbn [List.length]; lia].
Qed.

Lemma set_last_nth_error (y : list Q) (v : Q) (i : nat) :
  (i < List.length y)%nat ->
  nth_error (np.set_last y v) i =
  if (S i =? List.length y)%nat then Some v else nth_error y i.
Proof.
  intros Hi. unfold np.set_last. rewrite removelast_firstn_len.
  destruct (Nat.eqb_spec (S i) (List.length y)) as [E | N].
  - rewrite nth_error_app2 by (rewrite length_firstn; lia).
    rewrite length_firstn.
    replace (i - Nat.min (Nat.pred (List.length y)) (List.length y))%nat with 0%nat by lia.
    reflexivity.
  - rewrite nth_error_app1 by (rewrite length_firstn; lia).
    rewrite nth_error_firstn.
    destruct (Nat.ltb_spec i (Nat.pred (List.length y))); [reflexivity | lia].
Qed.

Lemma inject_Z_nonneg (z : Z) : 0 <= z -> (0 <= inject_Z z)%Q.
Proof. intros Hz. change 0%Q with (inject_Z 0). rewrite <- Zle_Qle. exact Hz. Qed.

(** The items of [np.linspace(0, stop, num)]: there are [num] of them,
    none negative, the first is zero and the last is [stop] itself. *)
Lemma linspace_spec (stop : Q) (num : Z) :
  0 <= num -> (0 <= stop)%Q ->
  exists xs : list Q,
    np.linspace 0 stop num = Ok xs
    /\ List.length xs = Z.to_nat num
    /\ forall i : nat,
        (i < Z.to_nat num)%nat ->
        exists x : Q,
          nth_error xs i = Some x
          /\ (0 <= x)%Q
          /\ (i = 0%nat -> (x == 0)%Q)
          /\ (1 < num -> Z.of_nat i = num - 1 -> x = stop).
Proof.
  intros Hnum Hstop. unfold np.linspace.
  destruct (Z.ltb_spec num 0) as [| _]; [lia |].
  set (delta := np.float64 (stop - 0)).
  assert (Hdelta : (0 <= delta)%Q).
  { apply float64_nonneg. unfold Qminus. rewrite Qplus_0_r. exact Hstop. }
  set (y := if 0 <? num - 1 then _ else _).
  assert (Hy : exists f : Q -> Q,
             y = map f (np.arange num)
             /\ (forall i : Q, (0 <= i)%Q -> (0 <= f i)%Q)
             /\ (f 0 == 0)%Q).
  { subst y. destruct (Z.ltb_spec 0 (num - 1)) as [Hdiv | Hdiv].
    - assert (Hpos : (0 < inject_Z (num - 1))%Q).
      { change 0%Q with (inject_Z 0). rewrite <- Zlt_Qlt. exact Hdiv. }
      destruct (Qeq_bool (np.float64 (delta / inject_Z (num - 1))) 0).
      + eexists. split; [reflexivity |]. split.
        * intros i Hi. apply float64_nonneg.
          apply Qmult_le_0_compat; [| exact Hdelta]. apply float64_nonneg.
          apply Qle_shift_div_l; [exact Hpos |]. rewrite Qmult_0_l. exact Hi.
        * apply float64_zero. rewrite float64_zero; [apply Qmult_0_l |].
          unfold Qdiv. apply Qmult_0_l.
      + eexists. split; [reflexivity |]. split.
        * intros i Hi. apply float64_nonneg.
          apply Qmult_le_0_compat; [exact Hi |]. apply float64_nonneg.
          apply Qle_shift_div_l; [exact Hpos |]. rewrite Qmult_0_l. exact Hdelta.
        * apply float64_zero, Qmult_0_l.
    - eexists. split; [reflexivity |]. split.
      + intros i Hi. apply float64_nonneg.
        apply Qmult_le_0_compat; [exact Hi | exact Hdelta].
      + apply float64_zero, Qmult_0_l. }
  destruct Hy as (f & Hf & Hf_nonneg & Hf_zero). rewrite Hf, map_map.
  set (g := fun i : Q => np.float64 (f i + 0)).
  assert (Hg_nonneg : forall i : Q, (0 <= i)%Q -> (0 <= g i)%Q).
  { intros i Hi. apply float64_nonneg. rewrite Qplus_0_r. apply Hf_nonneg, Hi. }
  assert (Hg_zero : (g 0 == 0)%Q).
  { apply float64_zero. rewrite Qplus_0_r. exact Hf_zero. }
  assert (Hlen : List.length (map g (np.arange num)) = Z.to_nat num)
    by (rewrite length_map; apply arange_length).
  assert (Hitem : forall i : nat,
             (i < Z.to_nat num)%nat ->
             nth_error (map g (np.arange num)) i = Some (g (inject_Z (Z.of_nat i)))).
  { intros i Hi. rewrite nth_error_map, arange_nth_error by assumption. reflexivity. }
  eexists. split; [reflexivity |].
  destruct (Z.ltb_spec 1 num) as [Hmany | Hfew].
  - assert (Hne : map g (np.arange num) <> []).
    { intros E. rewrite E in Hlen. cbn [List.length] in Hlen. lia. }
    split; [rewrite set_last_length; assumption |].
    intros i Hi. rewrite set_last_nth_error by lia. rewrite Hlen.
    destruct (Nat.eqb_spec (S i) (Z.to_nat num)) as [E | N].
    + eexists. split; [reflexivity |]. split; [exact Hstop |].
      split; [lia | reflexivity].
    + rewrite Hitem by assumption.
      eexists. split; [reflexivity |]. split; [| split; [| lia]].
      * apply Hg_nonneg, inject_Z_nonneg. lia.
      * intros ->. exact Hg_zero.
  - split; [assumption |].
    intros i Hi. rewrite Hitem by assumption.
    eexists. split; [reflexivity |]. split; [| split; [| lia]].
    + apply Hg_nonneg, inject_Z_nonneg. lia.
    + intros ->. exact Hg_zero.
Qed.

Lemma Qfloor_unique (x : Q) (k : Z) :
  (inject_Z k <= x)%Q -> (x < inject_Z (k + 1))%Q -> Qfloor x = k.
Proof.
  intros Hlo Hhi.
  pose proof (Qfloor_resp_le _ _ Hlo) as H1. rewrite Qfloor_Z in H1.
  pose proof (Qle_lt_trans _ _ _ (Qfloor_le x) Hhi) as H2.
  rewrite <- Zlt_Qlt in H2. lia.
Qed.

Lemma Qle_bool_false (a b : Q) : (b < a)%Q -> Qle_bool a b = false.
Proof.
  intros Hlt. destruct (Qle_bool a b) eqn:E; [| reflexivity].
  apply Qle_bool_iff in E. exfalso. exact (Qlt_not_le _ _ Hlt E).
Qed.

Lemma interp_from_step (x x0 x1 y0 y1 : Q) (xp fp : list Q) :
  np.interp_from x (x0 :: x1 :: xp) (y0 :: y1 :: fp)
  = if Qle_bool x1 x then np.interp_from x (x1 :: xp) (y1 :: fp)
    else if Qeq_bool x0 x then y0
    else np.on_segment x0 y0 x1 y1 x.
Proof. reflexivity. Qed.

(** The walk of [np.interp] over the sample points k, k+1, ...: the
    sample at the floor of [x], or the point of the segment that starts
    there; at or beyond the last sample point, the last sample. *)
Lemma interp_from_arange (fp : list Q) :
  forall (k : nat) (x : Q),
    fp <> [] ->
    (inject_Z (Z.of_nat k) <= x)%Q ->
    np.interp_from x (map (fun i => inject_Z (Z.of_nat i)) (seq k (List.length fp))) fp
    = let j := Qfloor x in
      let sample := fun i : Z => nth (Z.to_nat i - k) fp 0%Q in
      if Qle_bool (inject_Z (Z.of_nat k + len fp - 1)) x
      then sample (Z.of_nat k + len fp - 1)
      else if Qeq_bool (inject_Z j) x then sample j
      else np.on_segment (inject_Z j) (sample j) (inject_Z (j + 1)) (sample (j + 1)) x.
Proof.
  induction fp as [| y0 fp IH]; intros k x Hne Hlo; [contradiction |].
  destruct fp as [| y1 fp].
  - (* one sample point left *)
    cbv zeta. unfold len. cbn [List.length seq map np.interp_from].
    replace (Z.of_nat k + Z.of_nat 1 - 1) with (Z.of_nat k) by lia.
    apply Qle_bool_iff in Hlo. rewrite Hlo.
    rewrite Nat2Z.id, Nat.sub_diag. reflexivity.
  - cbn [List.length seq map]. rewrite interp_from_step.
    destruct (Qle_bool (inject_Z (Z.of_nat (S k))) x) eqn:Hnext.
    + (* the index is further right *)
      apply Qle_bool_iff in Hnext.
      specialize (IH (S k) x ltac:(discriminate) Hnext).
      cbn [List.length seq map] in IH. rewrite IH. cbv zeta.
      assert (Hfl : Z.of_nat (S k) <= Qfloor x).
      { pose proof (Qfloor_resp_le _ _ Hnext) as H. rewrite Qfloor_Z in H. exact H. }
      unfold len. cbn [List.length].
      replace (Z.of_nat (S k) + Z.of_nat (S (List.length fp)) - 1)
        with (Z.of_nat k + Z.of_nat (S (S (List.length fp))) - 1) by lia.
      assert (Hshift : forall i : Z,
                 Z.of_nat (S k) <= i ->
                 nth (Z.to_nat i - S k) (y1 :: fp) 0%Q
                 = nth (Z.to_nat i - k) (y0 :: y1 :: fp) 0%Q).
      { intros i Hi. replace (Z.to_nat i - k)%nat with (S (Z.to_nat i - S k)) by lia.
        reflexivity. }
      rewrite !Hshift by lia. reflexivity.
    + (* the index is k *)
      assert (Hlt : (x < inject_Z (Z.of_nat k + 1))%Q).
      { apply Qnot_le_lt. intros H. apply Qle_bool_iff in H.
        rewrite Nat2Z.inj_succ in Hnext. unfold Z.succ in Hnext. congruence. }
      cbv zeta. rewrite (Qfloor_unique x (Z.of_nat k) Hlo Hlt).
      rewrite Qle_bool_false.
      * rewrite Nat2Z.id, Nat.sub_diag.
        replace (Z.to_nat (Z.of_nat k + 1) - k)%nat with 1%nat by lia.
        rewrite Nat2Z.inj_succ. unfold Z.succ. reflexivity.
      * eapply Qlt_le_trans; [exact Hlt |]. rewrite <- Zle_Qle.
        unfold len. cbn [List.length]. lia.
Qed.

Lemma arange_len {A : Type} (l : list A) :
  np.arange (len l) = map (fun i => inject_Z (Z.of_nat i)) (seq 0 (List.length l)).
Proof. unfold np.arange, len. rewrite Nat2Z.id. reflexivity. Qed.

(** On the sample points 0, 1, ..., L - 1, [np.interp] is the
    interpolation of the samples at any position that is not negative. *)
Lemma interp1_arange (audio : list Q) (x : Q) :
  audio <> [] -> (0 <= x)%Q ->
  np.interp1 x (np.arange (len audio)) audio = interpolates audio x.
Proof.
  intros Hne Hlo. rewrite arange_len.
  pose proof (interp_from_arange audio 0 x Hne Hlo) as Hfrom.
  assert (Hv : np.interp1 x (map (fun i => inject_Z (Z.of_nat i))
                               (seq 0 (List.length audio))) audio
               = np.interp_from x (map (fun i => inject_Z (Z.of_nat i))
                                     (seq 0 (List.length audio))) audio).
  { destruct audio as [| a audio]; [contradiction |].
    cbn [List.length seq map np.interp1].
    apply Qle_bool_iff in Hlo.
    change (inject_Z (Z.of_nat 0)) with 0%Q. rewrite Hlo. reflexivity. }
  rewrite Hv, Hfrom. unfold interpolates. cbv zeta.
  change (Z.of_nat 0) with 0. rewrite Z.add_0_l, !Nat.sub_0_r. reflexivity.
Qed.

Lemma interpolates_on_index (audio : list Q) (x : Q) (k : Z) :
  0 <= k < len audio -> (x == inject_Z k)%Q ->
  interpolates audio x = nth (Z.to_nat k) audio 0%Q.
Proof.
  intros Hk Hx. unfold interpolates. cbv zeta.
  assert (Hfl : Qfloor x = k) by (rewrite (Qfloor_comp _ _ Hx); apply Qfloor_Z).
  rewrite Hfl.
  destruct (Qle_bool (inject_Z (len audio - 1)) x) eqn:Hend.
  - apply Qle_bool_iff in Hend. rewrite Hx, <- Zle_Qle in Hend.
    replace (len audio - 1) with k by lia. reflexivity.
  - rewrite (Qeq_eq_bool _ _ (Qeq_sym _ _ Hx)). reflexivity.
Qed.

Lemma nth_error_nth_len (audio : list Q) (k : Z) :
  0 <= k < len audio ->
  nth_error audio (Z.to_nat k) = Some (nth (Z.to_nat k) audio 0%Q).
Proof.
  intros Hk. apply nth_error_nth'. unfold len in Hk. lia.
Qed.








(** The resampling of a non-empty clip at a positive rate: the
    positions of [np.linspace], one output sample for each, which is the
    binary32 rounding of the interpolation at that position. *)
Lemma resample_spec (rate : Z) (audio : list Q) :
  0 < rate -> rate <> 16000 -> audio <> [] ->
  exists positions : list Q,
    np.linspace 0 (inject_Z (len audio - 1)) (len audio * 16000 / rate) = Ok positions
    /\ resample rate audio
       = Ok (map (fun x => np.float32 (interpolates audio x)) positions)
    /\ len positions = len audio * 16000 / rate
    /\ forall i : Z,
        0 <= i < len audio * 16000 / rate ->
        exists x : Q,
          nth_error positions (Z.to_nat i) = Some x
          /\ (0 <= x)%Q
          /\ (i = 0 -> (x == 0)%Q)
          /\ (1 < len audio * 16000 / rate -> i = len audio * 16000 / rate - 1 ->
              x = inject_Z (len audio - 1)).
Proof.
  intros Hrate Hne16 Hne.
  assert (Hn : 1 <= len audio).
  { unfold len. destruct audio; [contradiction | cbn [List.length]; lia]. }
  set (n' := len audio * 16000 / rate).
  assert (Hn' : 0 <= n') by (apply Z.div_pos; lia).
  destruct (linspace_spec (inject_Z (len audio - 1)) n' Hn'
              ltac:(apply inject_Z_nonneg; lia))
    as (xs & Hxs & Hlen & Hnth).
  assert (Hall : forall i : Z,
             0 <= i < n' ->
             exists x : Q,
               nth_error xs (Z.to_nat i) = Some x
               /\ (0 <= x)%Q
               /\ (i = 0 -> (x == 0)%Q)
               /\ (1 < n' -> i = n' - 1 -> x = inject_Z (len audio - 1))).
  { intros i Hi. destruct (Hnth (Z.to_nat i) ltac:(lia)) as (x & Hx & Hge & Hfirst & Hlast).
    exists x. split; [exact Hx |]. split; [exact Hge |]. split.
    - intros ->. apply Hfirst. reflexivity.
    - intros Hmany ->. apply Hlast; lia. }
  exists xs. split; [exact Hxs |]. split; [| split; [unfold len at 1; lia | exact Hall]].
  unfold resample, int_of_quotient.
  destruct (Z.eqb_spec rate 16000); [contradiction |]. cbn [negb].
  destruct (Z.eqb_spec rate 0); [lia |]. cbn [bind].
  rewrite Z.quot_div_nonneg by lia. fold n'. rewrite Hxs. cbn [bind].
  unfold np.interp. rewrite (arange_len audio) at 1.
  unfold len at 1. rewrite length_map, length_seq.
  destruct (Z.eqb_spec (Z.of_nat (List.length audio)) 0); [unfold len in Hn; lia |].
  cbn [bind]. unfold np.astype_float32. rewrite map_map. f_equal.
  apply map_ext_in. intros x Hin. f_equal.
  apply interp1_arange; [exact Hne |].
  destruct (In_nth_error _ _ Hin) as [i Hi].
  assert (Hlt : (i < List.length xs)%nat) by (apply nth_error_Some; congruence).
  destruct (Hall (Z.of_nat i) ltac:(lia)) as (x' & Hx' & Hge & _).
  rewrite Nat2Z.id, Hi in Hx'. injection Hx' as <-. exact Hge.
Qed.

Lemma resample_out_length (audio positions : list Q) :
  len (map (fun x => np.float32 (interpolates audio x)) positions) = len positions.
Proof. unfold len. rewrite length_map. reflexivity. Qed.

Lemma typed_item (audio : list Q) (k : nat) :
  Forall is_float32 audio ->
  option_map np.float32 (nth_error audio k) = nth_error audio k.
Proof.
  intros Htyped. destruct (nth_error audio k) as [s |] eqn:Hs; [| reflexivity].
  cbn [option_map]. f_equal.
  rewrite Forall_forall in Htyped. apply Htyped. eapply nth_error_In, Hs.
Qed.

(** The output sample of a position that is an index of the clip. *)
Lemma resample_on_index (audio : list Q) (x : Q) (k : Z) :
  0 <= k < len audio -> (x == inject_Z k)%Q ->
  Some (np.float32 (interpolates audio x))
  = option_map np.float32 (nth_error audio (Z.to_nat k)).
Proof.
  intros Hk Hx. rewrite (interpolates_on_index audio x k Hk Hx).
  rewrite (nth_error_nth_len audio k Hk). reflexivity.
Qed.

(** C1, amended.  For a non-empty mono sequence of length L at a
    positive source rate R1 other than 16000, the resampler returns a
    sequence whose length is floor(L * 16000 / R1): [int] truncates the
    quotient. *)
Theorem resampled_length_floor (rate : Z) (audio : list Q) :
  0 < rate -> rate <> 16000 -> audio <> [] ->
  exists out : list Q,
    resample rate audio = Ok out
    /\ len out = Qfloor (inject_Z (len audio) * 16000 / inject_Z rate).
Proof.
  intros Hrate Hne16 Hne.
  destruct (resample_spec rate audio Hrate Hne16 Hne) as (positions & _ & Hout & Hlen & _).
  eexists. split; [exact Hout |]. rewrite resample_out_length, Hlen, Zdiv_Qdiv.
  apply Qfloor_comp. rewrite inject_Z_mult. reflexivity.
Qed.

Lemma resampled_length_floor_witness :
  (0 < 48000 /\ 48000 <> 16000 /\ [0; 0; 0; 0; 0]%Q <> [])
  /\ exists out : list Q,
      resample 48000 [0; 0; 0; 0; 0]%Q = Ok out
      /\ len out = Qfloor (inject_Z (len [0; 0; 0; 0; 0]%Q) * 16000 / inject_Z 48000).
Proof.
  split.
  - repeat split; [lia | discriminate].
  - apply (resampled_length_floor 48000 [0; 0; 0; 0; 0]%Q); [lia | lia | discriminate].
Defined.

(** C1 as stated, with round, does not hold: five samples at 48000 Hz
    give one output sample, while round(5 * 16000 / 48000) = round(1.67)
    is 2. *)
Lemma resampled_length_not_round :
  ~ (forall (rate : Z) (audio out : list Q),
        rate <> 16000 -> resample rate audio = Ok out ->
        len out = py_round (inject_Z (len audio) * 16000 / inject_Z rate)).
Proof.
  intros H.
  assert (Hres : resample 48000 [0; 0; 0; 0; 0]%Q = Ok [0%Q])
    by (vm_compute; reflexivity).
  specialize (H 48000 [0; 0; 0; 0; 0]%Q [0%Q] ltac:(lia) Hres).
  vm_compute in H. discriminate.
Qed.




(** C9.  At a source rate of 16000 Hz the resampling step returns the
    sequence it is given, whatever it is, so that [load_wav] returns the
    normalised, mixed samples untouched. *)
Theorem resample_identity :
  (forall audio : list Q, resample 16000 audio = Ok audio)
  /\ (forall (channels width : Z) (raw : list byte),
         decode_wav {| getframerate := 16000; getnchannels := channels;
                       getsampwidth := width; readframes := raw |}
         = (audio <- normalize width raw ;; mix_to_mono channels audio)).
Proof.
  split; [reflexivity |].
  intros channels width raw. unfold decode_wav. cbn [getframerate getnchannels
    getsampwidth readframes].
  destruct (normalize width raw) as [audio |]; [| reflexivity]. cbn [bind].
  destruct (mix_to_mono channels audio); reflexivity.
Qed.

(** C10.  On an empty sequence at a rate other than 16000 the
    resampling step returns no sequence, empty or not: it raises.  At a
    non-zero rate the error is that of [np.interp], whose array of
    sample points is empty; so does [load_wav] end on a WAV file of a
    supported width that holds no frame. *)
Theorem resample_empty_raises (rate : Z) :
  rate <> 16000 ->
  resample rate [] <> Ok []
  /\ (exists e : exn, resample rate [] = Raise e)
  /\ (rate <> 0 -> resample rate [] = Raise EmptySamplePoints)
  /\ (rate <> 0 ->
      forall channels width : Z,
        width = 1 \/ width = 2 \/ width = 4 ->
        decode_wav {| getframerate := rate; getnchannels := channels;
                      getsampwidth := width; readframes := [] |}
        = Raise EmptySamplePoints).
Proof.
  intros Hne16.
  assert (Hcases : resample rate [] = Raise EmptySamplePoints /\ rate <> 0
                   \/ resample rate [] = Raise ZeroDivisionError /\ rate = 0).
  { unfold resample, int_of_quotient.
    destruct (Z.eqb_spec rate 16000); [contradiction |]. cbn [negb].
    destruct (Z.eqb_spec rate 0) as [E0 | N0].
    - right. split; [reflexivity | exact E0].
    - left. change (len (@nil Q) * 16000) with 0.
      rewrite Z.quot_0_l by assumption. split; [reflexivity | exact N0]. }
  destruct Hcases as [[H N0] | [H E0]]; rewrite H.
  - split; [discriminate |]. split; [eexists; reflexivity |].
    split; [reflexivity |].
    intros _ channels width Hw. unfold decode_wav.
    cbn [getframerate getnchannels getsampwidth readframes].
    rewrite normalize_rows by (assumption || (cbn [len List.length]; apply Z.mod_0_l; lia)).
    cbn [List.length rows map bind].
    assert (Hmix : mix_to_mono channels [] = Ok []).
    { unfold mix_to_mono, np.reshape. destruct (channels >? 1); [| reflexivity].
      change (len (@nil Q)) with 0. rewrite Zmod_0_l. reflexivity. }
    rewrite Hmix. cbn [bind]. exact H.
  - split; [discriminate |]. split; [eexists; reflexivity |].
    split; intros; contradiction.
Qed.

Lemma resample_empty_raises_witness :
  44100 <> 16000
  /\ resample 44100 [] <> Ok []
  /\ (exists e : exn, resample 44100 [] = Raise e)
  /\ (44100 <> 0 -> resample 44100 [] = Raise EmptySamplePoints).
Proof.
  split; [lia |].
  destruct (resample_empty_raises 44100 ltac:(lia)) as (H1 & H2 & H3 & _).
  repeat split; assumption.
Defined.

(** ** The language pattern *)

Lemma in_letters_iff (c : ascii) :
  re.in_charset letters c = true <-> is_letter c.
Proof.
  unfold is_letter, letters. cbn [re.in_charset].
  rewrite orb_true_iff, !andb_true_iff, !N.leb_le. reflexivity.
Qed.

Ltac split_conditions H :=
  repeat match type of H with
         | context [re.in_charset letters ?c] =>
             let E := fresh "L" in
             destruct (re.in_charset letters c) eqn:E;
             [apply in_letters_iff in E |]; cbn [andb orb] in H
         | context [Ascii.eqb "-" ?c] =>
             destruct (Ascii.eqb_spec "-" c); [subst |]; cbn [andb orb] in H
         end.

Lemma valid_language_sound (s : string) :
  valid_language s = true -> LanguageTag s.
Proof.
  unfold valid_language, re.fullmatch, language_pattern, LanguageTag.
  destruct s as [| c1 [| c2 [| c3 [| c4 [| c5 [| c6 [| c7 s]]]]]]];
    cbn -[re.in_charset Ascii.eqb]; intros H; split_conditions H;
    try discriminate H.
  all: match goal with
       | |- exists _ _, String ?a (String ?b EmptyString) = _ /\ _ =>
           exists [a; b], []
       | |- exists _ _, String ?a (String ?b (String ?c EmptyString)) = _ /\ _ =>
           exists [a; b; c], []
       | |- exists _ _,
             String ?a (String ?b (String _ (String ?d (String ?e EmptyString)))) = _
             /\ _ =>
           exists [a; b], ["-"%char; d; e]
       | |- exists _ _,
             String ?a (String ?b (String ?c
               (String _ (String ?e (String ?f EmptyString))))) = _
             /\ _ =>
           exists [a; b; c], ["-"%char; e; f]
       end.
  all: repeat split; eauto 7.
Qed.

Lemma valid_language_complete (s : string) :
  LanguageTag s -> valid_language s = true.
Proof.
  intros (primary & suffix & -> & Hletters & Hlen & Hsuffix).
  unfold valid_language, re.fullmatch, language_pattern.
  destruct primary as [| c1 [| c2 [| c3 [| c4 primary]]]];
    cbn [List.length] in Hlen; try lia;
    repeat match goal with
           | H : Forall is_letter (_ :: _) |- _ =>
               let L := fresh "L" in
               inversion H as [| ? ? L ?]; subst; clear H;
               apply in_letters_iff in L
           end;
    destruct Hsuffix as [-> | (c & d & -> & Lc & Ld)];
    try (apply in_letters_iff in Lc; apply in_letters_iff in Ld);
    cbn -[re.in_charset Ascii.eqb];
    repeat match goal with
           | L : re.in_charset letters _ = true |- _ => rewrite L; clear L
           end;
    reflexivity.
Qed.

(** ** The orchestrator *)

Section OrchestratorProperties.

Variable wave_open : string -> result wave_read.
Variable model : Type.
Variable whisper_load_model : string -> result model.
Variable transcribe_text : model -> list Q -> string -> result string.
Variable strip : string -> string.

Local Abbreviation run := (main wave_open model whisper_load_model transcribe_text strip).

Lemma invalid_language_is_given (argv : list string) :
  valid_language (language_argument argv) = false ->
  3 < len argv /\ language_argument argv = nth 3 argv EmptyString.
Proof.
  unfold language_argument.
  destruct (Z.gtb_spec (len argv) 3) as [Hlong | Hshort]; [auto |].
  intros Hen. discriminate Hen.
Qed.

Lemma main_invalid_language (argv : list string) :
  valid_language (language_argument argv) = false ->
  run argv =
  ([Stderr ("Invalid language code: " ++ language_argument argv)%string], SysExit 1).
Proof.
  intros Hbad. destruct (invalid_language_is_given argv Hbad) as [Hlen Harg].
  rewrite Harg in *. unfold main.
  destruct (Z.ltb_spec (len argv) 2); [lia |].
  destruct (Z.gtb_spec (len argv) 3); [| lia].
  rewrite Hbad. reflexivity.
Qed.

(** With a valid language the first thing a run does is to open the
    audio file. *)
Lemma main_valid_language_opens (argv : list string) :
  2 <= len argv ->
  valid_language (language_argument argv) = true ->
  hd_error (fst (run argv)) = Some (WaveOpen (nth 1 argv EmptyString)).
Proof.
  intros Hlen Hgood. unfold main. unfold language_argument in Hgood.
  destruct (Z.ltb_spec (len argv) 2); [lia |].
  rewrite Hgood. cbn [negb].
  destruct (load_wav wave_open (nth 1 argv EmptyString)); [| reflexivity].
  destruct (whisper_load_model _); [| reflexivity].
  destruct (transcribe_text _ _ _); reflexivity.
Qed.

(** C5.  The language validator accepts a string exactly when the whole
    of it matches [A-Za-z]{2,3}(-[A-Za-z]{2})?, that is when it is a
    [LanguageTag]; "en", "eng" and "zh-CN" are accepted, "e", "english",
    "en_US" and the empty string are rejected; and a rejected language
    stops the run with exit status 1, no transcription being asked for
    in any language, "en" included. *)
Theorem language_validation :
  (forall s : string, valid_language s = true <-> LanguageTag s)
  /\ valid_language "en" = true
  /\ valid_language "eng" = true
  /\ valid_language "zh-CN" = true
  /\ valid_language "e" = false
  /\ valid_language "english" = false
  /\ valid_language "en_US" = false
  /\ valid_language EmptyString = false
  /\ (forall argv : list string,
         valid_language (language_argument argv) = false ->
         snd (run argv) = SysExit 1
         /\ forall language : string, ~ In (Transcribe language) (fst (run argv))).
Proof.
  split.
  { intros s. split; [apply valid_language_sound | apply valid_language_complete]. }
  do 7 (split; [reflexivity |]).
  intros argv Hbad. rewrite main_invalid_language by assumption.
  split; [reflexivity |].
  intros language [E | []]. discriminate E.
Qed.

(** C6.  A run whose language tag fails the validator ends with a
    non-zero exit status having done nothing but print the error
    message: the audio file is not opened and the model is not
    loaded. *)
Theorem invalid_language_fails_first (argv : list string) :
  valid_language (language_argument argv) = false ->
  exit_status (snd (run argv)) <> 0
  /\ (forall path : string, ~ In (WaveOpen path) (fst (run argv)))
  /\ (forall name : string, ~ In (LoadModel name) (fst (run argv)))
  /\ fst (run argv)
     = [Stderr ("Invalid language code: " ++ language_argument argv)%string].
Proof.
  intros Hbad. rewrite main_invalid_language by assumption.
  cbn [fst snd exit_status].
  split; [discriminate |].
  split; [intros path [E | []]; discriminate E |].
  split; [intros name [E | []]; discriminate E |].
  reflexivity.
Qed.

End OrchestratorProperties.

Lemma language_validation_witness :
  valid_language
    (language_argument ["transcribe.py"; "a.wav"; "base"; "en_US"]%string) = false
  /\ snd (main (fun path => Raise (WaveOpenError path)) unit
               (fun _ => Ok tt) (fun _ _ _ => Ok "text"%string) (fun s => s)
               ["transcribe.py"; "a.wav"; "base"; "en_US"]%string)
     = SysExit 1.
Proof.
  split; [reflexivity |].
  apply (proj2 (proj2 (proj2 (proj2 (proj2 (proj2 (proj2 (proj2
           (language_validation (fun path => Raise (WaveOpenError path)) unit
              (fun _ => Ok tt) (fun _ _ _ => Ok "text"%string) (fun s => s))))))))))
    with (argv := ["transcribe.py"; "a.wav"; "base"; "en_US"]%string).
  reflexivity.
Defined.

Lemma invalid_language_fails_first_witness :
  valid_language
    (language_argument ["transcribe.py"; "a.wav"; "base"; "english"]%string) = false
  /\ exit_status
       (snd (main (fun path => Raise (WaveOpenError path)) unit
                  (fun _ => Ok tt) (fun _ _ _ => Ok "text"%string) (fun s => s)
                  ["transcribe.py"; "a.wav"; "base"; "english"]%string)) <> 0.
Proof.
  split; [reflexivity |].
  apply (invalid_language_fails_first (fun path => Raise (WaveOpenError path)) unit
           (fun _ => Ok tt) (fun _ _ _ => Ok "text"%string) (fun s => s)
           ["transcribe.py"; "a.wav"; "base"; "english"]%string).
  reflexivity.
Defined.

(** ** Worked scenarios *)

(** Four frames of 16-bit mono silence at 8000 Hz become eight samples
    of silence at 16000 Hz. *)
Example silence_is_upsampled :
  exists out : list Q,
    decode_wav {| getframerate := 8000; getnchannels := 1; getsampwidth := 2;
                  readframes := repeat x00 8 |} = Ok out
    /\ len out = 8
    /\ Forall (fun q => (q == 0)%Q) out.
Proof.
  eexists. split; [vm_compute; reflexivity |].
  split; [reflexivity |].
  repeat constructor.
Qed.

(** Seven stereo frames at 44100 Hz whose channels are the constants
    16384 and -16384 mix to silence, and are resampled to
    floor(7 * 16000 / 44100) = 2 samples of silence. *)
Example opposite_channels_cancel :
  exists out : list Q,
    decode_wav {| getframerate := 44100; getnchannels := 2; getsampwidth := 2;
                  readframes := List.concat (repeat [x00; x40; x00; xc0] 7) |} = Ok out
    /\ len out = 2
    /\ Forall (fun q => (q == 0)%Q) out.
Proof.
  eexists. split; [vm_compute; reflexivity |].
  split; [reflexivity |].
  repeat constructor.
Qed.

(** One stereo frame of 32-bit samples 2^24 and 1: the sum 2^24 + 1
    over 2^31 is not a binary32 number and is rounded to 2^24 over 2^31,
    so that the mono sample is 1 / 256 and not 16777217 / 2^32. *)
Example stereo_mean_is_rounded :
  exists out : list Q,
    decode_wav {| getframerate := 16000; getnchannels := 2; getsampwidth := 4;
                  readframes := [x00; x00; x00; x01; x01; x00; x00; x00] |} = Ok out
    /\ Forall2 Qeq out [1 # 256]%Q.
Proof.
  eexists. split; [vm_compute; reflexivity |].
  repeat constructor.
Qed.

(** Three 16-bit samples 16384, 0, -16384 at 484 Hz become 99 samples.
    Position 49 is 49 times the rounded step 2 / 98, just below index 1,
    and output sample 49 is 2^-54 where the clip has 0. *)
Example middle_sample_is_missed :
  exists out : list Q,
    decode_wav {| getframerate := 484; getnchannels := 1; getsampwidth := 2;
                  readframes := [x00; x40; x00; x00; x00; xc0] |} = Ok out
    /\ len out = 99
    /\ exists v : Q, nth_error out 49 = Some v /\ (v == 1 # 18014398509481984)%Q.
Proof.
  eexists. split; [vm_compute; reflexivity |].
  split; [reflexivity |].
  eexists. split; [reflexivity | reflexivity].
Qed.

(** A three-byte width is refused before any sample is read. *)
Example width_three_is_refused :
  decode_wav {| getframerate := 16000; getnchannels := 1; getsampwidth := 3;
                readframes := [x00; x00; x00] |} = Raise (UnsupportedSampleWidth 3).
Proof. reflexivity. Qed.

(** * Further properties of the pipeline *)

(** ** End points and very short clips *)

(** X3.  Resampling keeps the two ends of a clip: the first output
    sample is the first input sample and, when there are at least two
    output samples, the last output sample is the last input sample,
    each as a binary32 number; so they are the input samples themselves
    for a clip of binary32 samples. *)
Theorem resample_keeps_end_points (rate : Z) (audio : list Q) :
  0 < rate -> rate <> 16000 -> audio <> [] ->
  exists out : list Q,
    resample rate audio = Ok out
    /\ (0 < len out ->
        nth_error out 0 = option_map np.float32 (nth_error audio 0))
    /\ (1 < len out ->
        nth_error out (Z.to_nat (len out - 1))
        = option_map np.float32 (nth_error audio (Z.to_nat (len audio - 1))))
    /\ (Forall is_float32 audio ->
        (0 < len out -> nth_error out 0 = nth_error audio 0)
        /\ (1 < len out ->
            nth_error out (Z.to_nat (len out - 1))
            = nth_error audio (Z.to_nat (len audio - 1)))).
Proof.
  intros Hrate Hne16 Hne.
  assert (Hn : 1 <= len audio).
  { unfold len. destruct audio; [contradiction | cbn [List.length]; lia]. }
  destruct (resample_spec rate audio Hrate Hne16 Hne)
    as (positions & _ & Hout & Hlen & Hall).
  eexists. split; [exact Hout |]. rewrite resample_out_length, Hlen.
  assert (Hfirst : 0 < len audio * 16000 / rate ->
                   nth_error (map (fun x => np.float32 (interpolates audio x)) positions) 0
                   = option_map np.float32 (nth_error audio 0)).
  { intros Hpos. destruct (Hall 0 ltac:(lia)) as (x & Hx & _ & Hzero & _).
    change (nth_error positions (Z.to_nat 0)) with (nth_error positions 0) in Hx.
    rewrite nth_error_map, Hx. cbn [option_map].
    apply (resample_on_index audio x 0); [lia | apply Hzero; reflexivity]. }
  assert (Hlast : 1 < len audio * 16000 / rate ->
                  nth_error (map (fun x => np.float32 (interpolates audio x)) positions)
                    (Z.to_nat (len audio * 16000 / rate - 1))
                  = option_map np.float32 (nth_error audio (Z.to_nat (len audio - 1)))).
  { intros Hmany.
    destruct (Hall (len audio * 16000 / rate - 1) ltac:(lia)) as (x & Hx & _ & _ & Hstop).
    rewrite nth_error_map, Hx. cbn [option_map].
    apply (resample_on_index audio x (len audio - 1)); [lia |].
    rewrite (Hstop Hmany eq_refl). reflexivity. }
  split; [exact Hfirst |]. split; [exact Hlast |].
  intros Htyped. split.
  - intros Hpos. rewrite (Hfirst Hpos). apply typed_item, Htyped.
  - intros Hmany. rewrite (Hlast Hmany). apply typed_item, Htyped.
Qed.

Lemma resample_keeps_end_points_witness :
  (0 < 8000 /\ 8000 <> 16000 /\ [3; 1; 4]%Q <> [])
  /\ exists out : list Q,
      resample 8000 [3; 1; 4]%Q = Ok out
      /\ (0 < len out -> nth_error out 0 = nth_error [3; 1; 4]%Q 0)
      /\ (1 < len out ->
          nth_error out (Z.to_nat (len out - 1))
          = nth_error [3; 1; 4]%Q (Z.to_nat (len [3; 1; 4]%Q - 1))).
Proof.
  split; [repeat split; [lia | discriminate] |].
  destruct (resample_keeps_end_points 8000 [3; 1; 4]%Q)
    as (out & Hout & _ & _ & Htyped); [lia | lia | discriminate |].
  exists out. split; [exact Hout |].
  apply Htyped. repeat constructor; vm_compute; reflexivity.
Defined.

(** X4.  A clip too short for a single output sample, one with
    L * 16000 < R1, is resampled to the empty sequence without any
    error, whereas the empty clip makes the resampler raise. *)
Theorem resample_short_clip_vanishes (rate : Z) (audio : list Q) :
  audio <> [] -> len audio * 16000 < rate ->
  resample rate audio = Ok [] /\ resample rate [] = Raise EmptySamplePoints.
Proof.
  intros Hne Hshort.
  assert (Hn : 1 <= len audio).
  { unfold len. destruct audio; [contradiction | cbn [List.length]; lia]. }
  split.
  - destruct (resample_spec rate audio ltac:(lia) ltac:(lia) Hne)
      as (positions & _ & Hout & Hlen & _).
    rewrite Z.div_small in Hlen by lia.
    destruct positions; [exact Hout | unfold len in Hlen; cbn [List.length] in Hlen; lia].
  - unfold resample, int_of_quotient.
    destruct (Z.eqb_spec rate 16000); [lia |]. cbn [negb].
    destruct (Z.eqb_spec rate 0); [lia |].
    change (len (@nil Q) * 16000) with 0. rewrite Z.quot_0_l by lia. reflexivity.
Qed.

Lemma resample_short_clip_vanishes_witness :
  ([1; 2]%Q <> [] /\ len [1; 2]%Q * 16000 < 44100)
  /\ resample 44100 [1; 2]%Q = Ok []
  /\ resample 44100 [] = Raise EmptySamplePoints.
Proof.
  split; [split; [discriminate | reflexivity] |].
  apply (resample_short_clip_vanishes 44100 [1; 2]%Q); [discriminate | reflexivity].
Defined.

(** ** The whole of [load_wav] *)

Lemma normalize_length (width : Z) (raw : list byte) (audio : list Q) :
  normalize width raw = Ok audio -> len audio = len raw / width.
Proof.
  intros Hok. destruct (normalize_ok_inv _ _ _ Hok) as (Hw & Hmod & ->).
  assert (Hpos : 0 < width) by lia.
  unfold len at 1.
  rewrite length_map,
    (rows_length (Z.to_nat width) ltac:(lia) _ (List.length raw) raw (Nat.le_refl _)
       (multiple_of_width raw width Hpos Hmod)).
  rewrite Z2Nat.id; [reflexivity |]. apply Z.div_pos; unfold len; lia.
Qed.

Lemma mix_length (channels : Z) (audio mono : list Q) :
  mix_to_mono channels audio = Ok mono ->
  len mono = if channels >? 1 then len audio / channels else len audio.
Proof.
  intros Hmix. destruct (Z.gtb_spec channels 1) as [Hc | Hc].
  - destruct (Z.eq_dec (len audio mod channels) 0) as [Hmod | Hmod].
    + rewrite mix_aligned in Hmix by lia. injection Hmix as <-.
      unfold len at 1, np.mean_axis1.
      rewrite length_map,
        (rows_length (Z.to_nat channels) ltac:(lia) _ (List.length audio) audio
           (Nat.le_refl _) (multiple_of_width audio channels ltac:(lia) Hmod)).
      rewrite Z2Nat.id; [reflexivity |]. apply Z.div_pos; unfold len; lia.
    + rewrite mix_misaligned in Hmix by lia. discriminate.
  - unfold mix_to_mono in Hmix. destruct (Z.gtb_spec channels 1); [lia |].
    injection Hmix as <-. reflexivity.
Qed.

Lemma resample_empty (rate : Z) :
  rate <> 16000 -> exists e : exn, resample rate [] = Raise e.
Proof.
  intros Hne16. unfold resample, int_of_quotient.
  destruct (Z.eqb_spec rate 16000); [contradiction |]. cbn [negb].
  destruct (Z.eqb_spec rate 0); [eexists; reflexivity |].
  change (len (@nil Q) * 16000) with 0. rewrite Z.quot_0_l by assumption.
  eexists. reflexivity.
Qed.

Lemma resample_length (rate : Z) (audio out : list Q) :
  0 < rate -> resample rate audio = Ok out ->
  len out = if rate =? 16000 then len audio else len audio * 16000 / rate.
Proof.
  intros Hrate Hres. destruct (Z.eqb_spec rate 16000) as [-> | Hne16].
  - unfold resample in Hres. cbn in Hres. injection Hres as <-. reflexivity.
  - destruct audio as [| a audio].
    + destruct (resample_empty rate Hne16) as [e He]. congruence.
    + destruct (resample_spec rate (a :: audio) Hrate Hne16 ltac:(discriminate))
        as (positions & _ & Hout & Hlen & _).
      rewrite Hout in Hres. injection Hres as <-.
      rewrite resample_out_length. exact Hlen.
Qed.

(** X5.  The length of what [load_wav] returns, for a positive frame
    rate: the number of frames of the file (its samples, divided by the
    channel count when there are several channels) at 16000 Hz, and
    floor(frames * 16000 / rate) at any other rate. *)
Theorem load_wav_length (wf : wave_read) (out : list Q) :
  0 < getframerate wf ->
  decode_wav wf = Ok out ->
  len out =
  let samples := len (readframes wf) / getsampwidth wf in
  let frames := if getnchannels wf >? 1 then samples / getnchannels wf else samples in
  if getframerate wf =? 16000 then frames else frames * 16000 / getframerate wf.
Proof.
  unfold decode_wav. intros Hrate Hok.
  destruct (normalize (getsampwidth wf) (readframes wf)) as [audio |] eqn:Hnorm;
    [| discriminate]. cbn [bind] in Hok.
  destruct (mix_to_mono (getnchannels wf) audio) as [mono |] eqn:Hmix;
    [| discriminate]. cbn [bind] in Hok.
  rewrite (resample_length _ _ _ Hrate Hok), (mix_length _ _ _ Hmix),
    (normalize_length _ _ _ Hnorm).
  reflexivity.
Qed.

Lemma load_wav_length_witness :
  exists out : list Q,
    decode_wav {| getframerate := 48000; getnchannels := 2; getsampwidth := 2;
                  readframes := List.concat (repeat [x00; x40; x00; xc0] 7) |} = Ok out
    /\ len out = 2.
Proof.
  eexists. split; [vm_compute; reflexivity |].
  apply (load_wav_length
           {| getframerate := 48000; getnchannels := 2; getsampwidth := 2;
              readframes := List.concat (repeat [x00; x40; x00; xc0] 7) |});
    [reflexivity | vm_compute; reflexivity].
Defined.

Lemma resample_ok_iff (rate : Z) (audio : list Q) :
  0 <= rate ->
  (exists out : list Q, resample rate audio = Ok out)
  <-> rate = 16000 \/ (rate <> 0 /\ audio <> []).
Proof.
  intros Hrate. split.
  - intros [out Hout].
    destruct (Z.eq_dec rate 16000) as [| Hne16]; [left; assumption | right].
    split.
    + intros ->. unfold resample in Hout. cbn in Hout. discriminate.
    + intros ->. destruct (resample_empty rate Hne16) as [e He]. congruence.
  - intros [-> | [Hnz Hne]].
    + exists audio. reflexivity.
    + destruct (Z.eq_dec rate 16000) as [-> | Hne16]; [exists audio; reflexivity |].
      destruct (resample_spec rate audio ltac:(lia) Hne16 Hne)
        as (positions & _ & Hout & _).
      eexists. exact Hout.
Qed.

(** X6.  When [load_wav] succeeds, for a frame rate that is not
    negative: exactly when the sample width is 1, 2 or 4, the frame data
    is a whole number of samples, the samples are a whole number of
    frames if there are several channels, and the rate is 16000 or else
    is not zero with at least one byte of frame data. *)
Theorem load_wav_succeeds_iff (wf : wave_read) :
  0 <= getframerate wf ->
  (exists out : list Q, decode_wav wf = Ok out)
  <-> (getsampwidth wf = 1 \/ getsampwidth wf = 2 \/ getsampwidth wf = 4)
      /\ len (readframes wf) mod getsampwidth wf = 0
      /\ (getnchannels wf <= 1
          \/ (len (readframes wf) / getsampwidth wf) mod getnchannels wf = 0)
      /\ (getframerate wf = 16000
          \/ (getframerate wf <> 0 /\ readframes wf <> [])).
Proof.
  intros Hrate. unfold decode_wav.
  set (width := getsampwidth wf). set (raw := readframes wf).
  set (channels := getnchannels wf). set (rate := getframerate wf) in *.
  destruct (supported_or_not width) as [Hw | (H1 & H2 & H4)].
  2: { rewrite normalize_unsupported by assumption. cbn [bind].
       split; [intros [out H]; discriminate H | intros (Hw & _); lia]. }
  destruct (Z.eq_dec (len raw mod width) 0) as [Hmod | Hmod].
  2: { rewrite normalize_misaligned by assumption. cbn [bind].
       split; [intros [out H]; discriminate H | intros (_ & Hm & _); contradiction]. }
  destruct (normalize width raw) as [audio |] eqn:Hnorm.
  2: { rewrite normalize_rows in Hnorm by assumption. discriminate. }
  cbn [bind]. pose proof (normalize_length _ _ _ Hnorm) as Haudio.
  assert (Hraw : len raw = width * len audio).
  { rewrite Haudio. pose proof (Z.div_mod (len raw) width ltac:(lia)). lia. }
  assert (Hlen0 : forall l : list Q, l <> [] <-> 0 < len l).
  { intros l. unfold len. destruct l; cbn [List.length]; split; intros H;
      try lia; try discriminate. contradiction. }
  assert (Hraw0 : raw <> [] <-> 0 < len raw).
  { unfold len. destruct raw; cbn [List.length]; split; intros H;
      try lia; try discriminate. contradiction. }
  destruct (Z.gtb_spec channels 1) as [Hc | Hc].
  - destruct (Z.eq_dec (len audio mod channels) 0) as [Hcm | Hcm].
    + destruct (mix_to_mono channels audio) as [mono |] eqn:Hmix.
      2: { rewrite mix_aligned in Hmix by lia. discriminate. }
      cbn [bind]. pose proof (mix_length _ _ _ Hmix) as Hmono.
      destruct (Z.gtb_spec channels 1); [| lia].
      assert (Hsplit : len audio = channels * len mono).
      { rewrite Hmono. pose proof (Z.div_mod (len audio) channels ltac:(lia)). lia. }
      rewrite (resample_ok_iff rate mono Hrate), Hlen0, Hraw0, <- Haudio.
      split.
      * intros Hr. repeat split; [exact Hw | exact Hmod | right; exact Hcm |].
        destruct Hr as [-> | [Hnz Hpos]]; [left; reflexivity | right; split; [exact Hnz | nia]].
      * intros (_ & _ & _ & [-> | [Hnz Hpos]]); [left; reflexivity | right].
        split; [exact Hnz | nia].
    + rewrite mix_misaligned by lia. cbn [bind]. rewrite <- Haudio.
      split; [intros [out H]; discriminate H | intros (_ & _ & [Hle | Hz] & _); lia].
  - assert (Hmix : mix_to_mono channels audio = Ok audio).
    { unfold mix_to_mono. destruct (Z.gtb_spec channels 1); [lia | reflexivity]. }
    rewrite Hmix. cbn [bind].
    rewrite (resample_ok_iff rate audio Hrate), Hlen0, Hraw0.
    split.
    + intros Hr. repeat split; [exact Hw | exact Hmod | left; lia |].
      destruct Hr as [-> | [Hnz Hpos]]; [left; reflexivity | right; split; [exact Hnz | nia]].
    + intros (_ & _ & _ & [-> | [Hnz Hpos]]); [left; reflexivity | right].
      split; [exact Hnz | nia].
Qed.

Lemma load_wav_succeeds_iff_witness :
  0 <= 44100
  /\ ((exists out : list Q,
          decode_wav {| getframerate := 44100; getnchannels := 2; getsampwidth := 2;
                        readframes := [x00; x40; x00; xc0; x01] |} = Ok out)
      <-> (2 = 1 \/ 2 = 2 \/ 2 = 4)
          /\ len [x00; x40; x00; xc0; x01] mod 2 = 0
          /\ (2 <= 1 \/ (len [x00; x40; x00; xc0; x01] / 2) mod 2 = 0)
          /\ (44100 = 16000 \/ (44100 <> 0 /\ [x00; x40; x00; xc0; x01] <> []))).
Proof.
  split; [lia |].
  apply (load_wav_succeeds_iff
           {| getframerate := 44100; getnchannels := 2; getsampwidth := 2;
              readframes := [x00; x40; x00; xc0; x01] |}).
  cbn [getframerate]. lia.
Defined.

(** ** The format of the samples *)

Lemma round_to_float32_significand (n : Z) :
  exists m e : Z,
    Z.abs m < 2 ^ 24 /\ 0 <= e /\ np.round_to_float32 n = m * 2 ^ e.
Proof.
  unfold np.round_to_float32.
  destruct (Z.ltb_spec (Z.abs n) (2 ^ 24)) as [Hs | Hb].
  { exists n, 0. split; [exact Hs |]. split; [lia |]. rewrite Z.pow_0_r. lia. }
  set (a := Z.abs n) in *.
  assert (Ha : 0 < a) by lia.
  destruct (Z.log2_spec a Ha) as [Hlo Hhi].
  assert (Hk : 24 <= Z.log2 a) by (apply Z.log2_le_pow2; lia).
  remember (Z.log2 a) as k eqn:Ek.
  set (e := k - 23).
  assert (He : 1 <= e) by (subst e; lia).
  assert (Hpe : 0 < 2 ^ e) by (apply Z.pow_pos_nonneg; lia).
  assert (Hsplit : 2 ^ Z.succ k = 2 ^ 24 * 2 ^ e).
  { subst e. rewrite <- Z.pow_add_r by lia. f_equal. lia. }
  pose proof (Z.div_mod a (2 ^ e) ltac:(lia)) as Hdm.
  pose proof (Z.mod_pos_bound a (2 ^ e) Hpe) as Hr.
  set (q := a / 2 ^ e) in *. set (r := a mod 2 ^ e) in *.
  assert (Hq : 0 <= q < 2 ^ 24).
  { split; [subst q; apply Z.div_pos; lia | nia]. }
  set (q' := if r <? 2 ^ (e - 1) then q
             else if 2 ^ (e - 1) <? r then q + 1
             else if Z.even q then q else q + 1).
  assert (Hq' : 0 <= q' <= 2 ^ 24).
  { subst q'. destruct (r <? 2 ^ (e - 1)); [lia |].
    destruct (2 ^ (e - 1) <? r); [lia |]. destruct (Z.even q); lia. }
  assert (Hsgn : Z.abs (Z.sgn n) <= 1) by (destruct n; cbn; lia).
  destruct (Z.eq_dec q' (2 ^ 24)) as [Efull | Nfull].
  - exists (Z.sgn n * 2 ^ 23), (e + 1). split; [| split].
    + rewrite Z.abs_mul. change (Z.abs (2 ^ 23)) with (2 ^ 23). lia.
    + lia.
    + rewrite Efull, Z.pow_add_r by lia. change (2 ^ 24) with (2 ^ 23 * 2 ^ 1). ring.
  - exists (Z.sgn n * q'), e. split; [| split].
    + rewrite Z.abs_mul, (Z.abs_eq q') by lia. nia.
    + lia.
    + ring.
Qed.

Lemma Qpower_2_neg (q : Q) (k : positive) :
  (q / inject_Z (2 ^ Z.pos k) == q * 2 ^ Z.neg k)%Q.
Proof.
  rewrite Qpower_2_inject by lia.
  change (Z.neg k) with (- Z.pos k). rewrite Qpower_opp. reflexivity.
Qed.

(** Each sample of a supported width is a binary32 number after
    normalisation. *)
Lemma sample_value_is_float32 (width : Z) (bytes : list byte) :
  width = 1 \/ width = 2 \/ width = 4 ->
  len bytes = width ->
  representable 24 (-149) (sample_value width bytes).
Proof.
  intros Hw Hlen. pose proof (le_unsigned_range bytes) as Hu.
  unfold len in Hlen. rewrite Hlen in Hu. unfold sample_value.
  destruct Hw as [-> | [-> | ->]]; cbn [Z.eqb Pos.eqb].
  - unfold np.float32_of_Z. rewrite round_to_float32_small by lia.
    change (256 ^ 1) with 256 in Hu.
    exists (np.le_unsigned bytes - 128), (-7). split; [lia |]. split; [lia |].
    rewrite <- (Qpower_2_neg _ 7). unfold Z.sub. rewrite inject_Z_plus. reflexivity.
  - change (256 ^ 2) with (2 ^ 16) in Hu.
    pose proof (to_signed_range 16 _ ltac:(lia) Hu) as Hs.
    change (2 ^ (16 - 1)) with 32768 in Hs.
    unfold np.float32_of_Z. rewrite round_to_float32_small by lia.
    exists (np.to_signed 16 (np.le_unsigned bytes)), (-15).
    split; [lia |]. split; [lia |].
    rewrite <- (Qpower_2_neg _ 15). reflexivity.
  - unfold np.float32_of_Z.
    destruct (round_to_float32_significand (np.to_signed 32 (np.le_unsigned bytes)))
      as (m & e & Hm & He & Hround).
    rewrite Hround. exists m, (e - 31). split; [exact Hm |]. split; [lia |].
    rewrite inject_Z_mult, Qpower_2_inject, Qpower_2_minus by exact He.
    setoid_replace (2 ^ 31)%Q with 2147483648%Q by reflexivity.
    field.
Qed.

Lemma normalize_is_float32 (width : Z) (raw : list byte) (audio : list Q) :
  normalize width raw = Ok audio -> Forall is_float32 audio.
Proof.
  intros Hok. destruct (normalize_ok_inv _ _ _ Hok) as (Hw & Hmod & ->).
  assert (Hpos : 0 < width) by lia.
  pose proof (rows_widths (Z.to_nat width) ltac:(lia) _ (List.length raw) raw
                (Nat.le_refl _) (multiple_of_width raw width Hpos Hmod)) as Hrows.
  apply Forall_map. eapply Forall_impl; [| exact Hrows].
  intros row Hrow. apply is_float32_iff, sample_value_is_float32; [assumption |].
  unfold len. rewrite Hrow. lia.
Qed.

Lemma mix_is_float32 (channels : Z) (audio mono : list Q) :
  mix_to_mono channels audio = Ok mono ->
  Forall is_float32 audio -> Forall is_float32 mono.
Proof.
  intros Hmix Htyped. unfold mix_to_mono in Hmix.
  destruct (channels >? 1).
  - destruct (np.reshape audio channels) as [m |]; [| discriminate].
    cbn [bind] in Hmix. injection Hmix as <-.
    unfold np.mean_axis1. apply Forall_map, Forall_forall.
    intros row _. apply float32_is_float32.
  - injection Hmix as <-. exact Htyped.
Qed.

Lemma resample_is_float32 (rate : Z) (audio out : list Q) :
  resample rate audio = Ok out ->
  Forall is_float32 audio -> Forall is_float32 out.
Proof.
  intros Hres Htyped. unfold resample in Hres.
  destruct (negb (rate =? 16000)).
  - destruct (int_of_quotient (len audio * 16000) rate) as [target_len |];
      [| discriminate]. cbn [bind] in Hres.
    destruct (np.linspace 0 (inject_Z (len audio - 1)) target_len) as [x |];
      [| discriminate]. cbn [bind] in Hres.
    destruct (np.interp x (np.arange (len audio)) audio) as [y |];
      [| discriminate]. cbn [bind] in Hres. injection Hres as <-.
    unfold np.astype_float32. apply Forall_map, Forall_forall.
    intros v _. apply float32_is_float32.
  - injection Hres as <-. exact Htyped.
Qed.

(** X22.  The samples that [load_wav] returns are binary32 numbers,
    whatever the file: each is a significand of at most 24 bits times a
    power of two that is no smaller than 2^-149, and storing it in
    binary32 again leaves it as it is. *)
Theorem load_wav_returns_float32 (wf : wave_read) (out : list Q) :
  decode_wav wf = Ok out ->
  Forall (representable 24 (-149)) out /\ Forall is_float32 out.
Proof.
  unfold decode_wav. intros Hok.
  destruct (normalize (getsampwidth wf) (readframes wf)) as [audio |] eqn:Hnorm;
    [| discriminate]. cbn [bind] in Hok.
  destruct (mix_to_mono (getnchannels wf) audio) as [mono |] eqn:Hmix;
    [| discriminate]. cbn [bind] in Hok.
  assert (Htyped : Forall is_float32 out).
  { apply (resample_is_float32 _ _ _ Hok), (mix_is_float32 _ _ _ Hmix).
    exact (normalize_is_float32 _ _ _ Hnorm). }
  split; [| exact Htyped].
  eapply Forall_impl; [| exact Htyped]. intros q. apply is_float32_iff.
Qed.

Lemma load_wav_returns_float32_witness :
  exists out : list Q,
    decode_wav {| getframerate := 44100; getnchannels := 2; getsampwidth := 2;
                  readframes := List.concat (repeat [x00; x40; x01; xc0] 7) |} = Ok out
    /\ Forall (representable 24 (-149)) out /\ Forall is_float32 out.
Proof.
  eexists. split; [vm_compute; reflexivity |].
  apply (load_wav_returns_float32
           {| getframerate := 44100; getnchannels := 2; getsampwidth := 2;
              readframes := List.concat (repeat [x00; x40; x01; xc0] 7) |}).
  vm_compute. reflexivity.
Defined.

(** ** Stereo files of 8-bit and 16-bit samples *)

Lemma skipn_nth_error_cons {A : Type} (l : list A) :
  forall (k : nat) (a : A),
    nth_error l k = Some a -> skipn k l = a :: skipn (S k) l.
Proof.
  induction l as [| x l IH]; intros [| k] a Hk; try discriminate.
  - injection Hk as ->. reflexivity.
  - cbn [nth_error] in Hk. change (skipn (S k) (x :: l)) with (skipn k l).
    rewrite (IH k a Hk). reflexivity.
Qed.

Lemma group_of_two (audio : list Q) (i : nat) (a b : Q) :
  nth_error audio (2 * i) = Some a ->
  nth_error audio (2 * i + 1) = Some b ->
  group 2 audio i = [a; b].
Proof.
  intros Ha Hb. unfold group. change (Z.to_nat 2) with 2%nat.
  replace (i * 2)%nat with (2 * i)%nat by lia.
  rewrite (skipn_nth_error_cons audio _ a Ha).
  replace (S (2 * i)) with (2 * i + 1)%nat by lia.
  rewrite (skipn_nth_error_cons audio _ b Hb). reflexivity.
Qed.

(** A sample of one or two bytes is a multiple of 2^-15 of at most 15
    bits. *)
Lemma sample_value_short (width : Z) (bytes : list byte) :
  width = 1 \/ width = 2 ->
  len bytes = width ->
  exists m : Z,
    Z.abs m <= 2 ^ 15 /\ (sample_value width bytes == inject_Z m * 2 ^ (- 15))%Q.
Proof.
  intros Hw Hlen. pose proof (le_unsigned_range bytes) as Hu.
  unfold len in Hlen. rewrite Hlen in Hu. unfold sample_value.
  destruct Hw as [-> | ->]; cbn [Z.eqb Pos.eqb].
  - unfold np.float32_of_Z. rewrite round_to_float32_small by lia.
    change (256 ^ 1) with 256 in Hu.
    exists ((np.le_unsigned bytes - 128) * 256). split; [lia |].
    rewrite inject_Z_mult. unfold Z.sub. rewrite inject_Z_plus.
    change (2 ^ (- 15))%Q with (1 # 32768)%Q.
    change (inject_Z (- (128))) with (- (128))%Q. change (inject_Z 256) with 256%Q.
    field.
  - change (256 ^ 2) with (2 ^ 16) in Hu.
    pose proof (to_signed_range 16 _ ltac:(lia) Hu) as Hs.
    change (2 ^ (16 - 1)) with 32768 in Hs.
    unfold np.float32_of_Z. rewrite round_to_float32_small by lia.
    exists (np.to_signed 16 (np.le_unsigned bytes)). split; [lia |].
    change (2 ^ (- 15))%Q with (1 # 32768)%Q. field.
Qed.

Lemma normalize_short (width : Z) (raw : list byte) (audio : list Q) :
  width = 1 \/ width = 2 ->
  normalize width raw = Ok audio ->
  Forall (fun q => exists m : Z,
              Z.abs m <= 2 ^ 15 /\ (q == inject_Z m * 2 ^ (- 15))%Q) audio.
Proof.
  intros Hw Hok. destruct (normalize_ok_inv _ _ _ Hok) as (_ & Hmod & ->).
  assert (Hpos : 0 < width) by lia.
  pose proof (rows_widths (Z.to_nat width) ltac:(lia) _ (List.length raw) raw
                (Nat.le_refl _) (multiple_of_width raw width Hpos Hmod)) as Hrows.
  apply Forall_map. eapply Forall_impl; [| exact Hrows].
  intros row Hrow. apply sample_value_short; [assumption |].
  unfold len. rewrite Hrow. lia.
Qed.

(** The sum and the mean of two such samples are binary32 numbers. *)
Lemma short_sum_is_exact (a b : Q) (m n : Z) :
  Z.abs m <= 2 ^ 15 -> (a == inject_Z m * 2 ^ (- 15))%Q ->
  Z.abs n <= 2 ^ 15 -> (b == inject_Z n * 2 ^ (- 15))%Q ->
  is_float32 (a + b) /\ is_float32 ((a + b) / 2).
Proof.
  intros Hm Ha Hn Hb. split; apply is_float32_iff.
  - exists (m + n), (- 15). split; [lia |]. split; [lia |].
    rewrite Ha, Hb, inject_Z_plus. ring.
  - exists (m + n), (- 16). split; [lia |]. split; [lia |].
    rewrite Ha, Hb, inject_Z_plus.
    change (2 ^ (- 15))%Q with (1 # 32768)%Q. change (2 ^ (- 16))%Q with (1 # 65536)%Q.
    field.
Qed.

(** X23.  For a stereo file of 8-bit or 16-bit samples the mixing is
    exact: the mono sample of a frame is (a + b) / 2 for its two
    samples a and b, since their sum and its half are binary32
    numbers. *)
Theorem stereo_mix_is_exact_below_32_bits (width : Z) (raw : list byte)
    (audio : list Q) :
  width = 1 \/ width = 2 ->
  normalize width raw = Ok audio ->
  len audio mod 2 = 0 ->
  exists mono : list Q,
    mix_to_mono 2 audio = Ok mono
    /\ len mono = len audio / 2
    /\ forall (i : nat) (a b : Q),
        nth_error audio (2 * i) = Some a ->
        nth_error audio (2 * i + 1) = Some b ->
        nth_error mono i = Some ((a + b) / 2)%Q.
Proof.
  intros Hw Hnorm Hmod.
  destruct (mix_groups 2 audio ltac:(lia) Hmod) as (mono & Hmix & Hlen & Hitems).
  exists mono. split; [exact Hmix |]. split; [exact Hlen |].
  intros i a b Ha Hb.
  assert (Hi : (i < List.length mono)%nat).
  { assert (Hlt : (2 * i + 1 < List.length audio)%nat)
      by (apply nth_error_Some; congruence).
    pose proof (Z.div_mod (len audio) 2 ltac:(lia)) as Hdm.
    unfold len in *. lia. }
  destruct (Hitems i Hi) as [_ Hv].
  rewrite Hv, (group_of_two audio i a b Ha Hb). f_equal.
  pose proof (normalize_short width raw audio Hw Hnorm) as Hshort.
  rewrite Forall_forall in Hshort.
  destruct (Hshort a (nth_error_In _ _ Ha)) as (m & Hm & Ham).
  destruct (Hshort b (nth_error_In _ _ Hb)) as (n & Hn & Hbn).
  destruct (short_sum_is_exact a b m n Hm Ham Hn Hbn) as [Hsum Hhalf].
  unfold float32_mean. rewrite sum_of_two.
  unfold is_float32 in Hsum, Hhalf. rewrite Hsum. exact Hhalf.
Qed.

Lemma stereo_mix_is_exact_below_32_bits_witness :
  exists audio mono : list Q,
    normalize 2 [x00; x40; x00; x20; x01; x00; xff; xff] = Ok audio
    /\ mix_to_mono 2 audio = Ok mono
    /\ len mono = len audio / 2.
Proof.
  eexists.
  destruct (stereo_mix_is_exact_below_32_bits 2
              [x00; x40; x00; x20; x01; x00; xff; xff] _
              (or_intror eq_refl) eq_refl)
    as (mono & Hmix & Hlen & _); [vm_compute; reflexivity |].
  exists mono. split; [reflexivity |]. split; [exact Hmix | exact Hlen].
Defined.

(** ** What normalisation keeps of the samples *)

Lemma byte_val_inj (b c : byte) : np.byte_val b = np.byte_val c -> b = c.
Proof.
  unfold np.byte_val. intros H. apply N2Z.inj in H.
  pose proof (Byte.of_to_N b) as Hb. pose proof (Byte.of_to_N c) as Hc.
  rewrite H in Hb. congruence.
Qed.

Lemma le_unsigned_inj (xs : list byte) :
  forall ys : list byte,
    List.length xs = List.length ys ->
    np.le_unsigned xs = np.le_unsigned ys -> xs = ys.
Proof.
  induction xs as [| x xs IH]; intros [| y ys] Hlen Heq; try discriminate; [reflexivity |].
  change (np.le_unsigned (x :: xs)) with (np.byte_val x + 256 * np.le_unsigned xs) in Heq.
  change (np.le_unsigned (y :: ys)) with (np.byte_val y + 256 * np.le_unsigned ys) in Heq.
  pose proof (byte_val_range x). pose proof (byte_val_range y).
  assert (np.byte_val x = np.byte_val y /\ np.le_unsigned xs = np.le_unsigned ys)
    as [Hb Hrest] by lia.
  f_equal; [apply byte_val_inj; exact Hb |].
  apply IH; [cbn [List.length] in Hlen; lia | exact Hrest].
Qed.

Lemma sample_value_inj (width : Z) (xs ys : list byte) :
  width = 1 \/ width = 2 ->
  len xs = width -> len ys = width ->
  sample_value width xs = sample_value width ys -> xs = ys.
Proof.
  intros Hw Hx Hy Heq.
  pose proof (le_unsigned_range xs) as Rx. pose proof (le_unsigned_range ys) as Ry.
  unfold len in Hx, Hy. rewrite Hx in Rx. rewrite Hy in Ry.
  apply le_unsigned_inj; [lia |].
  unfold sample_value, np.float32_of_Z in Heq.
  destruct Hw as [-> | ->]; cbn [Z.eqb Pos.eqb] in Heq.
  - change (256 ^ 1) with 256 in Rx, Ry.
    rewrite !round_to_float32_small in Heq by lia.
    unfold Qdiv, Qmult, Qinv, Qminus, Qplus, Qopp, inject_Z in Heq.
    cbn [Qnum Qden] in Heq. injection Heq as Heq. lia.
  - change (256 ^ 2) with (2 ^ 16) in Rx, Ry.
    pose proof (to_signed_range 16 _ ltac:(lia) Rx) as Sx.
    pose proof (to_signed_range 16 _ ltac:(lia) Ry) as Sy.
    change (2 ^ (16 - 1)) with 32768 in Sx, Sy.
    rewrite !round_to_float32_small in Heq by lia.
    unfold Qdiv, Qmult, Qinv, inject_Z in Heq.
    cbn [Qnum Qden] in Heq. injection Heq as Heq.
    unfold np.to_signed in *.
    change (2 ^ (16 - 1)) with 32768 in *. change (2 ^ 16) with 65536 in *.
    destruct (Z.ltb_spec (np.le_unsigned xs) 32768),
      (Z.ltb_spec (np.le_unsigned ys) 32768); lia.
Qed.

Lemma map_inj_on {A B : Type} (P : A -> Prop) (f : A -> B) :
  (forall x y, P x -> P y -> f x = f y -> x = y) ->
  forall l1 l2 : list A,
    Forall P l1 -> Forall P l2 -> map f l1 = map f l2 -> l1 = l2.
Proof.
  intros Hinj l1. induction l1 as [| x l1 IH]; intros [| y l2] H1 H2 Heq;
    try discriminate; [reflexivity |].
  inversion H1; inversion H2; subst. cbn [map] in Heq. injection Heq as Hxy Hrest.
  f_equal; [apply Hinj; assumption | apply IH; assumption].
Qed.

(** X7.  Normalisation of 8-bit and of 16-bit samples loses nothing: two
    buffers with the same normalised samples are the same buffer.  With
    32-bit samples it does lose information, the conversion to float32
    keeping 24 significant bits: the two largest sample values both
    become 1.0. *)
Theorem normalize_lossless_below_32_bits :
  (forall (width : Z) (raw1 raw2 : list byte) (out : list Q),
      width = 1 \/ width = 2 ->
      normalize width raw1 = Ok out -> normalize width raw2 = Ok out ->
      raw1 = raw2)
  /\ normalize 4 [xff; xff; xff; x7f] = normalize 4 [xfe; xff; xff; x7f].
Proof.
  split; [| reflexivity].
  intros width raw1 raw2 out Hw H1 H2.
  destruct (normalize_ok_inv _ _ _ H1) as (_ & Hm1 & E1).
  destruct (normalize_ok_inv _ _ _ H2) as (_ & Hm2 & E2).
  assert (Hpos : 0 < width) by lia.
  pose proof (rows_widths (Z.to_nat width) ltac:(lia) _ (List.length raw1) raw1
                (Nat.le_refl _) (multiple_of_width raw1 width Hpos Hm1)) as W1.
  pose proof (rows_widths (Z.to_nat width) ltac:(lia) _ (List.length raw2) raw2
                (Nat.le_refl _) (multiple_of_width raw2 width Hpos Hm2)) as W2.
  rewrite E1 in E2.
  apply (map_inj_on (fun row => List.length row = Z.to_nat width)) in E2;
    [| | exact W1 | exact W2].
  - rewrite <- (rows_concat (Z.to_nat width) ltac:(lia) (List.length raw1) raw1
                  (Nat.le_refl _)).
    rewrite <- (rows_concat (Z.to_nat width) ltac:(lia) (List.length raw2) raw2
                  (Nat.le_refl _)).
    rewrite E2. reflexivity.
  - intros x y Hx Hy. apply sample_value_inj; [exact Hw | |]; unfold len; lia.
Qed.

Lemma normalize_lossless_below_32_bits_witness :
  (2 = 1 \/ 2 = 2)
  /\ forall raw2 : list byte,
      normalize 2 raw2 = normalize 2 [x34; x12; xff; x7f] ->
      [x34; x12; xff; x7f] = raw2.
Proof.
  split; [right; reflexivity |].
  intros raw2 H2.
  apply (proj1 normalize_lossless_below_32_bits 2 [x34; x12; xff; x7f] raw2
           (map (sample_value 2) [[x34; x12]; [xff; x7f]]));
    [right; reflexivity | reflexivity | rewrite H2; reflexivity].
Defined.

Lemma round_to_float32_error (n : Z) :
  Z.abs n <= 2 ^ 31 -> Z.abs (np.round_to_float32 n - n) <= 64.
Proof.
  intros Hle.
  destruct (Z.eq_dec (Z.abs n) (2 ^ 31)) as [Htop | Hbelow].
  { assert (Hn : n = 2 ^ 31 \/ n = - 2 ^ 31) by lia.
    destruct Hn as [-> | ->]; vm_compute; discriminate. }
  assert (Hn : Z.abs n < 2 ^ 31) by lia. clear Hle Hbelow.
  unfold np.round_to_float32.
  destruct (Z.ltb_spec (Z.abs n) (2 ^ 24)) as [Hs | Hb]; [lia |].
  set (a := Z.abs n) in *.
  assert (Ha : 0 < a) by lia.
  destruct (Z.log2_spec a Ha) as [Hlo Hhi].
  assert (Hk : 24 <= Z.log2 a <= 30).
  { split.
    - apply Z.log2_le_pow2; lia.
    - destruct (Z.le_gt_cases (Z.log2 a) 30) as [|Hgt]; [assumption |].
      assert (2 ^ 31 <= 2 ^ Z.log2 a) by (apply Z.pow_le_mono_r; lia).
      lia. }
  remember (Z.log2 a) as k eqn:Ek.
  set (e := k - 23).
  assert (He : 1 <= e <= 7) by (subst e; lia).
  assert (Hhalf : 0 < 2 ^ (e - 1) <= 64).
  { split; [apply Z.pow_pos_nonneg; lia |].
    change 64 with (2 ^ 6). apply Z.pow_le_mono_r; lia. }
  assert (Hpe : 2 ^ e = 2 * 2 ^ (e - 1)).
  { rewrite <- Z.pow_succ_r by lia. f_equal. lia. }
  pose proof (Z.div_mod a (2 ^ e) ltac:(lia)) as Hdm.
  pose proof (Z.mod_pos_bound a (2 ^ e) ltac:(lia)) as Hr.
  set (q := a / 2 ^ e) in *. set (r := a mod 2 ^ e) in *.
  set (q' := if r <? 2 ^ (e - 1) then q
             else if 2 ^ (e - 1) <? r then q + 1
             else if Z.even q then q else q + 1).
  assert (Hq' : Z.abs (q' * 2 ^ e - a) <= 64).
  { subst q'. destruct (Z.ltb_spec r (2 ^ (e - 1))); [nia |].
    destruct (Z.ltb_spec (2 ^ (e - 1)) r); [nia |].
    destruct (Z.even q); nia. }
  destruct n; cbn [Z.sgn]; subst a; cbn [Z.abs] in *; lia.
Qed.

(** X8.  What a 32-bit sample loses in normalisation is small: the float
    it becomes is within 2^-25 of the sample over 2147483648, and is
    that very number as long as the sample is below 2^24 in
    magnitude. *)
Theorem normalize_32_bit_precision (b0 b1 b2 b3 : byte) :
  let n := np.to_signed 32 (np.le_unsigned [b0; b1; b2; b3]) in
  exists q : Q,
    normalize 4 [b0; b1; b2; b3] = Ok [q]
    /\ (Qabs (q - inject_Z n / 2147483648) <= 1 # 33554432)%Q
    /\ (Z.abs n < 2 ^ 24 -> q = (inject_Z n / 2147483648)%Q).
Proof.
  intros n. eexists. split.
  - rewrite normalize_rows by (auto; reflexivity).
    change (rows (Z.to_nat 4) (List.length [b0; b1; b2; b3]) [b0; b1; b2; b3])
      with [[b0; b1; b2; b3]].
    cbn [map]. unfold sample_value. cbn [Z.eqb Pos.eqb]. reflexivity.
  - fold n. unfold np.float32_of_Z. split.
    + assert (Hn : Z.abs n <= 2 ^ 31).
      { pose proof (le_unsigned_range [b0; b1; b2; b3]) as Hu.
        change (256 ^ Z.of_nat (List.length [b0; b1; b2; b3])) with (2 ^ 32) in Hu.
        pose proof (to_signed_range 32 _ ltac:(lia) Hu) as Hs.
        change (2 ^ (32 - 1)) with (2 ^ 31) in Hs. subst n. lia. }
      pose proof (round_to_float32_error n Hn) as Herr.
      apply Qabs_Qle_condition.
      unfold Qle, Qdiv, Qmult, Qinv, Qminus, Qplus, Qopp, inject_Z.
      cbn [Qnum Qden]. lia.
    + intros Hsmall. rewrite round_to_float32_small by exact Hsmall. reflexivity.
Qed.

Lemma normalize_32_bit_precision_witness :
  Z.abs (np.to_signed 32 (np.le_unsigned [x01; x00; x00; x00])) < 2 ^ 24
  /\ exists q : Q,
      normalize 4 [x01; x00; x00; x00] = Ok [q]
      /\ q = (inject_Z 1 / 2147483648)%Q.
Proof.
  split; [reflexivity |].
  destruct (normalize_32_bit_precision x01 x00 x00 x00) as (q & Hq & _ & Hexact).
  exists q. split; [exact Hq |]. apply Hexact. reflexivity.
Defined.

(** ** The shape of an accepted language *)

(** X9.  A language that the validator accepts has 2, 3, 5 or 6
    characters, each of them a letter of A-Z or a-z or a hyphen. *)
Theorem valid_language_shape (s : string) :
  valid_language s = true ->
  (String.length s = 2 \/ String.length s = 3
   \/ String.length s = 5 \/ String.length s = 6)%nat
  /\ Forall (fun c => is_letter c \/ c = "-"%char) (list_ascii_of_string s).
Proof.
  intros Hvalid.
  destruct (valid_language_sound s Hvalid)
    as (primary & suffix & -> & Hletters & Hlen & Hsuffix).
  destruct primary as [| c1 [| c2 [| c3 [| c4 primary]]]];
    cbn [List.length] in Hlen; try lia;
    destruct Hsuffix as [-> | (c & d & -> & Lc & Ld)];
    cbn [app string_of_list_ascii String.length list_ascii_of_string];
    (split; [lia |]);
    repeat match goal with
           | H : Forall is_letter (_ :: _) |- _ =>
               let L := fresh "L" in inversion H as [| ? ? L ?]; subst; clear H
           end;
    repeat first [apply Forall_nil | apply Forall_cons; [solve [auto] |]].
Qed.

Lemma valid_language_shape_witness :
  valid_language "zh-CN" = true
  /\ (String.length "zh-CN" = 2 \/ String.length "zh-CN" = 3
      \/ String.length "zh-CN" = 5 \/ String.length "zh-CN" = 6)%nat.
Proof.
  split; [reflexivity |].
  apply (valid_language_shape "zh-CN"). reflexivity.
Defined.

(** ** Every run of [main] *)

Section RunsOfMain.

Variable wave_open : string -> result wave_read.
Variable model : Type.
Variable whisper_load_model : string -> result model.
Variable transcribe_text : model -> list Q -> string -> result string.
Variable strip : string -> string.

Local Abbreviation run := (main wave_open model whisper_load_model transcribe_text strip).
Local Abbreviation load := (load_wav wave_open).

Local Abbreviation shape :=
  (run_shape wave_open model whisper_load_model transcribe_text strip).

Lemma main_shape (argv : list string) : shape argv (run argv).
Proof.
  unfold main.
  destruct (Z.ltb_spec (len argv) 2) as [Hshort | Hlong]; [constructor; exact Hshort |].
  fold (model_argument argv). fold (language_argument argv).
  destruct (valid_language (language_argument argv)) eqn:Hvalid; cbn [negb];
    [| constructor; assumption].
  destruct (load (nth 1 argv EmptyString)) as [audio | e] eqn:Hload;
    [| constructor; assumption].
  destruct (whisper_load_model (model_argument argv)) as [m | e] eqn:Hmodel;
    [| econstructor; eassumption].
  destruct (transcribe_text m audio (language_argument argv)) as [text | e] eqn:Htext;
    econstructor; eassumption.
Qed.

Ltac in_trace H :=
  cbn [fst snd In exit_status] in H;
  repeat match type of H with
         | _ \/ _ => destruct H as [H | H]
         | False => contradiction
         | _ = _ => try discriminate H; try (injection H as H)
         end.

(** X10.  A run opens an audio file exactly when it was given at least
    the path and the language is valid, and the only file it ever opens
    is the one named by its first argument. *)
Theorem main_opens_only_the_given_file (argv : list string) :
  ((exists path : string, In (WaveOpen path) (fst (run argv)))
   <-> 2 <= len argv /\ valid_language (language_argument argv) = true)
  /\ (forall path : string,
         In (WaveOpen path) (fst (run argv)) -> path = nth 1 argv EmptyString).
Proof.
  destruct (main_shape argv); cbn [fst]; (split; [split |]).
  all: try (intros [path Hin]; in_trace Hin; fail).
  all: try (intros [Hlen Hvalid]; first [lia | congruence]).
  all: try (intros _; split; [assumption | assumption]).
  all: try (intros _; eexists; left; reflexivity).
  all: intros path Hin; in_trace Hin; congruence.
Qed.

(** X11.  The model is loaded only once the audio has been decoded, and
    it is asked to transcribe only in the validated language: a run that
    loads a model has a decodable file and loads the model named by its
    second argument ("base.en" by default); a run that transcribes does
    so in the language of its third argument ("en" by default), which
    passed the validator. *)
Theorem main_reaches_the_model_last (argv : list string) :
  (forall name : string,
      In (LoadModel name) (fst (run argv)) ->
      name = model_argument argv
      /\ exists audio : list Q, load (nth 1 argv EmptyString) = Ok audio)
  /\ (forall language : string,
         In (Transcribe language) (fst (run argv)) ->
         language = language_argument argv
         /\ valid_language language = true
         /\ exists m : model, whisper_load_model (model_argument argv) = Ok m).
Proof.
  destruct (main_shape argv); cbn [fst]; split.
  all: intros name Hin; in_trace Hin; subst.
  all: repeat split; eauto.
Qed.

(** X12.  A run ends with exit status 0 exactly when it printed a
    transcription, and then it did four things in order: open the file,
    load the model, transcribe, print the stripped text.  Every other
    run ends with exit status 1 and prints nothing on standard
    output. *)
Theorem main_exit_status (argv : list string) :
  (exit_status (snd (run argv)) = 0 \/ exit_status (snd (run argv)) = 1)
  /\ (exit_status (snd (run argv)) = 0
      <-> exists text : string, In (Stdout text) (fst (run argv)))
  /\ (exit_status (snd (run argv)) = 0 ->
      exists (audio : list Q) (m : model) (text : string),
        transcribe_text m audio (language_argument argv) = Ok text
        /\ fst (run argv)
           = [WaveOpen (nth 1 argv EmptyString); LoadModel (model_argument argv);
              Transcribe (language_argument argv); Stdout (strip text)]).
Proof.
  destruct (main_shape argv); cbn [fst snd exit_status].
  all: split; [auto |]; split; [split |].
  all: try (intros Hzero; discriminate Hzero).
  all: try (intros [t Hin]; in_trace Hin; fail).
  - intros _. eexists. do 3 right. left. reflexivity.
  - intros _. reflexivity.
  - intros _. eauto.
Qed.

End RunsOfMain.

(** * The text helpers *)

(** ** Lines and joins *)

Lemma splitlines_length_induction (P : string -> Prop) :
  (forall s, (forall t, (String.length t < String.length s)%nat -> P t) -> P s) ->
  forall s, P s.
Proof.
  intros Hstep s.
  assert (H : forall n t, (String.length t < n)%nat -> P t).
  { induction n as [| n IH]; intros t Ht; [lia |].
    apply Hstep. intros u Hu. apply IH. lia. }
  apply (H (S (String.length s))). lia.
Qed.

Lemma break_free_cons (c : ascii) (s : string) :
  break_free (String c s) <-> py.is_linebreak c = false /\ break_free s.
Proof.
  unfold break_free. cbn [list_ascii_of_string]. split.
  - intros H. inversion H; subst. auto.
  - intros [Hc Hs]. constructor; assumption.
Qed.

Lemma break_free_empty : break_free EmptyString.
Proof. constructor. Qed.

Lemma splitlines_break_free (s : string) : Forall break_free (py.splitlines s).
Proof.
  induction s as [s IH] using splitlines_length_induction.
  destruct s as [| c s']; [constructor |].
  cbn [py.splitlines].
  destruct (py.is_linebreak c) eqn:Hc.
  - constructor; [apply break_free_empty |].
    destruct (Ascii.eqb c py.CR).
    + destruct s' as [| c' s'']; [constructor |].
      destruct (Ascii.eqb c' py.LF); apply IH; cbn [String.length]; lia.
    + apply IH. cbn [String.length]. lia.
  - pose proof (IH s' ltac:(cbn [String.length]; lia)) as Hs'.
    destruct (py.splitlines s') as [| line lines].
    + constructor; [| constructor].
      apply break_free_cons. split; [exact Hc | apply break_free_empty].
    + inversion Hs'; subst. constructor; [| assumption].
      apply break_free_cons. split; assumption.
Qed.

Lemma splitlines_one_line (l : string) :
  break_free l -> l <> EmptyString -> py.splitlines l = [l].
Proof.
  induction l as [| c l IH]; intros Hbf Hne; [contradiction |].
  apply break_free_cons in Hbf. destruct Hbf as [Hc Hl].
  cbn [py.splitlines]. rewrite Hc.
  destruct l as [| c' l']; [reflexivity |].
  rewrite (IH Hl ltac:(discriminate)). reflexivity.
Qed.

Lemma splitlines_line_then (l s : string) :
  break_free l ->
  py.splitlines (l ++ String py.LF s) = l :: py.splitlines s.
Proof.
  induction l as [| c l IH]; intros Hbf.
  - reflexivity.
  - apply break_free_cons in Hbf. destruct Hbf as [Hc Hl].
    cbn [append py.splitlines]. rewrite Hc, (IH Hl). reflexivity.
Qed.

Lemma splitlines_join (lines : list string) :
  Forall break_free lines ->
  py.splitlines (py.join prelude.newline lines) = drop_trailing_empty lines.
Proof.
  unfold py.join. induction lines as [| x lines IH]; intros Hbf; [reflexivity |].
  inversion Hbf as [| ? ? Hx Hrest]; subst.
  destruct lines as [| y lines].
  - cbn [String.concat drop_trailing_empty].
    destruct (String.eqb_spec x EmptyString) as [-> | Hne]; [reflexivity |].
    apply splitlines_one_line; assumption.
  - change (String.concat prelude.newline (x :: y :: lines))
      with (x ++ String py.LF (String.concat prelude.newline (y :: lines)))%string.
    rewrite (splitlines_line_then _ _ Hx), (IH Hrest). reflexivity.
Qed.

Lemma drop_trailing_nonempty (lines : list string) :
  last lines "x"%string <> EmptyString -> drop_trailing_empty lines = lines.
Proof.
  induction lines as [| x lines IH]; intros Hlast; [reflexivity |].
  destruct lines as [| y lines].
  - cbn [drop_trailing_empty]. cbn [last] in Hlast.
    destruct (String.eqb_spec x EmptyString); [contradiction | reflexivity].
  - change (drop_trailing_empty (x :: y :: lines))
      with (x :: drop_trailing_empty (y :: lines)).
    rewrite IH; [reflexivity | exact Hlast].
Qed.

(** ** [uniq] *)

Lemma expand_app (g1 g2 : list (Z * string)) :
  expand (g1 ++ g2) = expand g1 ++ expand g2.
Proof. unfold expand. apply flat_map_app. Qed.

Lemma uniq_loop_expand (rest : list string) :
  forall (groups : list (Z * string)) (current : string) (current_count : Z),
    0 <= current_count ->
    expand (prelude.uniq_loop rest groups current current_count)
    = expand groups ++ repeat current (Z.to_nat current_count) ++ rest.
Proof.
  induction rest as [| line rest IH]; intros groups current n Hn;
    cbn [prelude.uniq_loop].
  - rewrite expand_app. unfold expand at 2. cbn [flat_map fst snd].
    rewrite !app_nil_r. reflexivity.
  - destruct (String.eqb_spec line current) as [-> | Hne].
    + rewrite IH by lia. f_equal.
      replace (Z.to_nat (n + 1)) with (S (Z.to_nat n)) by lia.
      cbn [repeat]. rewrite repeat_cons, <- app_assoc. reflexivity.
    + rewrite IH by lia. rewrite expand_app. unfold expand at 2.
      cbn [flat_map fst snd repeat Z.to_nat Pos.to_nat Pos.iter_op Nat.add].
      rewrite app_nil_r, <- app_assoc. reflexivity.
Qed.

Lemma uniq_loop_counts (rest : list string) :
  forall (groups : list (Z * string)) (current : string) (current_count : Z),
    Forall (fun g => 1 <= fst g) groups -> 1 <= current_count ->
    Forall (fun g => 1 <= fst g)
      (prelude.uniq_loop rest groups current current_count).
Proof.
  induction rest as [| line rest IH]; intros groups current n Hg Hn;
    cbn [prelude.uniq_loop].
  - apply Forall_app. split; [exact Hg | repeat constructor; exact Hn].
  - destruct (String.eqb line current).
    + apply IH; [exact Hg | lia].
    + apply IH; [| lia].
      apply Forall_app. split; [exact Hg | repeat constructor; exact Hn].
Qed.

Lemma no_adjacent_repeat_snoc (l : list string) (a b : string) :
  no_adjacent_repeat (l ++ [a]) -> a <> b -> no_adjacent_repeat (l ++ [a; b]).
Proof.
  induction l as [| x l IH]; intros Hl Hab.
  - cbn. auto.
  - destruct l as [| y l].
    + cbn in Hl |- *. destruct Hl as [Hxa _]. auto.
    + change ((x :: y :: l) ++ [a]) with (x :: (y :: l) ++ [a]) in Hl.
      change ((x :: y :: l) ++ [a; b]) with (x :: (y :: l) ++ [a; b]).
      cbn [no_adjacent_repeat app] in Hl |- *.
      destruct Hl as [Hxy Hrest]. split; [exact Hxy |].
      apply IH; assumption.
Qed.

Lemma uniq_loop_no_repeat (rest : list string) :
  forall (groups : list (Z * string)) (current : string) (current_count : Z),
    no_adjacent_repeat (map snd groups ++ [current]) ->
    no_adjacent_repeat
      (map snd (prelude.uniq_loop rest groups current current_count)).
Proof.
  induction rest as [| line rest IH]; intros groups current n Hg;
    cbn [prelude.uniq_loop].
  - rewrite map_app. exact Hg.
  - destruct (String.eqb_spec line current) as [-> | Hne].
    + apply IH. exact Hg.
    + apply IH. rewrite map_app, <- app_assoc. cbn [map snd app].
      apply no_adjacent_repeat_snoc; [exact Hg | congruence].
Qed.

(** On lines that never repeat, the loop makes one group per line. *)
Lemma uniq_loop_distinct (rest : list string) :
  forall (groups : list (Z * string)) (current : string) (current_count : Z),
    no_adjacent_repeat (current :: rest) ->
    map snd (prelude.uniq_loop rest groups current current_count)
    = map snd groups ++ current :: rest.
Proof.
  induction rest as [| line rest IH]; intros groups current n Hrep;
    cbn [prelude.uniq_loop].
  - rewrite map_app. reflexivity.
  - destruct Hrep as [Hne Hrest].
    destruct (String.eqb_spec line current) as [E | _]; [congruence |].
    rewrite IH by exact Hrest.
    rewrite map_app, <- app_assoc. reflexivity.
Qed.

(** X13.  With [count], [uniq] returns groups that stand for the lines
    of the text: every count is at least 1 and writing each line of a
    group as many times as its count gives the lines back, in order.
    One line is printed per group.  A text without lines gives no group
    and prints nothing. *)
Theorem uniq_groups_stand_for_the_lines (text : string) :
  exists groups : list (Z * string),
    snd (prelude.uniq text true) = prelude.Groups groups
    /\ expand groups = py.splitlines text
    /\ Forall (fun g => 1 <= fst g) groups
    /\ List.length (fst (prelude.uniq text true)) = List.length groups
    /\ (py.splitlines text = [] -> prelude.uniq text true = ([], prelude.Groups [])).
Proof.
  unfold prelude.uniq.
  destruct (py.splitlines text) as [| first rest].
  - exists []. repeat split; constructor.
  - eexists. split; [reflexivity |]. split; [| split; [| split]].
    + rewrite uniq_loop_expand by lia. reflexivity.
    + apply uniq_loop_counts; [constructor | lia].
    + cbn [fst]. apply length_map.
    + discriminate.
Qed.

Lemma uniq_loop_nonempty (rest : list string) :
  forall (groups : list (Z * string)) (current : string) (current_count : Z),
    prelude.uniq_loop rest groups current current_count <> [].
Proof.
  induction rest as [| line rest IH]; intros groups current n;
    cbn [prelude.uniq_loop].
  - destruct groups; discriminate.
  - destruct (String.eqb line current); apply IH.
Qed.

Lemma uniq_loop_last (rest : list string) :
  forall (groups : list (Z * string)) (current : string) (current_count : Z)
         (d : string),
    last (map snd (prelude.uniq_loop rest groups current current_count)) d
    = last (current :: rest) d.
Proof.
  induction rest as [| line rest IH]; intros groups current n d;
    cbn [prelude.uniq_loop].
  - rewrite map_app. cbn [map snd]. apply last_last.
  - destruct (String.eqb_spec line current) as [-> | Hne]; rewrite IH; reflexivity.
Qed.

Lemma In_expand (groups : list (Z * string)) (line : string) :
  Forall (fun g => 1 <= fst g) groups ->
  In line (map snd groups) -> In line (expand groups).
Proof.
  intros Hpos Hin. apply in_map_iff in Hin. destruct Hin as ((n & l) & Hl & Hg).
  cbn [snd] in Hl. subst l. unfold expand. apply in_flat_map.
  exists (n, line). split; [exact Hg |].
  rewrite Forall_forall in Hpos. specialize (Hpos _ Hg). cbn [fst snd] in *.
  replace (Z.to_nat n) with (S (Z.to_nat (n - 1))) by lia. left. reflexivity.
Qed.

(** X14.  Without [count], [uniq] returns the lines of the groups joined
    by newlines, and among them no line is followed by an equal line;
    they are the lines that [uniq] counts with [count]. *)
Theorem uniq_leaves_no_adjacent_repeat (text : string) :
  exists groups : list (Z * string),
    snd (prelude.uniq text true) = prelude.Groups groups
    /\ snd (prelude.uniq text false)
       = prelude.Text (py.join prelude.newline (map snd groups))
    /\ no_adjacent_repeat (map snd groups).
Proof.
  unfold prelude.uniq.
  destruct (py.splitlines text) as [| first rest].
  - exists []. repeat split.
  - eexists. split; [reflexivity |]. split; [reflexivity |].
    apply uniq_loop_no_repeat. cbn. exact I.
Qed.

(** X15.  [uniq] applied to its own result changes nothing, as long as
    the last line of the text is not empty: the result is printed and
    returned again as it is.  (An empty last line would be lost when the
    result is split into lines again.) *)
Theorem uniq_twice (text out : string) :
  last (py.splitlines text) "x"%string <> EmptyString ->
  snd (prelude.uniq text false) = prelude.Text out ->
  prelude.uniq out false = prelude.uniq text false.
Proof.
  intros Hlast Hout.
  pose proof (splitlines_break_free text) as Hbf.
  unfold prelude.uniq in Hout |- * at 2.
  destruct (py.splitlines text) as [| first rest] eqn:Hlines.
  - cbn [snd] in Hout. injection Hout as <-. reflexivity.
  - cbn [snd] in Hout. injection Hout as <-.
    set (groups := prelude.uniq_loop rest [] first 1).
    assert (Hrep : no_adjacent_repeat (map snd groups)).
    { apply uniq_loop_no_repeat. cbn. exact I. }
    assert (Hexp : expand groups = first :: rest).
    { subst groups. rewrite uniq_loop_expand by lia. reflexivity. }
    assert (Hfree : Forall break_free (map snd groups)).
    { apply Forall_forall. intros line Hin.
      rewrite Forall_forall in Hbf. apply Hbf. rewrite <- Hexp.
      apply In_expand; [| exact Hin].
      subst groups. apply uniq_loop_counts; [constructor | lia]. }
    unfold prelude.uniq.
    rewrite (splitlines_join _ Hfree), drop_trailing_nonempty
      by (subst groups; rewrite uniq_loop_last; exact Hlast).
    destruct (map snd groups) as [| f r] eqn:Hg.
    + exfalso. apply (uniq_loop_nonempty rest [] first 1).
      fold groups. destruct groups; [reflexivity | discriminate].
    + rewrite (uniq_loop_distinct r [] f 1 Hrep). reflexivity.
Qed.


(** ** [head] and [tail] *)

Lemma append_assoc (a b c : string) : ((a ++ b) ++ c = a ++ (b ++ c))%string.
Proof.
  induction a as [| x a IH]; [reflexivity |].
  cbn [append]. rewrite IH. reflexivity.
Qed.

Lemma join_app (xs ys : list string) :
  xs <> [] -> ys <> [] ->
  py.join prelude.newline (xs ++ ys)
  = (py.join prelude.newline xs ++ prelude.newline
     ++ py.join prelude.newline ys)%string.
Proof.
  unfold py.join. intros Hx Hy. induction xs as [| x xs IH]; [contradiction |].
  destruct xs as [| x' xs].
  - destruct ys as [| y ys]; [contradiction |]. reflexivity.
  - change ((x :: x' :: xs) ++ ys) with (x :: (x' :: xs) ++ ys).
    change (String.concat prelude.newline (x :: (x' :: xs) ++ ys))
      with (x ++ prelude.newline
            ++ String.concat prelude.newline ((x' :: xs) ++ ys))%string.
    rewrite IH by discriminate.
    change (String.concat prelude.newline (x :: x' :: xs))
      with (x ++ prelude.newline ++ String.concat prelude.newline (x' :: xs))%string.
    rewrite !append_assoc. reflexivity.
Qed.

(** X16.  [tail] of zero lines is not the empty text: [tail(text, 0)]
    returns all the lines of the text, because [lines[-0:]] is the whole
    list, while [head(text, 0)] returns none.  With a negative count
    [head] leaves out that many lines at the end and [tail] that many at
    the start. *)
Theorem tail_of_zero_lines (text : string) :
  snd (prelude.tail text 0) = py.join prelude.newline (py.splitlines text)
  /\ snd (prelude.head text 0) = EmptyString
  /\ (forall k : nat,
         (0 < k)%nat ->
         snd (prelude.head text (- Z.of_nat k))
         = py.join prelude.newline
             (firstn (List.length (py.splitlines text) - k) (py.splitlines text)))
  /\ (forall k : nat,
         snd (prelude.tail text (- Z.of_nat k))
         = py.join prelude.newline (skipn k (py.splitlines text))).
Proof.
  unfold prelude.tail, prelude.head, py.slice_from, py.slice_to, py.slice_index.
  cbn [snd]. set (lines := py.splitlines text).
  assert (Hlen : 0 <= len lines) by (unfold len; lia).
  split; [| split; [| split]].
  - change (- 0) with 0. destruct (Z.ltb_spec 0 0); [lia |].
    rewrite Z.min_l by lia. reflexivity.
  - destruct (Z.ltb_spec 0 0); [lia |]. rewrite Z.min_l by lia. reflexivity.
  - intros k Hk. destruct (Z.ltb_spec (- Z.of_nat k) 0) as [Hneg | Hzero]; [| lia].
    f_equal. f_equal. unfold len. lia.
  - intros k. rewrite Z.opp_involutive.
    destruct (Z.ltb_spec (Z.of_nat k) 0); [lia |].
    destruct (Z.le_gt_cases (Z.of_nat k) (len lines)) as [Hin | Hout].
    + rewrite Z.min_l by lia. rewrite Nat2Z.id. reflexivity.
    + rewrite Z.min_r by lia. unfold len. rewrite Nat2Z.id.
      rewrite !skipn_all2; [reflexivity | unfold len in Hout; lia | lia].
Qed.

(** X17.  [head] and [tail] cut a text in two: for 0 < k < L, with L the
    number of lines, the first k lines from [head], a newline, and the
    last L - k lines from [tail] make up the lines of the text joined by
    newlines. *)
Theorem head_and_tail_make_the_text (text : string) (k : Z) :
  0 < k < len (py.splitlines text) ->
  (snd (prelude.head text k) ++ prelude.newline
   ++ snd (prelude.tail text (len (py.splitlines text) - k)))%string
  = py.join prelude.newline (py.splitlines text).
Proof.
  intros Hk.
  unfold prelude.tail, prelude.head, py.slice_from, py.slice_to, py.slice_index.
  cbn [snd]. set (lines := py.splitlines text) in *.
  destruct (Z.ltb_spec k 0); [lia |].
  destruct (Z.ltb_spec (- (len lines - k)) 0); [| lia].
  rewrite Z.min_l, Z.max_r by lia.
  replace (- (len lines - k) + len lines) with k by lia.
  rewrite <- join_app.
  - rewrite firstn_skipn. reflexivity.
  - intros E. apply (f_equal (@List.length string)) in E.
    rewrite length_firstn in E. cbn [List.length] in E. unfold len in Hk. lia.
  - intros E. apply (f_equal (@List.length string)) in E.
    rewrite length_skipn in E. cbn [List.length] in E. unfold len in Hk. lia.
Qed.

Lemma tail_of_zero_lines_witness :
  (0 < 1)%nat
  /\ snd (prelude.head "a" (- Z.of_nat 1))
     = py.join prelude.newline
         (firstn (List.length (py.splitlines "a") - 1) (py.splitlines "a")).
Proof.
  split; [lia |].
  apply (proj1 (proj2 (proj2 (tail_of_zero_lines "a")))). lia.
Defined.

Lemma head_and_tail_make_the_text_witness :
  0 < 1 < len (py.splitlines ("a" ++ prelude.newline ++ "b"))
  /\ (snd (prelude.head ("a" ++ prelude.newline ++ "b") 1) ++ prelude.newline
      ++ snd (prelude.tail ("a" ++ prelude.newline ++ "b")
                (len (py.splitlines ("a" ++ prelude.newline ++ "b")) - 1)))%string
     = py.join prelude.newline (py.splitlines ("a" ++ prelude.newline ++ "b")).
Proof.
  split; [vm_compute; split; reflexivity |].
  apply (head_and_tail_make_the_text ("a" ++ prelude.newline ++ "b") 1).
  vm_compute. split; reflexivity.
Defined.

(** ** [sort_lines] *)

Lemma ltb_leb (x y : string) : String.ltb x y = true -> String.leb x y = true.
Proof.
  unfold String.ltb, String.leb.
  destruct (String.compare x y); intros H; (reflexivity || discriminate H).
Qed.

Lemma not_ltb_leb (x y : string) : String.ltb x y = false -> String.leb y x = true.
Proof.
  unfold String.ltb, String.leb. rewrite (String.compare_antisym x y).
  destruct (String.compare y x); cbn [CompOpp]; intros H;
    (reflexivity || discriminate H).
Qed.

Lemma insert_sorted_perm (x : string) (l : list string) :
  Permutation (py.insert_sorted x l) (x :: l).
Proof.
  induction l as [| y l IH]; cbn [py.insert_sorted]; [reflexivity |].
  destruct (String.ltb x y); [reflexivity |].
  rewrite IH. apply perm_swap.
Qed.

Lemma insert_sorted_Sorted (x : string) (l : list string) :
  Sorted le_lines l -> Sorted le_lines (py.insert_sorted x l).
Proof.
  induction l as [| y l IH]; intros Hl; cbn [py.insert_sorted].
  - repeat constructor.
  - destruct (String.ltb x y) eqn:Hxy.
    + constructor; [exact Hl |]. constructor. apply ltb_leb. exact Hxy.
    + inversion Hl as [| ? ? Hrest Hhd]; subst.
      constructor; [apply IH; exact Hrest |].
      destruct l as [| z l]; cbn [py.insert_sorted].
      * constructor. apply not_ltb_leb. exact Hxy.
      * destruct (String.ltb x z).
        -- constructor. apply not_ltb_leb. exact Hxy.
        -- inversion Hhd; subst. constructor. assumption.
Qed.

Lemma sort_from (l : list string) :
  forall acc : list string,
    Sorted le_lines acc ->
    Sorted le_lines (fold_left (fun acc x => py.insert_sorted x acc) l acc)
    /\ Permutation (fold_left (fun acc x => py.insert_sorted x acc) l acc) (acc ++ l).
Proof.
  induction l as [| x l IH]; intros acc Hacc; cbn [fold_left].
  - rewrite app_nil_r. split; [exact Hacc | reflexivity].
  - destruct (IH (py.insert_sorted x acc) (insert_sorted_Sorted x acc Hacc))
      as [Hsorted Hperm].
    split; [exact Hsorted |].
    rewrite Hperm, insert_sorted_perm. apply Permutation_middle.
Qed.

Lemma Sorted_snoc {A : Type} (R : A -> A -> Prop) (l : list A) (x : A) :
  Sorted R l -> (l = [] \/ R (last l x) x) -> Sorted R (l ++ [x]).
Proof.
  induction l as [| a l IH]; intros Hl Hlast; [repeat constructor |].
  inversion Hl as [| ? ? Hrest Hhd]; subst.
  destruct Hlast as [E | Hlast]; [discriminate |].
  destruct l as [| b l].
  - cbn [app]. repeat constructor. exact Hlast.
  - change ((a :: b :: l) ++ [x]) with (a :: (b :: l) ++ [x]).
    constructor.
    + apply IH; [exact Hrest | right; exact Hlast].
    + inversion Hhd; subst. constructor. assumption.
Qed.

Lemma Sorted_rev {A : Type} (R : A -> A -> Prop) (l : list A) :
  Sorted R l -> Sorted (fun a b => R b a) (rev l).
Proof.
  induction l as [| a l IH]; intros Hl; [constructor |].
  inversion Hl as [| ? ? Hrest Hhd]; subst. cbn [rev].
  apply Sorted_snoc; [apply IH; exact Hrest |].
  destruct l as [| b l]; [left; reflexivity | right].
  cbn [rev]. rewrite last_last. inversion Hhd; subst. assumption.
Qed.

Lemma sorted_spec (l : list string) (reverse : bool) :
  Sorted (fun a b => if reverse then le_lines b a else le_lines a b)
    (py.sorted l reverse)
  /\ Permutation (py.sorted l reverse) l.
Proof.
  unfold py.sorted, py.sort_ascending. destruct reverse.
  - destruct (sort_from (rev l) [] ltac:(constructor)) as [Hsorted Hperm].
    split; [apply Sorted_rev; exact Hsorted |].
    rewrite <- Permutation_rev, Hperm. cbn [app]. symmetry. apply Permutation_rev.
  - destruct (sort_from l [] ltac:(constructor)) as [Hsorted Hperm].
    split; [exact Hsorted | exact Hperm].
Qed.

Lemma fromkeys_from_spec (l : list string) :
  forall seen : list string,
    NoDup (py.fromkeys_from seen l)
    /\ forall x : string,
        In x (py.fromkeys_from seen l) <-> In x l /\ ~ In x seen.
Proof.
  induction l as [| y l IH]; intros seen; cbn [py.fromkeys_from].
  - split; [constructor |]. intros x. cbn [In]. tauto.
  - destruct (existsb (String.eqb y) seen) eqn:Hseen.
    + apply existsb_exists in Hseen. destruct Hseen as (z & Hz & Hyz).
      apply String.eqb_eq in Hyz. subst z.
      destruct (IH seen) as [Hnd Hin]. split; [exact Hnd |].
      intros x. rewrite Hin. cbn [In]. split; [tauto |].
      intros [[-> | Hx] Hn]; [contradiction | tauto].
    + assert (Hy : ~ In y seen).
      { intros Hy. assert (existsb (String.eqb y) seen = true); [| congruence].
        apply existsb_exists. exists y. split; [exact Hy | apply String.eqb_refl]. }
      destruct (IH (y :: seen)) as [Hnd Hin]. split.
      * constructor; [| exact Hnd]. rewrite Hin. cbn [In]. tauto.
      * intros x. cbn [In]. rewrite Hin. cbn [In].
        destruct (String.eqb_spec y x) as [-> | Hne]; [tauto |].
        split; [tauto |]. intros [[E | Hx] Hn]; [contradiction | tauto].
Qed.

(** X18.  [sort_lines] returns, and prints, the lines of a sorted list
    joined by newlines: in ascending order of the strings, or descending
    with [reverse].  Without [unique] the list is a rearrangement of the
    lines of the text; with [unique] it holds no line twice and exactly
    the lines that occur in the text. *)
Theorem sort_lines_sorts (text : string) (reverse unique : bool) :
  exists lines : list string,
    prelude.sort_lines text reverse unique
    = ([py.join prelude.newline lines], py.join prelude.newline lines)
    /\ Sorted (fun a b => if reverse then String.leb b a = true
                          else String.leb a b = true) lines
    /\ (if unique
        then NoDup lines
             /\ forall line : string, In line lines <-> In line (py.splitlines text)
        else Permutation lines (py.splitlines text)).
Proof.
  unfold prelude.sort_lines.
  set (kept := if unique then py.fromkeys (py.splitlines text) else py.splitlines text).
  destruct (sorted_spec kept reverse) as [Hsorted Hperm].
  exists (py.sorted kept reverse). split; [reflexivity |]. split; [exact Hsorted |].
  subst kept. destruct unique; [| exact Hperm].
  destruct (fromkeys_from_spec (py.splitlines text) []) as [Hnd Hin].
  split.
  - apply (Permutation_NoDup (l := py.fromkeys (py.splitlines text)));
      [symmetry; exact Hperm | exact Hnd].
  - intros line. unfold py.fromkeys. split.
    + intros Hl. apply (Hin line).
      apply (Permutation_in line Hperm). exact Hl.
    + intros Hl. apply (Permutation_in line (Permutation_sym Hperm)).
      apply (Hin line). split; [exact Hl | intros []].
Qed.

(** ** [cols] *)

Section ColsProperties.

Variable split_on : string -> string -> list string.
Variable split_whitespace : string -> list string.

Local Abbreviation cols := (prelude.cols split_on split_whitespace).
Local Abbreviation cols_loop := (prelude.cols_loop split_on split_whitespace).
Local Abbreviation split_line := (prelude.split_line split_on split_whitespace).

Lemma getitem_nonnegative {A : Type} (l : list A) (i : Z) :
  0 <= i < len l ->
  exists a : A, nth_error l (Z.to_nat i) = Some a /\ py.getitem l i = py.Got a.
Proof.
  intros Hi. unfold py.getitem.
  destruct (Z.ltb_spec i 0); [lia |].
  destruct (Z.leb_spec 0 i); [| lia]. destruct (Z.ltb_spec i (len l)); [| lia].
  cbn [andb]. destruct (nth_error l (Z.to_nat i)) eqn:Hnth; [eauto |].
  apply nth_error_None in Hnth. unfold len in Hi. lia.
Qed.

Lemma select_nonnegative (parts : list string) (indices : list Z) :
  Forall (fun i => 0 <= i) indices ->
  prelude.select parts indices = py.Got (present_fields parts indices).
Proof.
  induction 1 as [| i indices Hi _ IH]; cbn [prelude.select present_fields flat_map].
  - reflexivity.
  - fold (present_fields parts indices).
    destruct (Z.ltb_spec i (len parts)) as [Hin | Hout].
    + destruct (getitem_nonnegative parts i ltac:(lia)) as (part & Hnth & Hpart).
      rewrite Hpart, IH, Hnth. reflexivity.
    + rewrite IH.
      assert (Hnone : nth_error parts (Z.to_nat i) = None).
      { apply nth_error_None. unfold len in Hout. lia. }
      rewrite Hnone. reflexivity.
Qed.

Lemma present_fields_without (parts : list string) (i : Z) (indices : list Z) :
  0 <= i -> len parts <= i ->
  present_fields parts indices = present_fields parts (remove Z.eq_dec i indices).
Proof.
  intros Hi Hout.
  assert (Hnone : nth_error parts (Z.to_nat i) = None).
  { apply nth_error_None. unfold len in Hout. lia. }
  induction indices as [| a indices IH]; [reflexivity |].
  cbn [remove]. destruct (Z.eq_dec i a) as [<- | Hne].
  - cbn [present_fields flat_map]. rewrite Hnone. exact IH.
  - cbn [present_fields flat_map]. f_equal. exact IH.
Qed.

Lemma present_fields_all_missing (parts : list string) (indices : list Z) :
  Forall (fun i => len parts <= i) indices -> present_fields parts indices = [].
Proof.
  induction 1 as [| i indices Hi _ IH]; [reflexivity |].
  cbn [present_fields flat_map].
  assert (Hnone : nth_error parts (Z.to_nat i) = None).
  { apply nth_error_None. unfold len in Hi. lia. }
  rewrite Hnone. exact IH.
Qed.

Lemma field_from_end_index (parts : list string) (k : Z) :
  0 < k <= len parts ->
  field_from_end parts k = nth_error parts (Z.to_nat (len parts - k)).
Proof.
  intros Hk. unfold field_from_end, len in *. rewrite nth_error_rev.
  destruct (Nat.ltb_spec (Z.to_nat (k - 1)) (List.length parts)); [| lia].
  f_equal. lia.
Qed.

Lemma select_from_the_end (parts : list string) (k : Z) :
  0 < k ->
  (len parts < k -> prelude.select parts [- k] = py.IndexError)
  /\ (k <= len parts ->
      exists part : string,
        field_from_end parts k = Some part
        /\ prelude.select parts [- k] = py.Got [part]).
Proof.
  intros Hk. cbn [prelude.select]. unfold py.getitem.
  assert (Hlen : 0 <= len parts) by (unfold len; lia).
  destruct (Z.ltb_spec (- k) (len parts)); [| lia].
  destruct (Z.ltb_spec (- k) 0); [| lia].
  split.
  - intros Hfew. destruct (Z.leb_spec 0 (- k + len parts)); [lia | reflexivity].
  - intros Hmany. rewrite field_from_end_index by lia.
    destruct (Z.leb_spec 0 (- k + len parts)); [| lia].
    destruct (Z.ltb_spec (- k + len parts) (len parts)); [| lia]. cbn [andb].
    replace (- k + len parts) with (len parts - k) by lia.
    destruct (nth_error parts (Z.to_nat (len parts - k))) as [part |] eqn:Hnth.
    + exists part. split; reflexivity.
    + apply nth_error_None in Hnth. unfold len in *. lia.
Qed.

(** X19.  With indices that are not negative [cols] never raises, and
    the result has one line for each line of the text: the fields of
    that line at the indices, in the order of the indices and joined by
    a space.  An index beyond the fields of a line is skipped: the line
    gives what it would give without that index, and the empty string
    when every index is beyond its fields. *)
Theorem cols_skips_missing_columns (text : string) (indices : list Z)
    (sep : option string) :
  Forall (fun i => 0 <= i) indices ->
  exists result_lines : list string,
    cols text indices sep
    = py.Got ([py.join prelude.newline result_lines],
              py.join prelude.newline result_lines)
    /\ List.length result_lines = List.length (py.splitlines text)
    /\ result_lines
       = map (fun line => py.join " " (present_fields (split_line line sep) indices))
             (py.splitlines text)
    /\ (forall (line : string) (i : Z),
           In i indices -> len (split_line line sep) <= i ->
           present_fields (split_line line sep) indices
           = present_fields (split_line line sep) (remove Z.eq_dec i indices))
    /\ (forall line : string,
           Forall (fun i => len (split_line line sep) <= i) indices ->
           py.join " " (present_fields (split_line line sep) indices) = EmptyString).
Proof.
  intros Hind. unfold prelude.cols.
  assert (Hloop : forall lines : list string,
             cols_loop lines indices sep
             = py.Got (map (fun line =>
                              py.join " " (present_fields (split_line line sep) indices))
                           lines)).
  { induction lines as [| line lines IH]; cbn [prelude.cols_loop map].
    - reflexivity.
    - rewrite (select_nonnegative (split_line line sep) indices Hind), IH.
      reflexivity. }
  rewrite Hloop. eexists. split; [reflexivity |].
  split; [apply length_map |]. split; [reflexivity |]. split.
  - intros line i Hin Hout. apply present_fields_without; [| exact Hout].
    rewrite Forall_forall in Hind. apply Hind, Hin.
  - intros line Hall. rewrite present_fields_all_missing by exact Hall. reflexivity.
Qed.

(** X20.  A negative index counts fields from the end of each line:
    when every line of the text has at least [k] fields,
    [cols(text, -k)] returns, for each line, its [k]-th field from the
    end.  [cols] raises [IndexError] exactly when some line of the text
    has fewer fields than that: [cols(text, -k)] fails as soon as one
    line has less than [k] fields. *)
Theorem cols_negative_index_may_raise (text : string) (k : Z) (sep : option string) :
  0 < k ->
  (cols text [- k] sep = py.IndexError
   <-> exists line : string,
         In line (py.splitlines text) /\ len (split_line line sep) < k)
  /\ (Forall (fun line => k <= len (split_line line sep)) (py.splitlines text) ->
      exists result_lines : list string,
        cols text [- k] sep
        = py.Got ([py.join prelude.newline result_lines],
                  py.join prelude.newline result_lines)
        /\ Forall2 (fun line result =>
                      field_from_end (split_line line sep) k = Some result)
                   (py.splitlines text) result_lines).
Proof.
  intros Hk. unfold prelude.cols.
  assert (Hloop : forall lines : list string,
             cols_loop lines [- k] sep = py.IndexError
             <-> exists line : string,
                   In line lines /\ len (split_line line sep) < k).
  { induction lines as [| line lines IH]; cbn [prelude.cols_loop].
    - split; [discriminate | intros (line & [] & _)].
    - destruct (select_from_the_end (split_line line sep) k Hk) as [Hfew Hmany].
      destruct (Z.lt_ge_cases (len (split_line line sep)) k) as [Hlt | Hge].
      + rewrite (Hfew Hlt). split; [| reflexivity].
        intros _. exists line. split; [left; reflexivity | exact Hlt].
      + destruct (Hmany ltac:(lia)) as (part & _ & Hsel). rewrite Hsel.
        destruct (cols_loop lines [- k] sep) as [result_lines |] eqn:Hrest.
        * split; [discriminate |].
          intros (l & [-> | Hin] & Hl); [lia |].
          assert (Hno : py.Got result_lines = @py.IndexError (list string)).
          { apply IH. exists l. split; assumption. }
          discriminate Hno.
        * split; [| reflexivity]. intros _.
          destruct (proj1 IH eq_refl) as (l & Hin & Hl).
          exists l. split; [right; exact Hin | exact Hl]. }
  assert (Hfields : forall lines : list string,
             Forall (fun line => k <= len (split_line line sep)) lines ->
             exists result_lines : list string,
               cols_loop lines [- k] sep = py.Got result_lines
               /\ Forall2 (fun line result =>
                             field_from_end (split_line line sep) k = Some result)
                          lines result_lines).
  { induction 1 as [| line lines Hline _ IH]; cbn [prelude.cols_loop].
    - exists []. split; [reflexivity | constructor].
    - destruct (select_from_the_end (split_line line sep) k Hk) as [_ Hmany].
      destruct (Hmany Hline) as (part & Hpart & Hsel).
      destruct IH as (result_lines & Hres & Hall).
      rewrite Hsel, Hres. exists (part :: result_lines).
      split; [reflexivity |]. constructor; assumption. }
  split.
  - destruct (cols_loop (py.splitlines text) [- k] sep) eqn:Hres.
    + split; [discriminate |]. intros Hex. apply Hloop in Hex.
      rewrite Hres in Hex. discriminate Hex.
    + split; [| reflexivity]. intros _. apply Hloop. exact Hres.
  - intros Hall. destruct (Hfields (py.splitlines text) Hall) as (result_lines & Hres & Hthe).
    rewrite Hres. exists result_lines. split; [reflexivity | exact Hthe].
Qed.

End ColsProperties.

(** ** [grep] *)

Lemma numbered_cons {A : Type} (s : Z) (x : A) (l : list A) :
  combine (map (fun k => s + Z.of_nat k) (seq 0 (S (List.length l)))) (x :: l)
  = (s, x) :: combine (map (fun k => (s + 1) + Z.of_nat k) (seq 0 (List.length l))) l.
Proof.
  cbn [seq map combine]. rewrite Z.add_0_r. f_equal.
  rewrite <- seq_shift, map_map. f_equal. apply map_ext. intros k. lia.
Qed.

Lemma numbered_In {A : Type} (l : list A) :
  forall (s i : Z) (x : A),
    In (i, x) (combine (map (fun k => s + Z.of_nat k) (seq 0 (List.length l))) l)
    <-> s <= i /\ nth_error l (Z.to_nat (i - s)) = Some x.
Proof.
  induction l as [| y l IH]; intros s i x.
  - cbn. split; [intros [] |]. intros [_ H]. destruct (Z.to_nat (i - s)); discriminate.
  - cbn [List.length]. rewrite numbered_cons. cbn [In]. rewrite IH. split.
    + intros [E | [Hs Hnth]].
      * injection E as <- <-. split; [lia |]. rewrite Z.sub_diag. reflexivity.
      * split; [lia |].
        replace (Z.to_nat (i - s)) with (S (Z.to_nat (i - (s + 1)))) by lia.
        exact Hnth.
    + intros [Hs Hnth]. destruct (Z.eq_dec i s) as [-> | Hne].
      * left. rewrite Z.sub_diag in Hnth. cbn in Hnth. congruence.
      * right. split; [lia |].
        replace (Z.to_nat (i - s)) with (S (Z.to_nat (i - (s + 1)))) in Hnth by lia.
        exact Hnth.
Qed.

Lemma numbered_filter_increasing {A : Type} (keep : Z * A -> bool) (l : list A) :
  forall s : Z,
    let hits :=
      filter keep (combine (map (fun k => s + Z.of_nat k) (seq 0 (List.length l))) l) in
    Forall (fun h => s <= fst h) hits /\ Sorted Z.lt (map fst hits).
Proof.
  induction l as [| y l IH]; intros s; cbn zeta.
  - cbn. split; constructor.
  - cbn [List.length]. rewrite numbered_cons. cbn [filter].
    destruct (IH (s + 1)) as [Hlow Hsorted]. cbn zeta in Hlow, Hsorted.
    assert (Hlow' : Forall (fun h : Z * A => s <= fst h)
                      (filter keep
                         (combine (map (fun k => s + 1 + Z.of_nat k)
                                     (seq 0 (List.length l))) l))).
    { eapply Forall_impl; [| exact Hlow]. cbn beta. intros h Hh. lia. }
    destruct (keep (s, y)); [| split; assumption].
    split; [constructor; [cbn [fst]; lia | exact Hlow'] |].
    cbn [map fst]. constructor; [exact Hsorted |].
    destruct (filter keep _) as [| h hits]; [constructor |].
    cbn [map]. constructor. inversion Hlow; subst. lia.
Qed.

Section GrepProperties.

Variable rx : Type.
Variable compile : string -> bool -> option rx.
Variable search : rx -> string -> bool.
Variable read_text : string -> option string.
Variable path_str : string -> string.

Local Abbreviation grep := (prelude.grep rx compile search read_text path_str).
Local Abbreviation grep_loop := (prelude.grep_loop rx search).

Lemma grep_loop_hits (r : rx) (lines : list string) (context : Z)
    (numbered : list (Z * string)) :
  snd (grep_loop r lines context numbered)
  = filter (fun h => search r (snd h)) numbered.
Proof.
  induction numbered as [| [i line] numbered IH]; [reflexivity |].
  cbn [prelude.grep_loop filter snd].
  destruct (grep_loop r lines context numbered) as [printed hits].
  cbn [snd] in IH. destruct (search r line); cbn [snd]; rewrite IH; reflexivity.
Qed.

Lemma grep_loop_prints (r : rx) (lines : list string) (numbered : list (Z * string)) :
  fst (grep_loop r lines 0 numbered)
  = map (fun h => (py.str (fst h) ++ ": " ++ snd h)%string)
      (filter (fun h => search r (snd h)) numbered).
Proof.
  induction numbered as [| [i line] numbered IH]; [reflexivity |].
  cbn [prelude.grep_loop filter snd].
  destruct (grep_loop r lines 0 numbered) as [printed hits].
  cbn [fst] in IH. destruct (search r line); cbn [fst map snd Z.eqb app];
    rewrite IH; reflexivity.
Qed.

(** X21.  What [grep] returns are the matching lines of the file with
    their numbers, counted from 1: a pair is a hit exactly when the line
    is at that number in the file and the pattern is found in it; the
    hits come in strictly increasing line numbers; and without context
    the helper prints one line per hit and then the summary. *)
Theorem grep_hits_are_the_matching_lines (pattern path : string)
    (ignore_case : bool) (context : Z)
    (printed : list string) (hits : list (Z * string)) :
  grep pattern path ignore_case context = Some (printed, hits) ->
  exists (r : rx) (data : string),
    compile pattern ignore_case = Some r
    /\ read_text path = Some data
    /\ (forall (i : Z) (line : string),
           In (i, line) hits
           <-> 1 <= i
               /\ nth_error (py.splitlines data) (Z.to_nat (i - 1)) = Some line
               /\ search r line = true)
    /\ Sorted Z.lt (map fst hits)
    /\ (context = 0 ->
        printed
        = map (fun h => (py.str (fst h) ++ ": " ++ snd h)%string) hits
          ++ [("[grep] " ++ py.str (len hits) ++ " matches in "
               ++ path_str path)%string]).
Proof.
  unfold prelude.grep. intros Hgrep.
  destruct (compile pattern ignore_case) as [r |]; [| discriminate].
  destruct (read_text path) as [data |]; [| discriminate].
  exists r, data. split; [reflexivity |]. split; [reflexivity |].
  set (lines := py.splitlines data) in *.
  pose proof (grep_loop_hits r lines context (py.enumerate1 lines)) as Hhits.
  pose proof (grep_loop_prints r lines (py.enumerate1 lines)) as Hprints.
  assert (Henum : py.enumerate1 lines
                  = combine (map (fun k => 1 + Z.of_nat k) (seq 0 (List.length lines)))
                      lines).
  { unfold py.enumerate1, py.range, len. do 3 f_equal. lia. }
  destruct (grep_loop r lines context (py.enumerate1 lines)) as [printed' hits'] eqn:Hloop.
  injection Hgrep as <- <-. cbn [snd] in Hhits. subst hits'.
  rewrite Henum. split; [| split].
  - intros i line. rewrite filter_In, numbered_In. cbn [snd]. tauto.
  - apply (numbered_filter_increasing (fun h => search r (snd h)) lines 1).
  - intros ->. rewrite Hloop in Hprints. cbn [fst] in Hprints.
    rewrite Hprints, Henum. reflexivity.
Qed.

End GrepProperties.

(** ** Instances *)

Lemma main_opens_only_the_given_file_witness :
  In (WaveOpen "a.wav")
    (fst (main (fun path => Raise (WaveOpenError path)) unit
               (fun _ => Ok tt) (fun _ _ _ => Ok "text"%string) (fun s => s)
               ["transcribe.py"; "a.wav"]%string))
  /\ "a.wav"%string = nth 1 ["transcribe.py"; "a.wav"]%string EmptyString.
Proof.
  split; [left; reflexivity |].
  apply (proj2 (main_opens_only_the_given_file
                  (fun path => Raise (WaveOpenError path)) unit
                  (fun _ => Ok tt) (fun _ _ _ => Ok "text"%string) (fun s => s)
                  ["transcribe.py"; "a.wav"]%string)).
  left. reflexivity.
Defined.

Lemma main_reaches_the_model_last_witness :
  In (LoadModel "base.en")
    (fst (main (fun _ => Ok {| getframerate := 16000; getnchannels := 1;
                               getsampwidth := 2; readframes := [x00; x40] |})
               unit (fun _ => Ok tt) (fun _ _ _ => Ok "text"%string) (fun s => s)
               ["transcribe.py"; "a.wav"]%string))
  /\ "base.en"%string = model_argument ["transcribe.py"; "a.wav"]%string.
Proof.
  split; [right; left; reflexivity |].
  apply (proj1 (main_reaches_the_model_last
                  (fun _ => Ok {| getframerate := 16000; getnchannels := 1;
                                  getsampwidth := 2; readframes := [x00; x40] |})
                  unit (fun _ => Ok tt) (fun _ _ _ => Ok "text"%string) (fun s => s)
                  ["transcribe.py"; "a.wav"]%string)).
  right. left. reflexivity.
Defined.

Lemma main_exit_status_witness :
  exit_status
    (snd (main (fun _ => Ok {| getframerate := 16000; getnchannels := 1;
                               getsampwidth := 2; readframes := [x00; x40] |})
               unit (fun _ => Ok tt) (fun _ _ _ => Ok "text"%string) (fun s => s)
               ["transcribe.py"; "a.wav"]%string)) = 0
  /\ exists text : string,
      In (Stdout text)
        (fst (main (fun _ => Ok {| getframerate := 16000; getnchannels := 1;
                                   getsampwidth := 2; readframes := [x00; x40] |})
                   unit (fun _ => Ok tt) (fun _ _ _ => Ok "text"%string) (fun s => s)
                   ["transcribe.py"; "a.wav"]%string)).
Proof.
  split; [reflexivity |].
  apply (proj1 (proj2 (main_exit_status
                         (fun _ => Ok {| getframerate := 16000; getnchannels := 1;
                                         getsampwidth := 2; readframes := [x00; x40] |})
                         unit (fun _ => Ok tt) (fun _ _ _ => Ok "text"%string)
                         (fun s => s) ["transcribe.py"; "a.wav"]%string))).
  reflexivity.
Defined.

Lemma uniq_groups_stand_for_the_lines_witness :
  py.splitlines EmptyString = []
  /\ prelude.uniq EmptyString true = ([], prelude.Groups []).
Proof.
  split; [reflexivity |].
  destruct (uniq_groups_stand_for_the_lines EmptyString) as (groups & _ & _ & _ & _ & H).
  apply H. reflexivity.
Defined.

Lemma uniq_twice_witness :
  last (py.splitlines ("a" ++ prelude.newline ++ "a" ++ prelude.newline ++ "b"))
       "x"%string <> EmptyString
  /\ prelude.uniq ("a" ++ prelude.newline ++ "b") false
     = prelude.uniq ("a" ++ prelude.newline ++ "a" ++ prelude.newline ++ "b") false.
Proof.
  split; [discriminate |].
  apply (uniq_twice ("a" ++ prelude.newline ++ "a" ++ prelude.newline ++ "b")
           ("a" ++ prelude.newline ++ "b")); [discriminate | reflexivity].
Defined.

Lemma cols_skips_missing_columns_witness :
  Forall (fun i => 0 <= i) [0; 2]
  /\ exists result_lines : list string,
      prelude.cols (fun _ _ => []) (fun line => [line]) "a" [0; 2] None
      = py.Got ([py.join prelude.newline result_lines],
                py.join prelude.newline result_lines)
      /\ List.length result_lines = List.length (py.splitlines "a")
      /\ result_lines = ["a"%string].
Proof.
  assert (H : Forall (fun i => 0 <= i) [0; 2]) by (repeat constructor; lia).
  split; [exact H |].
  destruct (cols_skips_missing_columns (fun _ _ => []) (fun line => [line])
              "a" [0; 2] None H) as (result_lines & Hcols & Hlen & Hlines & _).
  exists result_lines. split; [exact Hcols |]. split; [exact Hlen | exact Hlines].
Defined.

Lemma cols_negative_index_may_raise_witness :
  0 < 2
  /\ prelude.cols (fun _ _ => []) (fun line => [line]) "a" [- 2] None = py.IndexError.
Proof.
  split; [lia |].
  apply (proj1 (cols_negative_index_may_raise (fun _ _ => []) (fun line => [line])
                  "a" 2 None ltac:(lia))).
  exists "a"%string. split; [left; reflexivity | reflexivity].
Defined.

Lemma grep_hits_are_the_matching_lines_witness :
  prelude.grep string (fun pattern _ => Some pattern) String.eqb
    (fun _ => Some ("a" ++ prelude.newline ++ "b" ++ prelude.newline ++ "a")%string)
    (fun path => path) "a" "f.txt" false 0
  = Some (["1: a"; "3: a"; "[grep] 2 matches in f.txt"]%string,
          [(1, "a"%string); (3, "a"%string)])
  /\ Sorted Z.lt (map fst [(1, "a"%string); (3, "a"%string)]).
Proof.
  split; [reflexivity |].
  destruct (grep_hits_are_the_matching_lines string (fun pattern _ => Some pattern)
              String.eqb
              (fun _ => Some ("a" ++ prelude.newline ++ "b" ++ prelude.newline ++ "a")%string)
              (fun path => path) "a" "f.txt" false 0
              ["1: a"; "3: a"; "[grep] 2 matches in f.txt"]%string
              [(1, "a"%string); (3, "a"%string)] eq_refl)
    as (r & data & _ & _ & _ & Hsorted & _).
  exact Hsorted.
Defined.
